(** * The kafka-go protocol decoder ([protocol/decode.go])

    A shallow embedding of the byte-budgeted reader, the primitive and
    variable-length codecs, the decode-plan compiler and the [Unmarshal]
    entry point, followed by the properties of the specification that
    were checked against it.

    Conventions.
    - Go's [int], [int16], [int32], [int64], [uint32] and [uint64] are
      [Z] with the wrap-around of every conversion written out.
    - A [[]byte] is a [list byte]; a Go [string] is the list of its bytes.
    - The decoder [d] is threaded through every method: a method of
      [*decoder] returning [A] is a computation [M A], which ends
      normally with a result and the new decoder, or with a Go runtime
      panic that leaves the decoder as it was at that point. *)

From Stdlib Require Import ZArith Lia Bool.
From Stdlib Require Import Init.Byte Strings.Byte.
From stdpp Require Import base option list gmap.

Local Open Scope Z_scope.
Set Warnings "-register-all".

(** ** Machine integers *)

Module Int.

(** Conversion to an unsigned integer of [w] bits. *)
Definition unsigned (w : Z) (x : Z) : Z := x mod 2 ^ w.

(** Conversion to a signed (two's complement) integer of [w] bits. *)
Definition signed (w : Z) (x : Z) : Z :=
  (x + 2 ^ (w - 1)) mod 2 ^ w - 2 ^ (w - 1).

Definition uint8 := unsigned 8.
Definition uint32 := unsigned 32.
Definition uint64 := unsigned 64.
Definition int8 := signed 8.
Definition int16 := signed 16.
Definition int32 := signed 32.
Definition int64 := signed 64.

(** Go's [int] on the 64-bit platforms the library targets. *)
Definition int := signed 64.

Definition u8 (b : byte) : Z := Z.of_N (Byte.to_N b).

(** The byte whose value is [z mod 256]. *)
Definition byte_of_Z (z : Z) : byte :=
  default Byte.x00 (Byte.of_N (Z.to_N (z mod 256))).

End Int.

(** ** Errors *)

Inductive error : Type :=
| EOF                 (* io.EOF *)
| ErrUnexpectedEOF    (* io.ErrUnexpectedEOF, with or without a stack *)
| ErrVarInt           (* "cannot decode varint from input stream" *)
| ErrUnsignedVarInt   (* "cannot decode unsigned varint from input stream" *)
| ErrNegativeCount    (* bufio.ErrNegativeCount *)
| ErrOther (code : Z) (* any other error of a source or of a custom codec *).

#[global] Instance error_eq_dec : EqDecision error.
Proof. solve_decision. Defined.

(** ** The underlying byte source ([io.Reader])

    A source holds the bytes it will still deliver.  [short] bounds what
    one [Read] call returns ([0]: everything asked for, as [bytes.Reader]
    does; [S c]: at most [S c] bytes, as a socket or a [bufio.Reader]
    may).  [at_end] is the error reported once the bytes are exhausted
    ([io.EOF] for an in-memory reader).  [has_discard] tells whether the
    source also implements the [discarder] interface. *)

Record source : Type := mkSource {
  pending : list byte;
  short : nat;
  at_end : error;
  has_discard : bool;
}.

Definition bytesReader (data : list byte) : source :=
  {| pending := data; short := 0; at_end := EOF; has_discard := false |}.

Definition bufioReader (data : list byte) : source :=
  {| pending := data; short := 0; at_end := EOF; has_discard := true |}.

Definition with_pending (r : source) (p : list byte) : source :=
  {| pending := p; short := short r; at_end := at_end r;
     has_discard := has_discard r |}.

Definition per_call (r : source) (k : nat) : nat :=
  match short r with
  | O => k
  | S c => Nat.min k (S c)
  end.

(** [r.Read(b)] with [len(b) = k]: the bytes stored in [b[:n]], the error
    and the source afterwards. *)
Definition src_read (r : source) (k : nat) : list byte * option error * source :=
  match pending r with
  | [] => ([], Some (at_end r), r)
  | _ :: _ =>
      let n := per_call r k in
      (take n (pending r), None, with_pending r (drop n (pending r)))
  end.

(** [r.Discard(n)]: the number of bytes skipped, the error and the source
    afterwards. *)
Definition src_discard (r : source) (n : Z) : Z * option error * source :=
  if n <? 0 then (0, Some ErrNegativeCount, r)
  else
    let m := Nat.min (Z.to_nat n) (length (pending r)) in
    (Z.of_nat m,
     if (Z.of_nat m <? n) then Some (at_end r) else None,
     with_pending r (drop m (pending r))).

(** ** Checksums ([hash/crc32])

    A table is determined by its polynomial; an entry is computed the way
    [crc32.MakeTable] fills it. *)

Module Crc32.

Definition entry_step (poly crc : Z) : Z :=
  if Z.land crc 1 =? 1 then Z.lxor (Z.shiftr crc 1) poly else Z.shiftr crc 1.

Definition entry (poly : Z) (i : Z) : Z :=
  Nat.iter 8 (entry_step poly) i.

Definition update_byte (poly : Z) (crc : Z) (v : byte) : Z :=
  Z.lxor (entry poly (Z.lxor (Int.uint8 crc) (Int.u8 v))) (Z.shiftr crc 8).

Definition complement (crc : Z) : Z := Z.lxor crc 0xffffffff.

Definition Update (crc : Z) (poly : Z) (p : list byte) : Z :=
  complement (fold_left (update_byte poly) p (complement crc)).

End Crc32.

(** ** The decoder *)

Record decoder : Type := mkDecoder {
  reader : source;
  remain : Z;
  buffer : list byte;
  err : option error;
  table : option Z;
  crc32 : Z;
}.

Definition set_reader (r : source) (d : decoder) : decoder :=
  {| reader := r; remain := remain d; buffer := buffer d; err := err d;
     table := table d; crc32 := crc32 d |}.
Definition set_remain (n : Z) (d : decoder) : decoder :=
  {| reader := reader d; remain := n; buffer := buffer d; err := err d;
     table := table d; crc32 := crc32 d |}.
Definition set_buffer (b : list byte) (d : decoder) : decoder :=
  {| reader := reader d; remain := remain d; buffer := b; err := err d;
     table := table d; crc32 := crc32 d |}.
Definition set_err (e : option error) (d : decoder) : decoder :=
  {| reader := reader d; remain := remain d; buffer := buffer d; err := e;
     table := table d; crc32 := crc32 d |}.
Definition set_crc32 (c : Z) (d : decoder) : decoder :=
  {| reader := reader d; remain := remain d; buffer := buffer d; err := err d;
     table := table d; crc32 := c |}.

Definition zeroBuffer : list byte := replicate 8 Byte.x00.

Definition Reset (r : source) (n : Z) (d : decoder) : decoder :=
  {| reader := r; remain := n; buffer := zeroBuffer; err := None;
     table := None; crc32 := 0 |}.

Definition setCRC (t : Z) (d : decoder) : decoder :=
  {| reader := reader d; remain := remain d; buffer := buffer d; err := err d;
     table := Some t; crc32 := 0 |}.

(** ** Computations over the decoder *)

Inductive result (A : Type) : Type :=
| Ok (a : A) (d : decoder)   (* normal return *)
| Panic (d : decoder)        (* runtime panic; [d] as the panic left it *)
| OutOfFuel (d : decoder)    (* a library loop of the model ran out of fuel *).
Arguments Ok {A} a d.
Arguments Panic {A} d.
Arguments OutOfFuel {A} d.

Definition M (A : Type) : Type := decoder -> result A.

Definition ret {A} (a : A) : M A := fun d => Ok a d.

Definition bind {A B} (m : M A) (k : A -> M B) : M B :=
  fun d =>
    match m d with
    | Ok a d' => k a d'
    | Panic d' => Panic d'
    | OutOfFuel d' => OutOfFuel d'
    end.

Definition panic {A} : M A := fun d => Panic d.

Notation "'let*' x ':=' m 'in' k" := (bind m (fun x => k))
  (at level 10, x name, m at level 100, k at level 200, only parsing).

(** The decoder in which a computation ended. *)
Definition final {A} (r : result A) : decoder :=
  match r with
  | Ok _ d => d
  | Panic d => d
  | OutOfFuel d => d
  end.

Definition done (d : decoder) : bool :=
  (remain d =? 0) || bool_decide (err d <> None).

(** ** The byte-budgeted reader *)

(** [d.Read(b)] with [len(b) = k]: the bytes stored in [b[:n]] and the
    error.  With a negative budget the slice expression [b[:d.remain]]
    is out of range and panics. *)
Definition Read (k : nat) : M (list byte * option error) := fun d =>
  match err d with
  | Some e => Ok ([], Some e) d
  | None =>
      if remain d =? 0 then Ok ([], Some EOF) d
      else if (Z.of_nat k >? remain d) && (remain d <? 0) then Panic d
      else
        let k' := if Z.of_nat k >? remain d then Z.to_nat (remain d) else k in
        let '(bs, e, r) := src_read (reader d) k' in
        let n := Z.of_nat (length bs) in
        let c := match table d with
                 | Some t => if n >? 0 then Crc32.Update (crc32 d) t bs else crc32 d
                 | None => crc32 d
                 end in
        Ok (bs, e)
           {| reader := r; remain := remain d - n; buffer := buffer d;
              err := err d; table := table d; crc32 := c |}
  end.

(** What [io.ReadAtLeast] returns once its loop has ended with [got]
    bytes read and [e] the error of the last [Read]. *)
Definition readAtLeast_exit (min : nat) (got : list byte) (e : option error)
  : list byte * option error :=
  if (min <=? length got)%nat then (got, None)
  else if (0 <? length got)%nat && bool_decide (e = Some EOF)
       then (got, Some ErrUnexpectedEOF)
       else (got, e).

(** The loop [for n < min && err == nil] of [io.ReadAtLeast], reading
    from the decoder itself. *)
Fixpoint readAtLeast (fuel : nat) (min : nat) (got : list byte)
    (e : option error) : M (list byte * option error) :=
  if (length got <? min)%nat && bool_decide (e = None) then
    match fuel with
    | O => fun d => OutOfFuel d
    | S fuel' =>
        let* r := Read (min - length got) in
        readAtLeast fuel' min (got ++ r.1) r.2
    end
  else ret (readAtLeast_exit min got e).

(** [io.ReadFull(d, b)] with [len(b) = k]. *)
Definition ioReadFull (k : nat) : M (list byte * option error) :=
  readAtLeast (S k) k [] None.

(** The loop of [io.Copy(w, d)] through a buffer of [bufsize] bytes: the
    bytes handed to the writer, and the error ([io.EOF] ends the copy
    without being an error).  The writer never fails. *)
Fixpoint ioCopy_loop (fuel : nat) (bufsize : nat) (got : list byte)
  : M (list byte * option error) :=
  match fuel with
  | O => fun d => OutOfFuel d
  | S fuel' =>
      let* r := Read bufsize in
      match r.2 with
      | None => ioCopy_loop fuel' bufsize (got ++ r.1)
      | Some e => ret (got ++ r.1, if bool_decide (e = EOF) then None else Some e)
      end
  end.

Definition ioCopy (bufsize : nat) : M (list byte * option error) := fun d =>
  ioCopy_loop (S (Z.to_nat (remain d))) bufsize [] d.

(** [discard], with the [setError] it ends in left open: [setError] and
    [discard] call each other. *)
Definition discard_with (setError : option error -> M unit) (n : Z) : M unit :=
  fun d =>
    let n := if n >? remain d then remain d else n in
    if has_discard (reader d) then
      let '(n', e, r) := src_discard (reader d) n in
      setError e (set_remain (remain d - n') (set_reader r d))
    else
      (let* r := ioCopy (Z.to_nat 8192) in setError r.2) d.

(** [setError]; [depth] bounds the nesting of [setError] inside
    [discardAll] inside [setError].  The inner call finds [d.err] set
    and returns, so one level is enough. *)
Fixpoint setError_rec (depth : nat) (e : option error) : M unit := fun d =>
  match err d, e with
  | None, Some _ =>
      let d' := set_err e d in
      match depth with
      | O => OutOfFuel d'
      | S depth' => discard_with (setError_rec depth') (remain d') d'
      end
  | _, _ => Ok tt d
  end.

Definition setError : option error -> M unit := setError_rec 1.

Definition discard : Z -> M unit := discard_with setError.

Definition discardAll : M unit := fun d => discard (remain d) d.

(** [d.read(n)]; [make([]byte, n)] panics for a negative [n]. *)
Definition read (n : Z) : M (list byte) :=
  if n <? 0 then panic
  else
    let* r := ioReadFull (Z.to_nat n) in
    let* _ := setError r.2 in
    ret r.1.

(** [d.writeTo(w, n)]; the writer is the list of bytes written so far. *)
Definition writeTo (w : list byte) (n : Z) : M (list byte) := fun d =>
  let limit := remain d in
  let d := if n <? limit then set_remain n d else d in
  (let* r := ioCopy (Z.to_nat 32768) in
   let c := Z.of_nat (length r.1) in
   let e := if (Int.int c <? n) && bool_decide (r.2 = None)
            then Some ErrUnexpectedEOF else r.2 in
   let* _ := (fun d => Ok tt (set_remain (limit - Int.int c) d)) in
   let* _ := setError e in
   ret (w ++ r.1)) d.

(** [d.readFull(d.buffer[:k])]: the bytes read land in the scratch
    buffer. *)
Definition readFull (k : nat) : M bool :=
  let* r := ioReadFull k in
  let* _ := (fun d => Ok tt (set_buffer (r.1 ++ drop (length r.1) (buffer d)) d)) in
  let* _ := setError r.2 in
  ret (length r.1 =? k)%nat.

(** ** Fixed-width codecs *)

Module Fixed.

Definition at_ (b : list byte) (i : nat) : Z := Int.u8 (nth i b Byte.x00).

(** [binary.BigEndian.Uint16], [Uint32] and [Uint64]. *)
Definition Uint16 (b : list byte) : Z :=
  Z.lor (at_ b 1) (Z.shiftl (at_ b 0) 8).

Definition Uint32 (b : list byte) : Z :=
  Z.lor (Z.lor (Z.lor (at_ b 3) (Z.shiftl (at_ b 2) 8))
               (Z.shiftl (at_ b 1) 16))
        (Z.shiftl (at_ b 0) 24).

Definition Uint64 (b : list byte) : Z :=
  Z.lor (Z.lor (Z.lor (Z.lor (Z.lor (Z.lor (Z.lor
    (at_ b 7) (Z.shiftl (at_ b 6) 8)) (Z.shiftl (at_ b 5) 16))
    (Z.shiftl (at_ b 4) 24)) (Z.shiftl (at_ b 3) 32))
    (Z.shiftl (at_ b 2) 40)) (Z.shiftl (at_ b 1) 48))
    (Z.shiftl (at_ b 0) 56).

(** The package-level [readInt8], [readInt16], [readInt32] and
    [readInt64]. *)
Definition readInt8 (b : list byte) : Z := Int.int8 (at_ b 0).
Definition readInt16 (b : list byte) : Z := Int.int16 (Uint16 b).
Definition readInt32 (b : list byte) : Z := Int.int32 (Uint32 b).
Definition readInt64 (b : list byte) : Z := Int.int64 (Uint64 b).

End Fixed.

Definition readByte : M byte :=
  let* ok := readFull 1 in
  if ok then (fun d => Ok (nth 0 (buffer d) Byte.x00) d) else ret Byte.x00.

Definition ReadByte : M (byte * option error) :=
  let* c := readByte in fun d => Ok (c, err d) d.

Definition readBool : M bool :=
  let* b := readByte in ret (negb (Int.u8 b =? 0)).

Definition readInt8 : M Z :=
  let* ok := readFull 1 in
  if ok then (fun d => Ok (Fixed.readInt8 (take 1 (buffer d))) d) else ret 0.

Definition readInt16 : M Z :=
  let* ok := readFull 2 in
  if ok then (fun d => Ok (Fixed.readInt16 (take 2 (buffer d))) d) else ret 0.

Definition readInt32 : M Z :=
  let* ok := readFull 4 in
  if ok then (fun d => Ok (Fixed.readInt32 (take 4 (buffer d))) d) else ret 0.

Definition readInt64 : M Z :=
  let* ok := readFull 8 in
  if ok then (fun d => Ok (Fixed.readInt64 (take 8 (buffer d))) d) else ret 0.

(** ** Variable-length integers *)

(** [int64(x>>1) ^ -(int64(x) & 1)] *)
Definition zigzag (x : Z) : Z :=
  Z.lxor (Int.int64 (Z.shiftr x 1)) (- Z.land (Int.int64 x) 1).

(** [x | uint64(b) << s] on [uint64]. *)
Definition or_shifted (x b s : Z) : Z :=
  Z.lor x (Int.uint64 (Z.shiftl b s)).

(** The loop [for n > 0] shared by the two varint readers; [finish] is
    what the reader returns from the accumulated [x], [failure] the
    error it sets when the loop ends without a terminating byte. *)
Fixpoint varint_loop (finish : Z -> Z) (failure : error) (n : nat) (x s : Z)
  : M Z :=
  match n with
  | O => let* _ := setError (Some failure) in ret 0
  | S n' =>
      let* b := readByte in
      if Z.land (Int.u8 b) 0x80 =? 0
      then ret (finish (or_shifted x (Int.u8 b) s))
      else varint_loop finish failure n'
             (or_shifted x (Z.land (Int.u8 b) 0x7f) s) (s + 7)
  end.

(** [n := 11; if n > d.remain { n = d.remain }] *)
Definition varint_groups (d : decoder) : Z :=
  if 11 >? remain d then remain d else 11.

Definition readVarInt : M Z := fun d =>
  varint_loop zigzag ErrVarInt (Z.to_nat (varint_groups d)) 0 0 d.

Definition readUnsignedVarInt : M Z := fun d =>
  varint_loop (fun x => x) ErrUnsignedVarInt (Z.to_nat (varint_groups d)) 0 0 d.

(** ** Strings and byte sequences *)

(** Modelled from the spec: [bytesToString] is not part of the sources
    at hand.  A string is the bytes consumed for it, so the conversion
    keeps them as they are. *)
Definition bytesToString (b : list byte) : list byte := b.

Definition readString : M (list byte) :=
  let* n := readInt16 in
  if n <? 0 then ret [] else let* b := read (Int.int n) in ret (bytesToString b).

Definition readVarString : M (list byte) :=
  let* n := readVarInt in
  if n <? 0 then ret [] else let* b := read (Int.int n) in ret (bytesToString b).

Definition readCompactString : M (list byte) :=
  let* n := readUnsignedVarInt in
  if n <? 1 then ret []
  else let* b := read (Int.int (Int.uint64 (n - 1))) in ret (bytesToString b).

(** A [[]byte] result is [None] for [nil]. *)
Definition readBytes : M (option (list byte)) :=
  let* n := readInt32 in
  if n <? 0 then ret None else let* b := read (Int.int n) in ret (Some b).

Definition readBytesTo (w : list byte) : M (list byte * bool) :=
  let* n := readInt32 in
  if n <? 0 then ret (w, false)
  else let* w' := writeTo w (Int.int n) in
       fun d => Ok (w', bool_decide (err d = None)) d.

Definition readVarBytes : M (option (list byte)) :=
  let* n := readVarInt in
  if n <? 0 then ret None else let* b := read (Int.int n) in ret (Some b).

Definition readVarBytesTo (w : list byte) : M (list byte * bool) :=
  let* n := readVarInt in
  if n <? 0 then ret (w, false)
  else let* w' := writeTo w (Int.int n) in
       fun d => Ok (w', bool_decide (err d = None)) d.

Definition readCompactBytes : M (option (list byte)) :=
  let* n := readUnsignedVarInt in
  if n <? 1 then ret None
  else let* b := read (Int.int (Int.uint64 (n - 1))) in ret (Some b).

Definition readCompactBytesTo (w : list byte) : M (list byte * bool) :=
  let* n := readUnsignedVarInt in
  if n <? 1 then ret (w, false)
  else let* w' := writeTo w (Int.int (Int.uint64 (n - 1))) in
       fun d => Ok (w', bool_decide (err d = None)) d.

(** ** Shapes and destination values *)

(** Modelled from the spec: the declaration of [structTag] is not part
    of the sources at hand.  Its fields are those of the literal in
    [Unmarshal] and of the field tag [{MinVersion, MaxVersion, TagID,
    Compact, Nullable}] of the specification. *)
Record structTag : Type := mkStructTag {
  MinVersion : Z;
  MaxVersion : Z;
  TagID : Z;
  Compact : bool;
  Nullable : bool;
}.

#[global] Instance structTag_eq_dec : EqDecision structTag.
Proof. solve_decision. Defined.

Module reflect.

(** The shapes [decodeFuncOf] distinguishes.  [ReaderFrom name] is any
    type whose pointer implements [io.ReaderFrom]; [Other] is any
    remaining kind.

    Modelled from the spec: [forEachStructField] is not part of the
    sources at hand.  It iterates the declared fields of a struct in
    declaration order, so a [Struct] lists, for every field it visits,
    the field's type and the tags the field declares. *)
Inductive type : Type :=
| Bool | Int8 | Int16 | Int32 | Int64 | String | Uint8
| Struct (fields : list (type * list structTag))
| Slice (elem : type)
| ReaderFrom (name : nat)
| Other.

End reflect.
Import reflect(type).

(** Modelled from the spec: the type [value], its setters, [array] and
    [makeArray] are not part of the sources at hand.  A destination
    reference is "a write-only handle into a caller-owned structured
    value, supporting typed setters for each primitive kind plus make
    array of length N, element shape E and get nested struct field by
    path".  A [val] is what a destination holds; [VBytes None] and
    [VArray None] are the [nil] slices, and a setter replaces what the
    destination held. *)
Inductive val : Type :=
| VBool (b : bool)
| VInt8 (x : Z)
| VInt16 (x : Z)
| VInt32 (x : Z)
| VInt64 (x : Z)
| VString (s : list byte)
| VBytes (b : option (list byte))
| VStruct (fields : list val)
| VArray (a : option (list val))
| VCustom (payload : list Z).

Definition setBool (v : val) (x : bool) : val := VBool x.
Definition setInt8 (v : val) (x : Z) : val := VInt8 x.
Definition setInt16 (v : val) (x : Z) : val := VInt16 x.
Definition setInt32 (v : val) (x : Z) : val := VInt32 x.
Definition setInt64 (v : val) (x : Z) : val := VInt64 x.
Definition setString (v : val) (x : list byte) : val := VString x.
Definition setBytes (v : val) (x : option (list byte)) : val := VBytes x.
Definition setArray (v : val) (a : option (list val)) : val := VArray a.

(** The zero value of a shape: what a destination holds before it is
    written, and what the elements of a fresh array are. *)
Fixpoint zero (t : type) : val :=
  match t with
  | reflect.Bool => VBool false
  | reflect.Int8 => VInt8 0
  | reflect.Int16 => VInt16 0
  | reflect.Int32 => VInt32 0
  | reflect.Int64 => VInt64 0
  | reflect.String => VString []
  | reflect.Uint8 => VInt8 0
  | reflect.Struct fs =>
      VStruct ((fix zeros (fs : list (type * list structTag)) : list val :=
                  match fs with
                  | [] => []
                  | f :: rest => zero f.1 :: zeros rest
                  end) fs)
  | reflect.Slice reflect.Uint8 => VBytes None
  | reflect.Slice _ => VArray None
  | reflect.ReaderFrom _ => VCustom []
  | reflect.Other => VCustom []
  end.

(** Modelled from the spec: [makeArray(elemType, n)] makes an "array of
    length N, element shape E", that is [n] zero elements; reflection
    panics on a negative length. *)
Definition makeArray (elemType : type) (n : Z) : M (list val) :=
  if n <? 0 then panic else ret (replicate (Z.to_nat n) (zero elemType)).

(** A compiled decode routine: from what the destination holds to what
    it holds afterwards. *)
Definition decodeFunc : Type := val -> M val.

Definition decodeBool : decodeFunc := fun v =>
  let* x := readBool in ret (setBool v x).
Definition decodeInt8 : decodeFunc := fun v =>
  let* x := readInt8 in ret (setInt8 v x).
Definition decodeInt16 : decodeFunc := fun v =>
  let* x := readInt16 in ret (setInt16 v x).
Definition decodeInt32 : decodeFunc := fun v =>
  let* x := readInt32 in ret (setInt32 v x).
Definition decodeInt64 : decodeFunc := fun v =>
  let* x := readInt64 in ret (setInt64 v x).
Definition decodeString : decodeFunc := fun v =>
  let* x := readString in ret (setString v x).
Definition decodeCompactString : decodeFunc := fun v =>
  let* x := readCompactString in ret (setString v x).
Definition decodeBytes : decodeFunc := fun v =>
  let* x := readBytes in ret (setBytes v x).
Definition decodeCompactBytes : decodeFunc := fun v =>
  let* x := readCompactBytes in ret (setBytes v x).

(** [for i := 0; i < n && d.remain > 0; i++ { decodeElem(d, a.index(i)) }],
    with [count] the iterations still allowed by [i < n]. *)
Fixpoint decodeElems (decodeElem : decodeFunc) (count : nat) (i : nat)
    (a : list val) : M (list val) :=
  match count with
  | O => ret a
  | S count' => fun d =>
      if remain d >? 0 then
        match a !! i with
        | Some x =>
            (let* x' := decodeElem x in
             decodeElems decodeElem count' (S i) (<[i := x']> a)) d
        | None => Panic d
        end
      else Ok a d
  end.

Definition decodeArray (elemType : type) (decodeElem : decodeFunc)
  : decodeFunc := fun v =>
  let* n := readInt32 in
  if n <? 0 then ret (setArray v None)
  else
    let* a := makeArray elemType (Int.int n) in
    let* a := decodeElems decodeElem (Z.to_nat (Int.int n)) 0 a in
    ret (setArray v (Some a)).

Definition decodeCompactArray (elemType : type) (decodeElem : decodeFunc)
  : decodeFunc := fun v =>
  let* n := readUnsignedVarInt in
  if n <? 1 then ret (setArray v None)
  else
    let* a := makeArray elemType (Int.int (Int.uint64 (n - 1))) in
    let* a := decodeElems decodeElem
                (Z.to_nat (Int.int (Int.uint64 (n - 1)))) 0 a in
    ret (setArray v (Some a)).

(** ** The decode-plan compiler *)

(** The [field] of [structDecodeFuncOf].  The type [index] is not part
    of the sources at hand: here it is the position of the field among
    the fields of the struct, which is what [fieldByIndex] needs. *)
Record field : Type := mkField {
  decode : decodeFunc;
  index : nat;
  tagID : Z;
}.

(** The test [forEachStructTag]'s callback applies to a tag. *)
Definition applies (version : Z) (tag : structTag) : bool :=
  (MinVersion tag <=? version) && (version <=? MaxVersion tag).

(** Modelled from the spec: [forEachStructTag] is not part of the
    sources at hand.  It hands the tags of a field to the callback one
    by one and stops as soon as the callback returns [false], which the
    callback of [structDecodeFuncOf] does at the first tag whose version
    range holds the requested version: the tag the field is compiled
    with, if any. *)
Definition forEachStructTag (version : Z) (tags : list structTag)
  : option structTag :=
  List.find (applies version) tags.

(** [f.decode(d, v.fieldByIndex(f.index))].  Modelled from the spec:
    [fieldByIndex] is not part of the sources at hand; it is the "get
    nested struct field by path" of a destination reference, and
    reflection panics when [v] is no struct or has no such field. *)
Definition decodeField (f : field) : decodeFunc := fun v =>
  match v with
  | VStruct fs =>
      match fs !! index f with
      | Some x =>
          let* x' := decode f x in ret (VStruct (<[index f := x']> fs))
      | None => panic
      end
  | _ => panic
  end.

(** [for i := range fields { ... }] *)
Fixpoint decodeFields (fields : list field) : decodeFunc := fun v =>
  match fields with
  | [] => ret v
  | f :: rest => let* v' := decodeField f v in decodeFields rest v'
  end.

(** The body of [for i := 0; i < n; i++] over the tag buffer. *)
Definition decodeTaggedField (taggedFields : gmap Z field) : decodeFunc :=
  fun v =>
  let* t := readUnsignedVarInt in
  let* s := readUnsignedVarInt in
  let tagID := Int.int t in
  let size := Int.int s in
  match taggedFields !! tagID with
  | Some f => decodeField f v
  | None => let* _ := read size in ret v
  end.

Fixpoint decodeTaggedFields (taggedFields : gmap Z field) (n : nat)
  : decodeFunc := fun v =>
  match n with
  | O => ret v
  | S n' =>
      let* v' := decodeTaggedField taggedFields v in
      decodeTaggedFields taggedFields n' v'
  end.

(** The routine [structDecodeFuncOf] returns, for the [fields] and
    [taggedFields] it has collected. *)
Definition structDecode (fields : list field) (taggedFields : gmap Z field)
    (flexible : bool) : decodeFunc := fun v =>
  let* v := decodeFields fields v in
  if flexible then
    let* n := readUnsignedVarInt in
    decodeTaggedFields taggedFields (Z.to_nat (Int.int n)) v
  else ret v.

Definition stringDecodeFuncOf (flexible : bool) (tag : structTag) : decodeFunc :=
  if flexible then decodeCompactString else decodeString.

Definition bytesDecodeFuncOf (flexible : bool) (tag : structTag) : decodeFunc :=
  if flexible then decodeCompactBytes else decodeBytes.

(** Registering one compiled field: [fields = append(fields, f)] for an
    ordinary field, [taggedFields[tag.TagID] = &f] otherwise. *)
Definition register (f : field) (acc : list field * gmap Z field)
  : list field * gmap Z field :=
  if tagID f <? -1 then (acc.1 ++ [f], acc.2)
  else (acc.1, <[tagID f := f]> acc.2).

Section Compiler.

(** The custom codecs: [ReadFrom name v] is what the [ReadFrom] method
    of the type [name] does with the decoder it is handed, with its
    value and its error. *)
Variable ReadFrom : nat -> val -> M (val * option error).

Definition readerDecodeFuncOf (name : nat) : decodeFunc := fun v d =>
  match err d with
  | None =>
      (let* r := ReadFrom name v in
       match r.2 with
       | Some e => let* _ := setError (Some e) in ret r.1
       | None => ret r.1
       end) d
  | Some _ => Ok v d
  end.

(** [decodeFuncOf]; [None] is the panic on an unsupported type.  The
    inner [collect] is the [forEachStructField] loop of
    [structDecodeFuncOf], [i] the index of the field at hand. *)
Fixpoint decodeFuncOf (typ : type) (version : Z) (flexible : bool)
    (tag : structTag) {struct typ} : option decodeFunc :=
  match typ with
  | reflect.ReaderFrom name => Some (readerDecodeFuncOf name)
  | reflect.Bool => Some decodeBool
  | reflect.Int8 => Some decodeInt8
  | reflect.Int16 => Some decodeInt16
  | reflect.Int32 => Some decodeInt32
  | reflect.Int64 => Some decodeInt64
  | reflect.String => Some (stringDecodeFuncOf flexible tag)
  | reflect.Struct fs =>
      let collect :=
        fix collect (fs : list (type * list structTag)) (i : nat)
            (acc : list field * gmap Z field) {struct fs}
          : option (list field * gmap Z field) :=
          match fs with
          | [] => Some acc
          | f :: rest =>
              match forEachStructTag version f.2 with
              | None => collect rest (S i) acc
              | Some tag =>
                  match decodeFuncOf f.1 version flexible tag with
                  | None => None
                  | Some dec =>
                      collect rest (S i)
                        (register {| decode := dec; index := i;
                                     tagID := TagID tag |} acc)
                  end
              end
          end in
      match collect fs O ([], ∅) with
      | None => None
      | Some acc => Some (structDecode acc.1 acc.2 flexible)
      end
  | reflect.Slice elem =>
      match elem with
      | reflect.Uint8 => Some (bytesDecodeFuncOf flexible tag)
      | _ =>
          match decodeFuncOf elem version flexible tag with
          | None => None
          | Some elemFunc =>
              Some (if flexible then decodeCompactArray elem elemFunc
                    else decodeArray elem elemFunc)
          end
      end
  | reflect.Uint8 | reflect.Other => None
  end.

(** The [forEachStructField] loop of [structDecodeFuncOf] on its own. *)
Fixpoint collectFields (version : Z) (flexible : bool)
    (fs : list (type * list structTag)) (i : nat)
    (acc : list field * gmap Z field)
  : option (list field * gmap Z field) :=
  match fs with
  | [] => Some acc
  | f :: rest =>
      match forEachStructTag version f.2 with
      | None => collectFields version flexible rest (S i) acc
      | Some tag =>
          match decodeFuncOf f.1 version flexible tag with
          | None => None
          | Some dec =>
              collectFields version flexible rest (S i)
                (register {| decode := dec; index := i;
                             tagID := TagID tag |} acc)
          end
      end
  end.

Definition structDecodeFuncOf (fs : list (type * list structTag))
    (version : Z) (flexible : bool) : option decodeFunc :=
  match collectFields version flexible fs O ([], ∅) with
  | None => None
  | Some acc => Some (structDecode acc.1 acc.2 flexible)
  end.

Definition arrayDecodeFuncOf (elem : type) (version : Z) (flexible : bool)
    (tag : structTag) : option decodeFunc :=
  match decodeFuncOf elem version flexible tag with
  | None => None
  | Some elemFunc =>
      Some (if flexible then decodeCompactArray elem elemFunc
            else decodeArray elem elemFunc)
  end.

End Compiler.

(** ** The plan cache, the decoder pool and the entry point *)

(** Equality of shapes, by which the cache tells its keys apart. *)
Definition tags_eqb (a b : list structTag) : bool := bool_decide (a = b).

Fixpoint type_eqb (a b : type) {struct a} : bool :=
  match a, b with
  | reflect.Bool, reflect.Bool
  | reflect.Int8, reflect.Int8
  | reflect.Int16, reflect.Int16
  | reflect.Int32, reflect.Int32
  | reflect.Int64, reflect.Int64
  | reflect.String, reflect.String
  | reflect.Uint8, reflect.Uint8
  | reflect.Other, reflect.Other => true
  | reflect.Struct fs, reflect.Struct gs =>
      (fix fields_eqb (fs gs : list (type * list structTag)) {struct fs} : bool :=
         match fs, gs with
         | [], [] => true
         | f :: fs', g :: gs' =>
             type_eqb f.1 g.1 && tags_eqb f.2 g.2 && fields_eqb fs' gs'
         | _, _ => false
         end) fs gs
  | reflect.Slice e, reflect.Slice e' => type_eqb e e'
  | reflect.ReaderFrom n, reflect.ReaderFrom m => Nat.eqb n m
  | _, _ => false
  end.

(** The key of the cache: the fields of the literal in [Unmarshal]. *)
Record versionedType : Type := mkVersionedType {
  typ : type;
  version : Z;
}.

Definition versionedType_eqb (a b : versionedType) : bool :=
  type_eqb (typ a) (typ b) && (version a =? version b).

(** [map[versionedType]decodeFunc] *)
Definition planCache : Type := versionedType -> option decodeFunc.

Definition emptyCache : planCache := fun _ => None.

(** [newCache[key] = decode], over which the entries of the old cache
    are copied. *)
Definition publish (cache : planCache) (key : versionedType)
    (decode : decodeFunc) : planCache :=
  fun k =>
    match cache k with
    | Some f => Some f
    | None => if versionedType_eqb k key then Some decode else None
    end.

(** The process-wide state: the pool [decoders] and the published cache
    [unmarshalers]. *)
Record globals : Type := mkGlobals {
  decoders : list decoder;
  unmarshalers : planCache;
}.

(** [&decoder{reader: bytes.NewReader(nil)}] *)
Definition newDecoder : decoder :=
  {| reader := bytesReader []; remain := 0; buffer := zeroBuffer;
     err := None; table := None; crc32 := 0 |}.

(** Modelled from the spec: [dontExpectEOF] is not part of the sources
    at hand.  The entry point "reports the cursor's final error": no
    error stays no error, and a "premature end-of-input, encountered
    while more required bytes were still expected, is reported", as the
    "distinct unexpected end of input signal".  In [decode.go] the plain
    [io.EOF] gets into [d.err] when a read that wanted bytes found none,
    and never from [Read] reaching a budget of zero, which does not
    latch what it returns; so a latched [io.EOF] is premature and is
    reported as [io.ErrUnexpectedEOF].  Every other error is reported as
    it is. *)
Definition dontExpectEOF (e : option error) : option error :=
  match e with
  | Some EOF => Some ErrUnexpectedEOF
  | _ => e
  end.

(** The tag [Unmarshal] compiles the root with. *)
Definition rootTag : structTag :=
  {| MinVersion := -1; MaxVersion := -1; TagID := -2;
     Compact := true; Nullable := true |}.

(** How a call of [Unmarshal] ends. *)
Inductive outcome : Type :=
| Returned (e : option error) (value : val)
| Panicked
| Stuck.

(** The decoder [Unmarshal] runs the plan on: one from the pool, or a new
    one, bound to [data] by [d.remain = len(data)] and [r.Reset(data)]. *)
Definition checkout (g : globals) (data : list byte) : decoder :=
  let d := match decoders g with
           | d :: _ => d
           | [] => newDecoder
           end in
  set_reader (bytesReader data) (set_remain (Z.of_nat (length data)) d).

(** [return dontExpectEOF(d.err)], unless the plan panicked. *)
Definition report (r : result val) : outcome :=
  match r with
  | Ok v d => Returned (dontExpectEOF (err d)) v
  | Panic _ => Panicked
  | OutOfFuel _ => Stuck
  end.

Section EntryPoint.

Variable ReadFrom : nat -> val -> M (val * option error).

(** The plan [Unmarshal] runs and the cache it leaves: the cached
    plan, or a plan compiled with [flexible = false] and published. *)
Definition resolve (cache : planCache) (key : versionedType)
  : option (decodeFunc * planCache) :=
  match cache key with
  | Some decode => Some (decode, cache)
  | None =>
      match decodeFuncOf ReadFrom (typ key) (version key) false rootTag with
      | None => None
      | Some decode => Some (decode, publish cache key decode)
      end
  end.

(** [Unmarshal(data, version, value)], with [typ] the type [value]
    points to and [value] what it holds.  The deferred function, which
    resets the decoder and puts it back into the pool, runs however the
    plan ends. *)
Definition Unmarshal (g : globals) (data : list byte) (version : Z)
    (typ : type) (value : val) : globals * outcome :=
  let key := {| typ := typ; version := version |} in
  match resolve (unmarshalers g) key with
  | None => (g, Panicked)
  | Some (decode, cache) =>
      let r := decode value (checkout g data) in
      ({| decoders := Reset (bytesReader []) 0 (final r) :: tail (decoders g);
          unmarshalers := cache |},
       report r)
  end.

End EntryPoint.

(** The state of a process that has not decoded anything yet. *)
Definition initial : globals :=
  {| decoders := []; unmarshalers := emptyCache |}.

(** A world without custom codecs: every [ReadFrom] returns at once. *)
Definition noReadFrom : nat -> val -> M (val * option error) :=
  fun _ v => ret (v, None).

(** ** Auxiliary notions for the statements *)

Definition crc_after (d : decoder) (bs : list byte) : Z :=
  match table d with
  | Some t => Crc32.Update (crc32 d) t bs
  | None => crc32 d
  end.

(** The decoder after [m] bytes of its source have been consumed through
    [Read]. *)
Definition advance (m : nat) (d : decoder) : decoder :=
  {| reader := with_pending (reader d) (drop m (pending (reader d)));
     remain := remain d - Z.of_nat m;
     buffer := buffer d;
     err := err d;
     table := table d;
     crc32 := crc_after d (take m (pending (reader d))) |}.

(** The bytes a decoder can still obtain: what the budget allows and
    the source holds. *)
Definition available (d : decoder) : nat :=
  Nat.min (Z.to_nat (remain d)) (length (pending (reader d))).

(** The error [io.ReadFull] reports when it ends, in the decoder [d],
    with [got] bytes read and more wanted. *)
Definition short_error (d : decoder) (got : nat) : error :=
  let e := if remain d =? 0 then EOF else at_end (reader d) in
  if (0 <? got)%nat && bool_decide (e = EOF) then ErrUnexpectedEOF else e.

(** The bytes one call of [Read] for [k] bytes delivers. *)
Definition delivered (k : nat) (d : decoder) : nat :=
  Nat.min (per_call (reader d) (Nat.min k (Z.to_nat (remain d))))
          (length (pending (reader d))).

(** What [discardAll] does to a decoder whose error is already set: a
    source with [Discard] skips what is left of the frame, any other
    source is left where it is, because the copy into [ioutil.Discard]
    reads through [Read], which returns at once. *)
Definition drained (d : decoder) : decoder :=
  if has_discard (reader d) then
    let '(n, _, r) := src_discard (reader d) (remain d) in
    set_remain (remain d - n) (set_reader r d)
  else d.

(** The decoder after a first failure [e]. *)
Definition fail_with (e : error) (d : decoder) : decoder :=
  drained (set_err (Some e) d).

(** The scratch buffer after [bs] has been read into its front. *)
Definition fill (bs : list byte) (d : decoder) : decoder :=
  set_buffer (bs ++ drop (length bs) (buffer d)) d.

(** The decoder after [k] bytes have been read into the scratch
    buffer. *)
Definition consumed (k : nat) (d : decoder) : decoder :=
  fill (take k (pending (reader d))) (advance k d).

(** A computation that ends in the decoder it started in. *)
Definition unchanged {A} (r : result A) (d : decoder) : Prop :=
  match r with
  | Ok _ d' => d' = d
  | Panic d' => d' = d
  | OutOfFuel _ => False
  end.

(** A routine that leaves a decoder whose error is set as it is. *)
Definition quiet (f : decodeFunc) : Prop :=
  forall v d e, err d = Some e -> unchanged (f v d) d.

(** The field [f] was compiled from one of the fields [fs] of a struct
    whose first field has index [i0]. *)
Definition compiled_from (ReadFrom : nat -> val -> M (val * option error))
    (version : Z) (flexible : bool) (fs : list (type * list structTag))
    (i0 : nat) (f : field) : Prop :=
  exists j t tags tag,
    fs !! j = Some (t, tags) /\
    index f = (i0 + j)%nat /\
    forEachStructTag version tags = Some tag /\
    decodeFuncOf ReadFrom t version flexible tag = Some (decode f) /\
    tagID f = TagID tag.

(** ** Sample inputs *)

Definition bytes_of (l : list Z) : list byte := map Int.byte_of_Z l.

(** A freshly bound decoder over [src] with a frame of [n] bytes. *)
Definition bound (src : source) (n : Z) : decoder := Reset src n newDecoder.

(** A field tag [min-max] without a tag id, and one with the id [id]. *)
Definition ordinary (min max : Z) : structTag :=
  {| MinVersion := min; MaxVersion := max; TagID := -2;
     Compact := false; Nullable := false |}.
Definition tagged (min max id : Z) : structTag :=
  {| MinVersion := min; MaxVersion := max; TagID := id;
     Compact := false; Nullable := false |}.

(** The largest [int16]: the upper end of a range written [min+]. *)
Definition maxVersion : Z := 32767.

(** The first [n] bytes of [p] are there and every one of them carries
    the continuation bit. *)
Definition continued (n : nat) (p : list byte) : Prop :=
  (n <= length p)%nat /\
  Forall (fun b => Z.land (Int.u8 b) 0x80 <> 0) (take n p).

(** [d'] is [d] after some bytes of the frame have been used up: the
    source has moved forward by as many bytes as the budget has shrunk,
    and the budget has not been overdrawn. *)
Definition within (d d' : decoder) : Prop :=
  exists k : nat,
    pending (reader d') = drop k (pending (reader d)) /\
    remain d' = remain d - Z.of_nat k /\
    0 <= remain d'.

(** The values of a shape.  What a custom codec, or a kind the compiler
    rejects, holds is not constrained. *)
Inductive has_type : type -> val -> Prop :=
| T_Bool b : has_type reflect.Bool (VBool b)
| T_Int8 x : has_type reflect.Int8 (VInt8 x)
| T_Int16 x : has_type reflect.Int16 (VInt16 x)
| T_Int32 x : has_type reflect.Int32 (VInt32 x)
| T_Int64 x : has_type reflect.Int64 (VInt64 x)
| T_String s : has_type reflect.String (VString s)
| T_Bytes b : has_type (reflect.Slice reflect.Uint8) (VBytes b)
| T_Struct fs vs :
    Forall2 (fun f v => has_type f.1 v) fs vs ->
    has_type (reflect.Struct fs) (VStruct vs)
| T_Nil elem :
    elem <> reflect.Uint8 -> has_type (reflect.Slice elem) (VArray None)
| T_Array elem a :
    elem <> reflect.Uint8 -> Forall (has_type elem) a ->
    has_type (reflect.Slice elem) (VArray (Some a))
| T_Uint8 v : has_type reflect.Uint8 v
| T_ReaderFrom name v : has_type (reflect.ReaderFrom name) v
| T_Other v : has_type reflect.Other v.

(** A routine for the shape [t] that returns normally, keeps the shape
    of the destination and stays within the frame. *)
Definition safe_on (t : type) (f : decodeFunc) : Prop :=
  forall v d, has_type t v -> 0 <= remain d ->
  exists v' d', f v d = Ok v' d' /\ has_type t v' /\ within d d'.

(** Custom codecs that return normally and stay within the frame. *)
Definition wellbehaved (ReadFrom : nat -> val -> M (val * option error)) : Prop :=
  forall name v d, 0 <= remain d ->
  exists r d', ReadFrom name v d = Ok r d' /\ within d d'.

(** A routine that reads exactly [w] bytes through [readFull] and
    nothing else, as the routines of the fixed-width kinds do. *)
Definition fixed_width (w : nat) (f : decodeFunc) : Prop :=
  (0 < w)%nat /\
  forall v d, err d = None -> 0 <= remain d ->
    ((w <= available d)%nat -> exists v', f v d = Ok v' (consumed w d)) /\
    ((available d < w)%nat ->
     exists v', f v d =
       Ok v' (fail_with (short_error (advance (available d) d) (available d))
                        (consumed (available d) d))).

(** The source holds at least what is left of the frame. *)
Definition supplied (d : decoder) : Prop :=
  (Z.to_nat (remain d) <= length (pending (reader d)))%nat.

(** A routine that, run on a struct, leaves the field at index [i] of
    the destination as it was. *)
Definition preserves_field (i : nat) (f : decodeFunc) : Prop :=
  forall vs d v' d', f (VStruct vs) d = Ok v' d' ->
  exists vs', v' = VStruct vs' /\ vs' !! i = vs !! i.

(** Scenario A of the specification: [{A: int32 @0+, B: string @1+}]. *)
Definition scenarioA : type :=
  reflect.Struct [(reflect.Int32, [ordinary 0 maxVersion]);
                  (reflect.String, [ordinary 1 maxVersion])].

(** Scenario B of the specification: a flexible struct with one ordinary
    field and one extension field with the tag id 5. *)
Definition scenarioB : list (type * list structTag) :=
  [(reflect.Int8, [ordinary 0 maxVersion]);
   (reflect.Int16, [tagged 0 maxVersion 5])].

(** The outcome of a computation, for display: the result, what the
    source still holds, the budget and the error. *)
Definition observe {A} (r : result A) : option A * list Z * Z * option error :=
  match r with
  | Ok a d => (Some a, map Int.u8 (pending (reader d)), remain d, err d)
  | Panic d | OutOfFuel d =>
      (None, map Int.u8 (pending (reader d)), remain d, err d)
  end.

(** ** The classic encoding, as the specification describes it

    A second compiler, written from the description of the classic
    encoding and without any flexible flag: strings carry a two-byte
    signed length, byte sequences a four-byte signed length, arrays a
    four-byte signed count, and a struct is its ordinary fields in
    declaration order; extension fields are never decoded and there is
    no tag section.  A kind without a dispatch rule fails the
    compilation, wherever in an applicable field it occurs. *)

Definition classicStruct (fields : list field) : decodeFunc :=
  decodeFields fields.

Definition keepOrdinary (f : field) (acc : list field) : list field :=
  if tagID f <? -1 then acc ++ [f] else acc.

Section Classic.

Variable ReadFrom : nat -> val -> M (val * option error).

Fixpoint classicFuncOf (typ : type) (version : Z) (tag : structTag)
    {struct typ} : option decodeFunc :=
  match typ with
  | reflect.ReaderFrom name => Some (readerDecodeFuncOf ReadFrom name)
  | reflect.Bool => Some decodeBool
  | reflect.Int8 => Some decodeInt8
  | reflect.Int16 => Some decodeInt16
  | reflect.Int32 => Some decodeInt32
  | reflect.Int64 => Some decodeInt64
  | reflect.String => Some decodeString
  | reflect.Struct fs =>
      let collect :=
        fix collect (fs : list (type * list structTag)) (i : nat)
            (acc : list field) {struct fs} : option (list field) :=
          match fs with
          | [] => Some acc
          | f :: rest =>
              match forEachStructTag version f.2 with
              | None => collect rest (S i) acc
              | Some tag =>
                  match classicFuncOf f.1 version tag with
                  | None => None
                  | Some dec =>
                      collect rest (S i)
                        (keepOrdinary {| decode := dec; index := i;
                                         tagID := TagID tag |} acc)
                  end
              end
          end in
      match collect fs O [] with
      | None => None
      | Some fields => Some (classicStruct fields)
      end
  | reflect.Slice elem =>
      match elem with
      | reflect.Uint8 => Some decodeBytes
      | _ =>
          match classicFuncOf elem version tag with
          | None => None
          | Some elemFunc => Some (decodeArray elem elemFunc)
          end
      end
  | reflect.Uint8 | reflect.Other => None
  end.

Fixpoint classicFields (version : Z) (fs : list (type * list structTag))
    (i : nat) (acc : list field) : option (list field) :=
  match fs with
  | [] => Some acc
  | f :: rest =>
      match forEachStructTag version f.2 with
      | None => classicFields version rest (S i) acc
      | Some tag =>
          match classicFuncOf f.1 version tag with
          | None => None
          | Some dec =>
              classicFields version rest (S i)
                (keepOrdinary {| decode := dec; index := i;
                                 tagID := TagID tag |} acc)
          end
      end
  end.

(** Every plan in the cache is the plan the compiler produces for its
    key with [flexible = false]. *)
Definition cache_classic (cache : planCache) : Prop :=
  forall key f, cache key = Some f ->
  decodeFuncOf ReadFrom (typ key) (version key) false rootTag = Some f.

End Classic.

(** Two routines that do the same on every destination and decoder. *)
Definition same (f g : decodeFunc) : Prop := forall v d, f v d = g v d.

(** Two compilations that fail together or produce the same routine. *)
Definition same_plan (a b : option decodeFunc) : Prop :=
  match a, b with
  | Some f, Some g => same f g
  | None, None => True
  | _, _ => False
  end.

(** Two compiled fields for the same index with the same routine. *)
Definition same_field (f g : field) : Prop :=
  index f = index g /\ same (decode f) (decode g).

(** ** A truncated frame *)

(** The bytes a value of a fixed-width kind takes. *)
Definition width (t : type) : option nat :=
  match t with
  | reflect.Bool | reflect.Int8 => Some 1%nat
  | reflect.Int16 => Some 2%nat
  | reflect.Int32 => Some 4%nat
  | reflect.Int64 => Some 8%nat
  | _ => None
  end.

(** A decoder without error whose source holds the rest of the frame. *)
Definition clean (d : decoder) : Prop :=
  err d = None /\ 0 <= remain d /\ supplied d.

Section Cut.

Variable ReadFrom : nat -> val -> M (val * option error).
Variable version : Z.

(** [cut t v d]: the frame of the clean decoder [d] ends before the
    classic encoding of a value of shape [t], to be decoded into [v], is
    complete, at a place where the plan goes on to read: inside or right
    before a fixed-width value, a length or a count, inside or right
    before the payload of a string or of a byte sequence, or, at any
    depth, at such a place in a field of a struct, the fields before it
    having been decoded, or in an element of an array, the elements
    before it having been decoded and the budget not being zero where
    that element starts. *)
Inductive cut : type -> val -> decoder -> Prop :=
| cut_fixed t w v d :
    width t = Some w -> clean d -> remain d < Z.of_nat w ->
    cut t v d
| cut_string_length v d :
    clean d -> remain d < 2 ->
    cut reflect.String v d
| cut_string_payload v d :
    clean d ->
    2 <= remain d < 2 + Fixed.readInt16 (take 2 (pending (reader d))) ->
    cut reflect.String v d
| cut_bytes_length v d :
    clean d -> remain d < 4 ->
    cut (reflect.Slice reflect.Uint8) v d
| cut_bytes_payload v d :
    clean d ->
    4 <= remain d < 4 + Fixed.readInt32 (take 4 (pending (reader d))) ->
    cut (reflect.Slice reflect.Uint8) v d
| cut_array_count elem v d :
    elem <> reflect.Uint8 -> clean d -> remain d < 4 ->
    cut (reflect.Slice elem) v d
| cut_array_element elem tag decodeElem v d (i : nat) a1 d1 x :
    elem <> reflect.Uint8 -> clean d -> 4 <= remain d ->
    decodeFuncOf ReadFrom elem version false tag = Some decodeElem ->
    Z.of_nat i < Fixed.readInt32 (take 4 (pending (reader d))) ->
    decodeElems decodeElem i 0
      (replicate (Z.to_nat (Fixed.readInt32 (take 4 (pending (reader d)))))
                 (zero elem))
      (consumed 4 d) = Ok a1 d1 ->
    a1 !! i = Some x ->
    0 < remain d1 ->
    cut elem x d1 ->
    cut (reflect.Slice elem) v d
| cut_struct fs fields taggedFields pre g post t tags vs vs1 d d1 x :
    clean d ->
    collectFields ReadFrom version false fs O ([], ∅)
      = Some (fields, taggedFields) ->
    fields = pre ++ g :: post ->
    fs !! index g = Some (t, tags) ->
    decodeFields pre (VStruct vs) d = Ok (VStruct vs1) d1 ->
    vs1 !! index g = Some x ->
    cut t x d1 ->
    cut (reflect.Struct fs) (VStruct vs) d.

End Cut.

(** What is left once a read has found the frame at its end: an
    end-of-input error in the decoder, the plain one when the read got
    no byte at all and the unexpected one when it got some, and the
    budget used up. *)
Definition spent (d : decoder) : Prop :=
  (err d = Some EOF \/ err d = Some ErrUnexpectedEOF) /\ remain d = 0.

(** A struct whose only field is an array of structs of one [int32]. *)
Definition arrayOfStructs : type :=
  reflect.Struct
    [(reflect.Slice (reflect.Struct [(reflect.Int32, [ordinary 0 maxVersion])]),
      [ordinary 0 maxVersion])].

(** * Notions for the further properties *)

(** ** Numbers in base 128

    The number a run of groups stands for, least significant group
    first: each byte contributes its low seven bits. *)
Fixpoint base128 (p : list byte) : Z :=
  match p with
  | [] => 0
  | b :: rest => Z.land (Int.u8 b) 0x7f + 128 * base128 rest
  end.

(** The error [io.Copy] returns when it copies out of the decoder [d]:
    none when the budget runs out first or the source ends in [io.EOF],
    the error of the source otherwise. *)
Definition copy_error (d : decoder) : option error :=
  if (Z.to_nat (remain d) <=? length (pending (reader d)))%nat then None
  else if bool_decide (at_end (reader d) = EOF) then None
       else Some (at_end (reader d)).

(** A computation that keeps the property [P] of the decoder, however
    it ends. *)
Definition keeps (P : decoder -> Prop) {A} (m : M A) : Prop :=
  forall d, P d -> P (final (m d)).

(** [d] is a later state of the decoder [d0] over a source with
    [Discard]: within the frame, and with no budget left once an error
    is latched. *)
Definition framed (d0 d : decoder) : Prop :=
  has_discard (reader d) = true /\ within d0 d /\
  (err d <> None -> remain d = 0).

(** [d] is used up, as [d0] was, and holds the source and the budget of
    [d0]. *)
Definition idle (d0 d : decoder) : Prop :=
  done d = true /\ reader d = reader d0 /\ remain d = remain d0.

(** The state of a process between two calls of [Unmarshal]: every
    decoder in the pool has been reset, and every plan in the cache is
    the plan of its key. *)
Definition at_rest (ReadFrom : nat -> val -> M (val * option error))
    (g : globals) : Prop :=
  Forall (fun d => d = newDecoder) (decoders g) /\
  cache_classic ReadFrom (unmarshalers g).

(** ** The classic encoding

    The bytes of the classic encoding of a value, against which the
    decoder is checked: integers are big-endian two's complement, a
    boolean is one byte, a string is its length on two bytes and its
    bytes, a byte sequence its length on four bytes and its bytes, an
    array its count on four bytes and its elements one after the other,
    the length or count [-1] standing for [nil], and a struct is its
    ordinary fields of the version in the order of declaration. *)

Definition be16 (n : Z) : list byte := bytes_of [Z.shiftr n 8; n].

Definition be32 (n : Z) : list byte :=
  bytes_of [Z.shiftr n 24; Z.shiftr n 16; Z.shiftr n 8; n].

Definition be64 (n : Z) : list byte :=
  bytes_of [Z.shiftr n 56; Z.shiftr n 48; Z.shiftr n 40; Z.shiftr n 32;
            Z.shiftr n 24; Z.shiftr n 16; Z.shiftr n 8; n].

Section Wire.

Variable version : Z.

(** [wire t x v bs]: the bytes [bs] are the classic encoding of the
    value [x] of shape [t], for a destination that holds [v]; what the
    encoding of a struct does not carry, the fields without an ordinary
    tag for the version, [x] has from [v]. *)
Fixpoint wire (t : type) (x v : val) (bs : list byte) {struct t} : Prop :=
  match t with
  | reflect.Bool =>
      exists b : bool, x = VBool b /\ bs = bytes_of [if b then 1 else 0]
  | reflect.Int8 =>
      exists n, - 2 ^ 7 <= n < 2 ^ 7 /\ x = VInt8 n /\ bs = bytes_of [n]
  | reflect.Int16 =>
      exists n, - 2 ^ 15 <= n < 2 ^ 15 /\ x = VInt16 n /\ bs = be16 n
  | reflect.Int32 =>
      exists n, - 2 ^ 31 <= n < 2 ^ 31 /\ x = VInt32 n /\ bs = be32 n
  | reflect.Int64 =>
      exists n, - 2 ^ 63 <= n < 2 ^ 63 /\ x = VInt64 n /\ bs = be64 n
  | reflect.String =>
      exists s : list byte,
        Z.of_nat (length s) < 2 ^ 15 /\ x = VString s /\
        bs = be16 (Z.of_nat (length s)) ++ s
  | reflect.Slice elem =>
      match elem with
      | reflect.Uint8 =>
          (x = VBytes None /\ bs = be32 (-1)) \/
          exists s : list byte,
            Z.of_nat (length s) < 2 ^ 31 /\ x = VBytes (Some s) /\
            bs = be32 (Z.of_nat (length s)) ++ s
      | _ =>
          (x = VArray None /\ bs = be32 (-1)) \/
          exists (xs : list val) (bss : list (list byte)),
            Z.of_nat (length xs) < 2 ^ 31 /\ x = VArray (Some xs) /\
            Forall2 (fun x b => wire elem x (zero elem) b) xs bss /\
            bs = be32 (Z.of_nat (length xs)) ++ concat bss
      end
  | reflect.Struct fs =>
      exists xs vs, x = VStruct xs /\ v = VStruct vs /\
        (fix fields (fs : list (type * list structTag)) (xs vs : list val)
             (bs : list byte) {struct fs} : Prop :=
           match fs, xs, vs with
           | [], [], [] => bs = []
           | f :: fs, x :: xs, v :: vs =>
               match forEachStructTag version f.2 with
               | Some tag =>
                   if TagID tag <? -1 then
                     exists b bs', bs = b ++ bs' /\ wire f.1 x v b /\
                                   fields fs xs vs bs'
                   else x = v /\ fields fs xs vs bs
               | None => x = v /\ fields fs xs vs bs
               end
           | _, _, _ => False
           end) fs xs vs bs
  | reflect.Uint8 | reflect.ReaderFrom _ | reflect.Other => False
  end.

(** The fields of a struct, on their own. *)
Fixpoint wire_fields (fs : list (type * list structTag)) (xs vs : list val)
    (bs : list byte) : Prop :=
  match fs, xs, vs with
  | [], [], [] => bs = []
  | f :: fs, x :: xs, v :: vs =>
      match forEachStructTag version f.2 with
      | Some tag =>
          if TagID tag <? -1 then
            exists b bs', bs = b ++ bs' /\ wire f.1 x v b /\
                          wire_fields fs xs vs bs'
          else x = v /\ wire_fields fs xs vs bs
      | None => x = v /\ wire_fields fs xs vs bs
      end
  | _, _, _ => False
  end.

End Wire.

(** The routine [f], run on a destination that holds [v] and on a
    decoder without error that has the bytes [bs] next, within its
    budget, returns [x] and has consumed exactly [bs]. *)
Definition reads_back (f : decodeFunc) (x v : val) (bs : list byte) : Prop :=
  forall rest d,
  err d = None -> pending (reader d) = bs ++ rest ->
  Z.of_nat (length bs) <= remain d ->
  exists d',
    f v d = Ok x d' /\ err d' = None /\ pending (reader d') = rest /\
    remain d' = remain d - Z.of_nat (length bs).

(** The decoder [d] over the same source handing out at most [c] bytes
    per [Read] ([0]: all that is asked for). *)
Definition with_short (c : nat) (d : decoder) : decoder :=
  set_reader {| pending := pending (reader d); short := c;
                at_end := at_end (reader d);
                has_discard := has_discard (reader d) |} d.

(** The outcome [r] with the decoder it ended in changed by [h]. *)
Definition map_final {A} (h : decoder -> decoder) (r : result A) : result A :=
  match r with
  | Ok a d => Ok a (h d)
  | Panic d => Panic (h d)
  | OutOfFuel d => OutOfFuel (h d)
  end.

(** A computation that, on a budget that is not negative, does the same
    whatever [h] changes in the decoder it starts in, and keeps the
    budget from going negative. *)
Definition steady (h : decoder -> decoder) {A} (m : M A) : Prop :=
  forall d, 0 <= remain d ->
  m (h d) = map_final h (m d) /\ 0 <= remain (final (m d)).

(** * Properties *)

(** ** Records and the monad *)

Lemma with_pending_id r : with_pending r (pending r) = r.
Proof. by destruct r. Qed.

Lemma set_buffer_id d : set_buffer (buffer d) d = d.
Proof. by destruct d. Qed.

Lemma bind_Ok {A B} (m : M A) (k : A -> M B) d a d' :
  m d = Ok a d' -> bind m k d = k a d'.
Proof. unfold bind. by intros ->. Qed.

Lemma bind_Panic {A B} (m : M A) (k : A -> M B) d d' :
  m d = Panic d' -> bind m k d = Panic d'.
Proof. unfold bind. by intros ->. Qed.

(** ** Checksums compose *)

Lemma complement_involutive c : Crc32.complement (Crc32.complement c) = c.
Proof.
  unfold Crc32.complement.
  by rewrite Z.lxor_assoc, Z.lxor_nilpotent, Z.lxor_0_r.
Qed.

Lemma Update_nil c t : Crc32.Update c t [] = c.
Proof. apply complement_involutive. Qed.

Lemma Update_app c t a b :
  Crc32.Update (Crc32.Update c t a) t b = Crc32.Update c t (a ++ b).
Proof.
  unfold Crc32.Update. by rewrite complement_involutive, fold_left_app.
Qed.

(** ** Consuming bytes *)

Lemma advance_0 d : advance 0 d = d.
Proof.
  destruct d as [r n b e t c]. unfold advance, crc_after. simpl.
  rewrite with_pending_id, Z.sub_0_r.
  destruct t; by rewrite ?Update_nil.
Qed.

Lemma advance_advance a b d : advance a (advance b d) = advance (b + a) d.
Proof.
  destruct d as [r n bf e t c]. unfold advance, crc_after. simpl.
  f_equal.
  - unfold with_pending. simpl. by rewrite drop_drop.
  - lia.
  - destruct t; [|done]. rewrite Update_app. f_equal.
    by rewrite take_take_drop.
Qed.

(** ** [Read] *)

(** Case analysis on the integer comparisons of the goal. *)
Ltac zcases :=
  repeat match goal with
  | |- context [Z.eqb ?a ?b] => destruct (Z.eqb_spec a b)
  | |- context [Z.ltb ?a ?b] => destruct (Z.ltb_spec a b)
  | |- context [Z.leb ?a ?b] => destruct (Z.leb_spec a b)
  | |- context [Z.gtb ?a ?b] => rewrite (Z.gtb_ltb a b)
  | |- context [Z.geb ?a ?b] => rewrite (Z.geb_leb a b)
  | |- context [Nat.eqb ?a ?b] => destruct (Nat.eqb_spec a b)
  | |- context [Nat.ltb ?a ?b] => destruct (Nat.ltb_spec a b)
  | |- context [Nat.leb ?a ?b] => destruct (Nat.leb_spec a b)
  end; simpl; try lia.

Lemma take_min_length {A} (l : list A) n : take (Nat.min n (length l)) l = take n l.
Proof.
  destruct (Nat.le_gt_cases n (length l)).
  - by rewrite Nat.min_l.
  - rewrite Nat.min_r by lia. by rewrite !take_ge by lia.
Qed.

Lemma drop_min_length {A} (l : list A) n : drop (Nat.min n (length l)) l = drop n l.
Proof.
  destruct (Nat.le_gt_cases n (length l)).
  - by rewrite Nat.min_l.
  - rewrite Nat.min_r by lia. by rewrite !drop_ge by lia.
Qed.

Lemma Read_failed k d e : err d = Some e -> Read k d = Ok ([], Some e) d.
Proof. unfold Read. by intros ->. Qed.

Lemma Read_exhausted k d :
  err d = None -> remain d = 0 -> Read k d = Ok ([], Some EOF) d.
Proof. unfold Read. by intros -> ->. Qed.

Lemma Read_negative k d :
  err d = None -> remain d < 0 -> Read k d = Panic d.
Proof.
  intros He Hr. unfold Read. rewrite He.
  zcases. done.
Qed.

Lemma Read_dry k d :
  err d = None -> 0 < remain d -> pending (reader d) = [] ->
  Read k d = Ok ([], Some (at_end (reader d))) d.
Proof.
  intros He Hr Hp. unfold Read. rewrite He.
  destruct (Z.eqb_spec (remain d) 0) as [|_]; [lia|].
  destruct (Z.ltb_spec (remain d) 0); [lia|]. rewrite andb_false_r.
  unfold src_read. rewrite Hp. simpl.
  destruct d as [r n b e t c]; simpl in *. subst e.
  rewrite Z.sub_0_r. by destruct t.
Qed.

Lemma Read_some k d :
  err d = None -> 0 < remain d -> pending (reader d) <> [] ->
  Read k d = Ok (take (delivered k d) (pending (reader d)), None)
                (advance (delivered k d) d).
Proof.
  intros He Hr Hp. unfold Read. rewrite He.
  destruct (Z.eqb_spec (remain d) 0) as [|_]; [lia|].
  destruct (Z.ltb_spec (remain d) 0); [lia|]. rewrite andb_false_r.
  assert (Hk' : (if Z.of_nat k >? remain d then Z.to_nat (remain d) else k)
                = Nat.min k (Z.to_nat (remain d))).
  { rewrite Z.gtb_ltb. destruct (Z.ltb_spec (remain d) (Z.of_nat k)); lia. }
  rewrite Hk'.
  unfold src_read. destruct (pending (reader d)) as [|b0 p] eqn:Ep; [done|].
  rewrite <- Ep. unfold delivered.
  generalize (per_call (reader d) (Nat.min k (Z.to_nat (remain d)))) as n. intros n.
  unfold advance, crc_after.
  rewrite take_min_length, drop_min_length.
  f_equal. f_equal.
  - rewrite length_take. lia.
  - done.
  - destruct (table d); [|done].
    rewrite length_take, Z.gtb_ltb.
    destruct (Z.ltb_spec 0 (Z.of_nat (Nat.min n (length (pending (reader d)))))); [done|].
    assert (Nat.min n (length (pending (reader d))) = 0%nat) as Hz by lia.
    rewrite <- (take_min_length _ n), Hz. simpl. by rewrite Update_nil.
Qed.

Lemma delivered_le k d : (delivered k d <= Nat.min k (available d))%nat.
Proof.
  unfold delivered, available, per_call. destruct (short (reader d)); lia.
Qed.

Lemma delivered_pos k d :
  (0 < k)%nat -> 0 < remain d -> pending (reader d) <> [] ->
  (0 < delivered k d)%nat.
Proof.
  intros Hk Hr Hp. unfold delivered, per_call.
  assert (0 < length (pending (reader d)))%nat.
  { destruct (pending (reader d)); [done|simpl; lia]. }
  destruct (short (reader d)); lia.
Qed.

(** ** [io.ReadFull] over the decoder *)

Lemma available_advance m d :
  (m <= available d)%nat -> 0 <= remain d ->
  available (advance m d) = (available d - m)%nat.
Proof.
  unfold available, advance. simpl. intros. rewrite length_drop. lia.
Qed.

Lemma readAtLeast_failed fuel min got d e :
  err d = Some e ->
  readAtLeast (S fuel) min got None d =
    Ok (if (length got <? min)%nat
        then readAtLeast_exit min got (Some e)
        else readAtLeast_exit min got None) d.
Proof.
  intros He. simpl.
  destruct (Nat.ltb_spec (length got) min); simpl; [|done].
  rewrite (bind_Ok _ _ _ _ _ (Read_failed _ _ _ He)). simpl.
  rewrite app_nil_r. destruct fuel; simpl.
  - destruct (Nat.ltb_spec (length got) min); [|lia]. done.
  - destruct (Nat.ltb_spec (length got) min); [|lia]. done.
Qed.

(** The loop of [io.ReadFull] obtains as many of the missing bytes as
    the budget and the source can supply, and reports the shortfall. *)
Lemma readAtLeast_spec fuel : forall min got d,
  err d = None -> 0 <= remain d ->
  (length got <= min)%nat -> (min - length got < fuel)%nat ->
  let m := Nat.min (min - length got) (available d) in
  readAtLeast fuel min got None d =
    Ok (got ++ take m (pending (reader d)),
        if (length got + m =? min)%nat then None
        else Some (short_error (advance m d) (length got + m)))
       (advance m d).
Proof.
  induction fuel as [|fuel IH]; intros min got d He Hr Hg Hf; [lia|].
  simpl. destruct (Nat.ltb_spec (length got) min) as [Hlt|Hge]; simpl.
  2: { (* nothing is missing *)
    replace (min - length got)%nat with 0%nat by lia. simpl.
    rewrite advance_0, app_nil_r. unfold ret, readAtLeast_exit.
    destruct (Nat.leb_spec min (length got)); [|lia].
    destruct (Nat.eqb_spec (length got + 0) min); [done|lia]. }
  destruct (Z.eq_dec (remain d) 0) as [Hz|Hnz].
  { (* the budget is spent *)
    rewrite (bind_Ok _ _ _ _ _ (Read_exhausted _ _ He Hz)). simpl.
    rewrite app_nil_r.
    assert (available d = 0%nat) as Ha by (unfold available; lia).
    rewrite Ha, Nat.min_0_r. simpl. rewrite advance_0, app_nil_r.
    destruct fuel; simpl;
      (destruct (Nat.ltb_spec (length got) min); [|lia]); simpl;
      unfold ret, readAtLeast_exit, short_error; rewrite Hz; simpl;
      (destruct (Nat.leb_spec min (length got)); [lia|]);
      (destruct (Nat.eqb_spec (length got + 0) min); [lia|]);
      rewrite Nat.add_0_r; by destruct (0 <? length got)%nat. }
  destruct (pending (reader d)) as [|b0 p] eqn:Ep.
  { (* the source is dry *)
    rewrite (bind_Ok _ _ _ _ _ (Read_dry _ _ He ltac:(lia) Ep)). simpl.
    rewrite app_nil_r.
    assert (available d = 0%nat) as Ha by (unfold available; rewrite Ep; simpl; lia).
    rewrite Ha, Nat.min_0_r. simpl. rewrite advance_0.
    destruct fuel; simpl;
      (destruct (Nat.ltb_spec (length got) min); [|lia]); simpl;
      unfold ret, readAtLeast_exit, short_error;
      (destruct (Z.eqb_spec (remain d) 0); [lia|]);
      (destruct (Nat.leb_spec min (length got)); [lia|]);
      (destruct (Nat.eqb_spec (length got + 0) min); [lia|]);
      rewrite Nat.add_0_r, app_nil_r;
      (destruct (0 <? length got)%nat; simpl; [|done]);
      (destruct (decide (at_end (reader d) = EOF)) as [Hd|Hd];
       [rewrite !bool_decide_eq_true_2 by congruence
       |rewrite !bool_decide_eq_false_2 by congruence]); done. }
  (* some bytes arrive *)
  assert (pending (reader d) <> []) as Hp by (rewrite Ep; done).
  rewrite <- Ep.
  rewrite (bind_Ok _ _ _ _ _ (Read_some _ _ He ltac:(lia) Hp)). simpl.
  pose proof (delivered_le (min - length got) d) as Hle.
  pose proof (delivered_pos (min - length got) d ltac:(lia) ltac:(lia) Hp) as Hpos.
  set (j := delivered (min - length got) d) in *. clearbody j.
  assert (Hav : available (advance j d) = (available d - j)%nat).
  { apply available_advance; lia. }
  assert (Hj : (j `min` length (pending (reader d)) = j)%nat).
  { unfold available in Hle. lia. }
  assert (Hjr : Z.of_nat j <= remain d).
  { unfold available in Hle. lia. }
  rewrite IH; simpl; rewrite ?length_app, ?length_take, ?Hj; try lia; try done.
  rewrite Hav, advance_advance.
  assert (Hm : ((min - (length got + j)) `min` (available d - j) + j
               = (min - length got) `min` available d)%nat) by lia.
  replace (j + (min - (length got + j)) `min` (available d - j))%nat
    with ((min - length got) `min` available d)%nat by lia.
  replace (length got + j + (min - (length got + j)) `min` (available d - j))%nat
    with (length got + (min - length got) `min` available d)%nat by lia.
  f_equal. f_equal.
  rewrite <- app_assoc. f_equal.
  rewrite take_take_drop. f_equal. lia.
Qed.

Lemma ioReadFull_spec k d :
  err d = None -> 0 <= remain d ->
  let m := Nat.min k (available d) in
  ioReadFull k d =
    Ok (take m (pending (reader d)),
        if (m =? k)%nat then None else Some (short_error (advance m d) m))
       (advance m d).
Proof.
  intros He Hr. unfold ioReadFull.
  rewrite readAtLeast_spec; simpl; try lia; try done.
  by rewrite Nat.sub_0_r.
Qed.

Lemma ioReadFull_failed k d e :
  err d = Some e ->
  ioReadFull k d = Ok ([], if (k =? 0)%nat then None else Some e) d.
Proof.
  intros He. unfold ioReadFull. rewrite (readAtLeast_failed _ _ _ _ _ He).
  simpl. unfold readAtLeast_exit. simpl.
  destruct k; simpl; [done|]. by destruct e.
Qed.

(** ** [setError] and [discard] *)

Lemma ioCopy_failed bufsize d e :
  err d = Some e ->
  ioCopy bufsize d =
    Ok ([], if bool_decide (e = EOF) then None else Some e) d.
Proof.
  intros He. unfold ioCopy. simpl.
  by rewrite (bind_Ok _ _ _ _ _ (Read_failed _ _ _ He)).
Qed.

Lemma setError_spec e d :
  setError e d =
    Ok tt match err d, e with
          | None, Some x => fail_with x d
          | _, _ => d
          end.
Proof.
  unfold setError. simpl.
  destruct (err d) as [e0|] eqn:He; [done|]. destruct e as [x|]; [|done].
  unfold fail_with, drained, discard_with. simpl.
  replace (remain d >? remain d) with false by (rewrite Z.gtb_ltb; lia).
  destruct (has_discard (reader d)).
  - by destruct (src_discard (reader d) (remain d)) as [[n' e'] r'].
  - by rewrite (bind_Ok _ _ _ _ _ (ioCopy_failed _ (set_err (Some x) d) x eq_refl)).
Qed.

Lemma setError_failed e d x : err d = Some x -> setError e d = Ok tt d.
Proof. intros He. by rewrite setError_spec, He. Qed.

Lemma setError_None d : setError None d = Ok tt d.
Proof. rewrite setError_spec. by destruct (err d). Qed.

Lemma err_drained d : err (drained d) = err d.
Proof.
  unfold drained. destruct (has_discard (reader d)); [|done].
  by destruct (src_discard (reader d) (remain d)) as [[n' e'] r'].
Qed.

Lemma err_fail_with e d : err (fail_with e d) = Some e.
Proof. unfold fail_with. by rewrite err_drained. Qed.

Lemma err_consumed k d : err (consumed k d) = err d.
Proof. done. Qed.

Lemma remain_consumed k d : remain (consumed k d) = remain d - Z.of_nat k.
Proof. done. Qed.

Lemma pending_consumed k d :
  pending (reader (consumed k d)) = drop k (pending (reader d)).
Proof. done. Qed.

(** ** [readFull], [read] and the fixed-width readers *)

Lemma readFull_failed k d e :
  err d = Some e -> readFull k d = Ok (k =? 0)%nat d.
Proof.
  intros He. unfold readFull.
  rewrite (bind_Ok _ _ _ _ _ (ioReadFull_failed _ _ _ He)). simpl.
  unfold bind. rewrite drop_0, set_buffer_id.
  rewrite (setError_failed _ _ _ He). unfold ret.
  by destruct k.
Qed.

Lemma readFull_ok k d :
  err d = None -> 0 <= remain d -> (k <= available d)%nat ->
  readFull k d = Ok true (consumed k d).
Proof.
  intros He Hr Hk. unfold readFull.
  rewrite (bind_Ok _ _ _ _ _ (ioReadFull_spec _ _ He Hr)). simpl.
  rewrite Nat.min_l by done. rewrite Nat.eqb_refl.
  unfold bind. rewrite setError_None. unfold ret, consumed, fill.
  rewrite length_take. f_equal.
  unfold available in Hk. apply Nat.eqb_eq. lia.
Qed.

Lemma readFull_short k d :
  err d = None -> 0 <= remain d -> (available d < k)%nat ->
  let m := available d in
  readFull k d =
    Ok false (fail_with (short_error (advance m d) m) (consumed m d)).
Proof.
  intros He Hr Hk. simpl. unfold readFull.
  rewrite (bind_Ok _ _ _ _ _ (ioReadFull_spec _ _ He Hr)). simpl.
  rewrite Nat.min_r by lia.
  destruct (Nat.eqb_spec (available d) k); [lia|].
  unfold bind. rewrite setError_spec. simpl. rewrite He. unfold ret.
  f_equal.
  apply Nat.eqb_neq. rewrite length_take. unfold available in *. lia.
Qed.

Lemma read_failed n d e :
  err d = Some e -> 0 <= n -> read n d = Ok [] d.
Proof.
  intros He Hn. unfold read. destruct (Z.ltb_spec n 0); [lia|].
  rewrite (bind_Ok _ _ _ _ _ (ioReadFull_failed _ _ _ He)). simpl.
  unfold bind. by rewrite (setError_failed _ _ _ He).
Qed.

Lemma read_negative n d : n < 0 -> read n d = Panic d.
Proof. intros Hn. unfold read. by destruct (Z.ltb_spec n 0); [|lia]. Qed.

Lemma read_ok n d :
  err d = None -> 0 <= remain d -> 0 <= n ->
  (Z.to_nat n <= available d)%nat ->
  read n d = Ok (take (Z.to_nat n) (pending (reader d))) (advance (Z.to_nat n) d).
Proof.
  intros He Hr Hn Hk. unfold read. destruct (Z.ltb_spec n 0); [lia|].
  rewrite (bind_Ok _ _ _ _ _ (ioReadFull_spec _ _ He Hr)). simpl.
  rewrite Nat.min_l by done. rewrite Nat.eqb_refl.
  unfold bind. by rewrite setError_None.
Qed.

Lemma read_short n d :
  err d = None -> 0 <= remain d -> 0 <= n ->
  (available d < Z.to_nat n)%nat ->
  let m := available d in
  read n d = Ok (take m (pending (reader d)))
                (fail_with (short_error (advance m d) m) (advance m d)).
Proof.
  intros He Hr Hn Hk. simpl. unfold read. destruct (Z.ltb_spec n 0); [lia|].
  rewrite (bind_Ok _ _ _ _ _ (ioReadFull_spec _ _ He Hr)). simpl.
  rewrite Nat.min_r by lia.
  destruct (Nat.eqb_spec (available d) (Z.to_nat n)); [lia|].
  unfold bind. rewrite setError_spec. simpl. by rewrite He.
Qed.

(** ** The readers once the error is set *)

Section Failed.

Variables (d : decoder) (e : error).
Hypothesis He : err d = Some e.

Lemma readByte_failed : readByte d = Ok Byte.x00 d.
Proof. unfold readByte. by rewrite (bind_Ok _ _ _ _ _ (readFull_failed 1 _ _ He)). Qed.

Lemma readBool_failed : readBool d = Ok false d.
Proof. unfold readBool. by rewrite (bind_Ok _ _ _ _ _ readByte_failed). Qed.

Lemma readInt8_failed : readInt8 d = Ok 0 d.
Proof. unfold readInt8. by rewrite (bind_Ok _ _ _ _ _ (readFull_failed 1 _ _ He)). Qed.

Lemma readInt16_failed : readInt16 d = Ok 0 d.
Proof. unfold readInt16. by rewrite (bind_Ok _ _ _ _ _ (readFull_failed 2 _ _ He)). Qed.

Lemma readInt32_failed : readInt32 d = Ok 0 d.
Proof. unfold readInt32. by rewrite (bind_Ok _ _ _ _ _ (readFull_failed 4 _ _ He)). Qed.

Lemma readInt64_failed : readInt64 d = Ok 0 d.
Proof. unfold readInt64. by rewrite (bind_Ok _ _ _ _ _ (readFull_failed 8 _ _ He)). Qed.

Lemma varint_loop_failed finish failure n :
  finish 0 = 0 -> varint_loop finish failure n 0 0 d = Ok 0 d.
Proof.
  intros Hf. destruct n; simpl.
  - by rewrite (bind_Ok _ _ _ _ _ (setError_failed _ _ _ He)).
  - rewrite (bind_Ok _ _ _ _ _ readByte_failed).
    change (Int.u8 Byte.x00) with 0.
    change (Z.land 0 128 =? 0) with true. cbv iota.
    change (or_shifted 0 0 0) with 0. unfold ret. by rewrite Hf.
Qed.

Lemma readVarInt_failed : readVarInt d = Ok 0 d.
Proof. unfold readVarInt. by apply varint_loop_failed. Qed.

Lemma readUnsignedVarInt_failed : readUnsignedVarInt d = Ok 0 d.
Proof. unfold readUnsignedVarInt. by apply varint_loop_failed. Qed.

Lemma readString_failed : readString d = Ok [] d.
Proof.
  unfold readString. rewrite (bind_Ok _ _ _ _ _ readInt16_failed). simpl.
  by rewrite (bind_Ok _ _ _ _ _ (read_failed 0 _ _ He ltac:(lia))).
Qed.

Lemma readCompactString_failed : readCompactString d = Ok [] d.
Proof.
  unfold readCompactString.
  by rewrite (bind_Ok _ _ _ _ _ readUnsignedVarInt_failed).
Qed.

Lemma readBytes_failed : readBytes d = Ok (Some []) d.
Proof.
  unfold readBytes. rewrite (bind_Ok _ _ _ _ _ readInt32_failed). simpl.
  by rewrite (bind_Ok _ _ _ _ _ (read_failed 0 _ _ He ltac:(lia))).
Qed.

Lemma readCompactBytes_failed : readCompactBytes d = Ok None d.
Proof.
  unfold readCompactBytes.
  by rewrite (bind_Ok _ _ _ _ _ readUnsignedVarInt_failed).
Qed.

End Failed.

(** ** The fixed-width readers on enough input *)

Lemma take_fill k bs d :
  length bs = k -> take k (buffer (fill bs d)) = bs.
Proof. intros <-. unfold fill. simpl. by rewrite take_app_length. Qed.

Lemma length_take_pending k d :
  (k <= available d)%nat -> length (take k (pending (reader d))) = k.
Proof. intros Hk. rewrite length_take. unfold available in Hk. lia. Qed.

Section Enough.

Variable d : decoder.
Hypothesis He : err d = None.
Hypothesis Hr : 0 <= remain d.

Lemma readByte_ok :
  (1 <= available d)%nat ->
  readByte d = Ok (nth 0 (pending (reader d)) Byte.x00) (consumed 1 d).
Proof.
  intros Hk. unfold readByte.
  rewrite (bind_Ok _ _ _ _ _ (readFull_ok 1 _ He Hr Hk)).
  f_equal. unfold consumed, fill, available in *. simpl.
  destruct (pending (reader d)); simpl in *; [lia|done].
Qed.

Lemma readInt8_ok :
  (1 <= available d)%nat ->
  readInt8 d = Ok (Fixed.readInt8 (take 1 (pending (reader d)))) (consumed 1 d).
Proof.
  intros Hk. unfold readInt8.
  rewrite (bind_Ok _ _ _ _ _ (readFull_ok 1 _ He Hr Hk)).
  f_equal. unfold consumed. by rewrite take_fill by by apply length_take_pending.
Qed.

Lemma readInt16_ok :
  (2 <= available d)%nat ->
  readInt16 d = Ok (Fixed.readInt16 (take 2 (pending (reader d)))) (consumed 2 d).
Proof.
  intros Hk. unfold readInt16.
  rewrite (bind_Ok _ _ _ _ _ (readFull_ok 2 _ He Hr Hk)).
  f_equal. unfold consumed. by rewrite take_fill by by apply length_take_pending.
Qed.

Lemma readInt32_ok :
  (4 <= available d)%nat ->
  readInt32 d = Ok (Fixed.readInt32 (take 4 (pending (reader d)))) (consumed 4 d).
Proof.
  intros Hk. unfold readInt32.
  rewrite (bind_Ok _ _ _ _ _ (readFull_ok 4 _ He Hr Hk)).
  f_equal. unfold consumed. by rewrite take_fill by by apply length_take_pending.
Qed.

Lemma readInt64_ok :
  (8 <= available d)%nat ->
  readInt64 d = Ok (Fixed.readInt64 (take 8 (pending (reader d)))) (consumed 8 d).
Proof.
  intros Hk. unfold readInt64.
  rewrite (bind_Ok _ _ _ _ _ (readFull_ok 8 _ He Hr Hk)).
  f_equal. unfold consumed. by rewrite take_fill by by apply length_take_pending.
Qed.

End Enough.

(** ** Induction over shapes and the compiler's equations *)

Lemma type_induction (P : type -> Prop) :
  P reflect.Bool -> P reflect.Int8 -> P reflect.Int16 -> P reflect.Int32 ->
  P reflect.Int64 -> P reflect.String -> P reflect.Uint8 ->
  (forall fs, Forall (fun f => P f.1) fs -> P (reflect.Struct fs)) ->
  (forall e, P e -> P (reflect.Slice e)) ->
  (forall n, P (reflect.ReaderFrom n)) ->
  P reflect.Other ->
  forall t, P t.
Proof.
  intros HB H8 H16 H32 H64 HS HU HSt HSl HR HO.
  fix IH 1.
  intros [| | | | | | |fs|e|n|];
    [exact HB|exact H8|exact H16|exact H32|exact H64|exact HS|exact HU
    | |apply HSl, IH|apply HR|exact HO].
  apply HSt. induction fs as [|f fs IHfs]; constructor; [apply IH|apply IHfs].
Qed.

Section CompilerFacts.

Variable ReadFrom : nat -> val -> M (val * option error).

Lemma decodeFuncOf_Struct fs version flexible tag :
  decodeFuncOf ReadFrom (reflect.Struct fs) version flexible tag =
  structDecodeFuncOf ReadFrom fs version flexible.
Proof.
  unfold structDecodeFuncOf. simpl.
  generalize (@nil field, @empty (gmap Z field) _) as acc. generalize O as i.
  induction fs as [|f fs IH]; intros i acc; simpl; [done|].
  destruct (forEachStructTag version f.2) as [tg|]; [|apply IH].
  destruct (decodeFuncOf ReadFrom f.1 version flexible tg); [apply IH|done].
Qed.

Lemma decodeFuncOf_Slice elem version flexible tag :
  elem <> reflect.Uint8 ->
  decodeFuncOf ReadFrom (reflect.Slice elem) version flexible tag =
  arrayDecodeFuncOf ReadFrom elem version flexible tag.
Proof. intros Hne. unfold arrayDecodeFuncOf. by destruct elem. Qed.

(** Whatever holds of the fields collected so far and of every field
    compiled from [fs] holds of all the fields collected in the end. *)
Lemma collectFields_invariant (P : field -> Prop) version flexible fs :
  forall i acc acc',
  collectFields ReadFrom version flexible fs i acc = Some acc' ->
  Forall P acc.1 -> map_Forall (fun _ => P) acc.2 ->
  (forall f, compiled_from ReadFrom version flexible fs i f -> P f) ->
  Forall P acc'.1 /\ map_Forall (fun _ => P) acc'.2.
Proof.
  induction fs as [|[t tags] fs IH]; intros i acc acc' Hc H1 H2 HP; simpl in Hc.
  { by inversion Hc; subst. }
  assert (Hrest : forall f, compiled_from ReadFrom version flexible fs (S i) f -> P f).
  { intros f (j & t' & tags' & tg & Hj & Hi & Ht & Hd & Hid). apply HP.
    exists (S j), t', tags', tg. repeat split; try done. lia. }
  destruct (forEachStructTag version tags) as [tg|] eqn:Etag; [|by eapply IH].
  destruct (decodeFuncOf ReadFrom t version flexible tg) as [dec|] eqn:Edec; [|done].
  eapply IH; [apply Hc| | |done].
  - unfold register. simpl. destruct (TagID tg <? -1); simpl; [|done].
    apply Forall_app. split; [done|]. constructor; [|done].
    apply HP. exists O, t, tags, tg. repeat split; try done; simpl; lia.
  - unfold register. simpl. destruct (TagID tg <? -1); simpl; [done|].
    apply map_Forall_insert_2; [|done].
    apply HP. exists O, t, tags, tg. repeat split; try done; simpl; lia.
Qed.

End CompilerFacts.

(** ** Every compiled routine is quiet once the error is set *)

Lemma unchanged_bind {A B} (m : M A) (k : A -> M B) d :
  unchanged (m d) d -> (forall a, unchanged (k a d) d) ->
  unchanged (bind m k d) d.
Proof.
  unfold bind. destruct (m d) as [a d'|d'|d']; simpl; try done.
  intros ->. auto.
Qed.

Lemma unchanged_Ok {A} (m : M A) a d : m d = Ok a d -> unchanged (m d) d.
Proof. by intros ->. Qed.

Lemma quiet_of_reader {A} (m : M A) (set : val -> A -> val) :
  (forall d e, err d = Some e -> exists a, m d = Ok a d) ->
  quiet (fun v => let* x := m in ret (set v x)).
Proof.
  intros Hm v d e He. destruct (Hm d e He) as [a Ha].
  by rewrite (bind_Ok _ _ _ _ _ Ha).
Qed.

Lemma quiet_decodeBool : quiet decodeBool.
Proof. apply quiet_of_reader. eauto using readBool_failed. Qed.
Lemma quiet_decodeInt8 : quiet decodeInt8.
Proof. apply quiet_of_reader. eauto using readInt8_failed. Qed.
Lemma quiet_decodeInt16 : quiet decodeInt16.
Proof. apply quiet_of_reader. eauto using readInt16_failed. Qed.
Lemma quiet_decodeInt32 : quiet decodeInt32.
Proof. apply quiet_of_reader. eauto using readInt32_failed. Qed.
Lemma quiet_decodeInt64 : quiet decodeInt64.
Proof. apply quiet_of_reader. eauto using readInt64_failed. Qed.
Lemma quiet_decodeString : quiet decodeString.
Proof. apply quiet_of_reader. eauto using readString_failed. Qed.
Lemma quiet_decodeCompactString : quiet decodeCompactString.
Proof. apply quiet_of_reader. eauto using readCompactString_failed. Qed.
Lemma quiet_decodeBytes : quiet decodeBytes.
Proof. apply quiet_of_reader. eauto using readBytes_failed. Qed.
Lemma quiet_decodeCompactBytes : quiet decodeCompactBytes.
Proof. apply quiet_of_reader. eauto using readCompactBytes_failed. Qed.

Lemma quiet_decodeArray elemType decodeElem : quiet (decodeArray elemType decodeElem).
Proof.
  intros v d e He. unfold decodeArray.
  by rewrite (bind_Ok _ _ _ _ _ (readInt32_failed _ _ He)).
Qed.

Lemma quiet_decodeCompactArray elemType decodeElem :
  quiet (decodeCompactArray elemType decodeElem).
Proof.
  intros v d e He. unfold decodeCompactArray.
  by rewrite (bind_Ok _ _ _ _ _ (readUnsignedVarInt_failed _ _ He)).
Qed.

Lemma quiet_decodeField f : quiet (decode f) -> quiet (decodeField f).
Proof.
  intros Hq v d e He. unfold decodeField.
  destruct v as [| | | | | | |fs| |]; try done.
  destruct (fs !! index f) as [x|]; [|done].
  apply unchanged_bind; [by eapply Hq|done].
Qed.

Lemma quiet_decodeFields fields :
  Forall (fun f => quiet (decode f)) fields -> quiet (decodeFields fields).
Proof.
  induction 1 as [|f fields Hf _ IH]; intros v d e He; simpl; [done|].
  apply unchanged_bind; [by eapply quiet_decodeField|].
  intros v'. by eapply IH.
Qed.

Lemma quiet_structDecode fields taggedFields flexible :
  Forall (fun f => quiet (decode f)) fields ->
  quiet (structDecode fields taggedFields flexible).
Proof.
  intros Hf v d e He. unfold structDecode.
  apply unchanged_bind; [by eapply quiet_decodeFields|].
  intros v'. destruct flexible; [|done].
  by rewrite (bind_Ok _ _ _ _ _ (readUnsignedVarInt_failed _ _ He)).
Qed.

Lemma Uint8_or_not elem : elem = reflect.Uint8 \/ elem <> reflect.Uint8.
Proof. destruct elem; (by left) || (by right). Qed.

Section Quiet.

Variable ReadFrom : nat -> val -> M (val * option error).

Lemma quiet_readerDecodeFuncOf name : quiet (readerDecodeFuncOf ReadFrom name).
Proof. intros v d e He. unfold readerDecodeFuncOf. by rewrite He. Qed.

Lemma quiet_decodeFuncOf typ : forall version flexible tag f,
  decodeFuncOf ReadFrom typ version flexible tag = Some f -> quiet f.
Proof.
  induction typ as [| | | | | | |fs IH|elem IH|name|] using type_induction;
    intros version flexible tag f Hf.
  - inversion Hf. apply quiet_decodeBool.
  - inversion Hf. apply quiet_decodeInt8.
  - inversion Hf. apply quiet_decodeInt16.
  - inversion Hf. apply quiet_decodeInt32.
  - inversion Hf. apply quiet_decodeInt64.
  - inversion Hf. unfold stringDecodeFuncOf.
    destruct flexible; [apply quiet_decodeCompactString|apply quiet_decodeString].
  - done.
  - rewrite decodeFuncOf_Struct in Hf. unfold structDecodeFuncOf in Hf.
    destruct (collectFields _ _ _ _ _ _) as [acc|] eqn:Hc; [|done].
    inversion Hf. apply quiet_structDecode.
    eapply (collectFields_invariant ReadFrom (fun f => quiet (decode f)));
      [apply Hc|done|done|].
    intros g (j & t & tags & tg & Hj & _ & _ & Hd & _).
    rewrite Forall_lookup in IH. by eapply (IH j (t, tags)).
  - destruct (Uint8_or_not elem) as [->|Hne].
    { inversion Hf. unfold bytesDecodeFuncOf.
      destruct flexible; [apply quiet_decodeCompactBytes|apply quiet_decodeBytes]. }
    rewrite decodeFuncOf_Slice in Hf by done. unfold arrayDecodeFuncOf in Hf.
    destruct (decodeFuncOf _ elem _ _ _) as [ef|]; [|done].
    inversion Hf.
    destruct flexible; [apply quiet_decodeCompactArray|apply quiet_decodeArray].
  - inversion Hf. apply quiet_readerDecodeFuncOf.
  - done.
Qed.

End Quiet.

(** ** The sticky error *)

(** C3. Once the sticky error is set, nothing in a decode clears it and
    every read is a no-op.  [setError] keeps the first error; [Read],
    [readFull] and the fixed-width readers [readByte], [readBool],
    [readInt8], [readInt16], [readInt32] and [readInt64] return the zero
    value and leave the decoder, that is its source, its budget and its
    error, exactly as it was; and every routine the compiler produces
    ends in that same decoder. *)
Theorem sticky_error_is_latched
    (ReadFrom : nat -> val -> M (val * option error)) d e :
  err d = Some e ->
  (forall e', setError e' d = Ok tt d) /\
  (forall k, Read k d = Ok ([], Some e) d) /\
  (forall k, (0 < k)%nat -> readFull k d = Ok false d) /\
  readByte d = Ok Byte.x00 d /\
  readBool d = Ok false d /\
  readInt8 d = Ok 0 d /\
  readInt16 d = Ok 0 d /\
  readInt32 d = Ok 0 d /\
  readInt64 d = Ok 0 d /\
  (forall typ version flexible tag f v,
     decodeFuncOf ReadFrom typ version flexible tag = Some f ->
     unchanged (f v d) d).
Proof.
  intros He. repeat split.
  - intros e'. by eapply setError_failed.
  - intros k. by apply Read_failed.
  - intros k Hk. rewrite (readFull_failed _ _ _ He). by destruct k; [lia|].
  - by eapply readByte_failed.
  - by eapply readBool_failed.
  - by eapply readInt8_failed.
  - by eapply readInt16_failed.
  - by eapply readInt32_failed.
  - by eapply readInt64_failed.
  - intros typ version flexible tag f v Hf.
    by eapply (quiet_decodeFuncOf ReadFrom typ).
Qed.

Lemma sticky_error_is_latched_witness :
  let d := set_err (Some ErrUnexpectedEOF)
             (bound (bytesReader (bytes_of [1; 2; 3; 4])) 4) in
  err d = Some ErrUnexpectedEOF /\ readInt32 d = Ok 0 d.
Proof.
  intros d. split; [reflexivity|].
  apply (sticky_error_is_latched noReadFrom d ErrUnexpectedEOF). reflexivity.
Defined.

(** ** Variable-length integers of one group *)

Lemma u8_range b : 0 <= Int.u8 b < 256.
Proof.
  unfold Int.u8. pose proof (Byte.to_N_bounded b) as Hb.
  assert (Byte.to_N b <= 255)%N as Hle by exact Hb. lia.
Qed.

Lemma or_shifted_first b : 0 <= b < 256 -> or_shifted 0 b 0 = b.
Proof.
  intros Hb. unfold or_shifted, Int.uint64, Int.unsigned. simpl.
  rewrite Z.shiftl_0_r. apply Z.mod_small. lia.
Qed.

Lemma available_remain d : (1 <= available d)%nat -> 1 <= remain d.
Proof. unfold available. lia. Qed.

Lemma varint_groups_pos d :
  (1 <= available d)%nat -> exists n, Z.to_nat (varint_groups d) = S n.
Proof.
  intros Ha. apply available_remain in Ha. unfold varint_groups.
  rewrite Z.gtb_ltb. destruct (Z.ltb_spec (remain d) 11).
  - exists (Z.to_nat (remain d) - 1)%nat. lia.
  - by exists 10%nat.
Qed.

Lemma varint_loop_one finish failure n d :
  err d = None -> 0 <= remain d -> (1 <= available d)%nat ->
  Z.land (Int.u8 (nth 0 (pending (reader d)) Byte.x00)) 0x80 = 0 ->
  varint_loop finish failure (S n) 0 0 d =
    Ok (finish (Int.u8 (nth 0 (pending (reader d)) Byte.x00))) (consumed 1 d).
Proof.
  intros He Hr Ha Hb. simpl.
  rewrite (bind_Ok _ _ _ _ _ (readByte_ok _ He Hr Ha)). simpl.
  rewrite Hb. simpl. unfold ret. by rewrite or_shifted_first by apply u8_range.
Qed.

Lemma readUnsignedVarInt_one d :
  err d = None -> 0 <= remain d -> (1 <= available d)%nat ->
  Z.land (Int.u8 (nth 0 (pending (reader d)) Byte.x00)) 0x80 = 0 ->
  readUnsignedVarInt d =
    Ok (Int.u8 (nth 0 (pending (reader d)) Byte.x00)) (consumed 1 d).
Proof.
  intros He Hr Ha Hb. unfold readUnsignedVarInt.
  destruct (varint_groups_pos d Ha) as [n ->].
  by apply (varint_loop_one (fun x => x)).
Qed.

(** ** Sentinel lengths *)

(** C8. Sentinel length prefixes decode to null or empty and consume
    the prefix only.  Whatever the input: when the two-byte length of a
    classic string is negative the string is empty, when the four-byte
    length of classic bytes or the four-byte count of a classic array is
    negative the result is [nil], and when the unsigned-varint prefix of
    a compact string, of compact bytes or of a compact array is zero the
    result is the empty string or [nil]; in every case the decoder is
    left where the read of the prefix left it.  In bytes, on a decoder
    without error: a negative [int16] costs exactly two bytes, a
    negative [int32] exactly four, and the prefix byte [0] exactly
    one. *)
Theorem sentinel_lengths_consume_no_payload d elemType decodeElem v :
  (forall n d1, readInt16 d = Ok n d1 -> n < 0 -> readString d = Ok [] d1) /\
  (forall n d1, readInt32 d = Ok n d1 -> n < 0 ->
     readBytes d = Ok None d1 /\
     decodeArray elemType decodeElem v d = Ok (VArray None) d1) /\
  (forall d1, readUnsignedVarInt d = Ok 0 d1 ->
     readCompactString d = Ok [] d1 /\
     readCompactBytes d = Ok None d1 /\
     decodeCompactArray elemType decodeElem v d = Ok (VArray None) d1) /\
  (err d = None -> 0 <= remain d ->
   ((2 <= available d)%nat ->
    Fixed.readInt16 (take 2 (pending (reader d))) < 0 ->
    readString d = Ok [] (consumed 2 d)) /\
   ((4 <= available d)%nat ->
    Fixed.readInt32 (take 4 (pending (reader d))) < 0 ->
    readBytes d = Ok None (consumed 4 d) /\
    decodeArray elemType decodeElem v d = Ok (VArray None) (consumed 4 d)) /\
   ((1 <= available d)%nat ->
    nth 0 (pending (reader d)) Byte.x00 = Byte.x00 ->
    readCompactString d = Ok [] (consumed 1 d) /\
    readCompactBytes d = Ok None (consumed 1 d) /\
    decodeCompactArray elemType decodeElem v d
      = Ok (VArray None) (consumed 1 d))).
Proof.
  assert (H16 : forall n d1, readInt16 d = Ok n d1 -> n < 0 ->
                readString d = Ok [] d1).
  { intros n d1 Hn Hneg. unfold readString. rewrite (bind_Ok _ _ _ _ _ Hn).
    by destruct (Z.ltb_spec n 0); [|lia]. }
  assert (H32 : forall n d1, readInt32 d = Ok n d1 -> n < 0 ->
                readBytes d = Ok None d1 /\
                decodeArray elemType decodeElem v d = Ok (VArray None) d1).
  { intros n d1 Hn Hneg. unfold readBytes, decodeArray.
    rewrite !(bind_Ok _ _ _ _ _ Hn). by destruct (Z.ltb_spec n 0); [|lia]. }
  assert (Hvar : forall d1, readUnsignedVarInt d = Ok 0 d1 ->
                 readCompactString d = Ok [] d1 /\
                 readCompactBytes d = Ok None d1 /\
                 decodeCompactArray elemType decodeElem v d = Ok (VArray None) d1).
  { intros d1 Hn. unfold readCompactString, readCompactBytes, decodeCompactArray.
    by rewrite !(bind_Ok _ _ _ _ _ Hn). }
  split; [done|]. split; [done|]. split; [done|].
  intros He Hr. split; [|split].
  - intros Ha Hn. by eapply H16; [apply readInt16_ok|].
  - intros Ha Hn. by eapply H32; [apply readInt32_ok|].
  - intros Ha Hb. apply Hvar.
    rewrite (readUnsignedVarInt_one _ He Hr Ha) by by rewrite Hb.
    by rewrite Hb.
Qed.

Lemma sentinel_lengths_consume_no_payload_witness :
  let d := bound (bytesReader (bytes_of [255; 255; 65; 66])) 4 in
  (err d = None /\ 0 <= remain d /\ (2 <= available d)%nat /\
   Fixed.readInt16 (take 2 (pending (reader d))) < 0) /\
  readString d = Ok [] (consumed 2 d) /\
  pending (reader (consumed 2 d)) = bytes_of [65; 66].
Proof.
  intros d.
  assert (He : err d = None) by reflexivity.
  assert (Hr : 0 <= remain d) by (vm_compute; discriminate).
  assert (Ha : (2 <= available d)%nat) by (vm_compute; lia).
  assert (Hn : Fixed.readInt16 (take 2 (pending (reader d))) < 0) by reflexivity.
  split; [by repeat split|]. split; [|reflexivity].
  exact (proj1 (proj2 (proj2 (proj2
           (sentinel_lengths_consume_no_payload d reflect.Int8 decodeInt8
              (VInt8 0)))) He Hr) Ha Hn).
Defined.

(** ** Malformed variable-length integers *)

Lemma readByte_dry d :
  err d = None -> 0 < remain d -> pending (reader d) = [] ->
  readByte d = Ok Byte.x00 (fail_with (at_end (reader d)) d).
Proof.
  intros He Hr Hp. unfold readByte.
  assert (Ha : available d = 0%nat) by (unfold available; rewrite Hp; simpl; lia).
  rewrite (bind_Ok _ _ _ _ _ (readFull_short 1 _ He ltac:(lia) ltac:(lia))).
  rewrite Ha. unfold consumed, fill. simpl. rewrite advance_0, drop_0, set_buffer_id.
  unfold short_error. destruct (Z.eqb_spec (remain d) 0); [lia|]. done.
Qed.

Lemma varint_loop_error finish failure n : forall x s d,
  err d = None -> Z.of_nat n <= remain d -> at_end (reader d) <> failure ->
  exists a d',
    varint_loop finish failure n x s d = Ok a d' /\
    (err d' = Some failure <-> continued n (pending (reader d))).
Proof.
  induction n as [|n IH]; intros x s d He Hr Hend.
  - exists 0, (fail_with failure d). split.
    + simpl. unfold bind. rewrite setError_spec, He. done.
    + rewrite err_fail_with. split; [|done]. intros _.
      split; [simpl; lia|]. rewrite take_0. constructor.
  - destruct (pending (reader d)) as [|b p] eqn:Ep.
    + eexists _, _. split.
      * simpl. rewrite (bind_Ok _ _ _ _ _ (readByte_dry _ He ltac:(lia) Ep)).
        reflexivity.
      * rewrite err_fail_with. split.
        -- intros [=]. done.
        -- intros [Hlen _]. simpl in Hlen. lia.
    + assert (Ha : (1 <= available d)%nat).
      { unfold available. rewrite Ep. simpl. lia. }
      simpl. rewrite (bind_Ok _ _ _ _ _ (readByte_ok _ He ltac:(lia) Ha)).
      rewrite Ep. simpl.
      destruct (Z.eqb_spec (Z.land (Int.u8 b) 128) 0) as [Hb|Hb].
      * eexists _, _. split; [reflexivity|]. simpl. rewrite He. split; [done|].
        intros [_ Hall]. simpl in Hall. by inversion Hall.
      * destruct (IH (or_shifted x (Z.land (Int.u8 b) 127) s) (s + 7) (consumed 1 d))
          as (a & d' & Hrun & Hiff).
        { done. } { rewrite remain_consumed. lia. } { done. }
        exists a, d'. split; [done|]. rewrite Hiff, pending_consumed, Ep. simpl.
        rewrite drop_0. unfold continued. simpl. split.
        -- intros [Hlen Hall]. split; [lia|]. by constructor.
        -- intros [Hlen Hall]. split; [lia|]. by inversion Hall.
Qed.

Lemma varint_groups_spec d :
  0 <= remain d -> varint_groups d = Z.min 11 (remain d).
Proof.
  intros Hr. unfold varint_groups. rewrite Z.gtb_ltb.
  destruct (Z.ltb_spec (remain d) 11); lia.
Qed.

(** C5, as amended.  [readVarInt] and [readUnsignedVarInt] return
    normally, and they signal their malformed-varint error exactly when
    every group they may read carries the continuation bit, where the
    number of groups they may read is the smaller of 11 and the
    remaining budget.  So a budget that ends before a terminating byte,
    or is zero from the start, is reported as a malformed varint; only a
    source that runs dry within the budget yields the end-of-input
    error of the source instead. *)
Theorem varint_error_iff d :
  err d = None -> 0 <= remain d ->
  at_end (reader d) <> ErrVarInt -> at_end (reader d) <> ErrUnsignedVarInt ->
  let groups := Z.to_nat (Z.min 11 (remain d)) in
  (exists x d', readVarInt d = Ok x d' /\
     (err d' = Some ErrVarInt <-> continued groups (pending (reader d)))) /\
  (exists x d', readUnsignedVarInt d = Ok x d' /\
     (err d' = Some ErrUnsignedVarInt <-> continued groups (pending (reader d)))).
Proof.
  intros He Hr H1 H2 groups. unfold groups.
  rewrite <- (varint_groups_spec d Hr).
  assert (Z.of_nat (Z.to_nat (varint_groups d)) <= remain d).
  { rewrite varint_groups_spec by done. lia. }
  split; by apply varint_loop_error.
Qed.

Lemma varint_error_iff_witness :
  let d := bound (bytesReader (bytes_of [128; 128])) 2 in
  (err d = None /\ 0 <= remain d /\
   at_end (reader d) <> ErrVarInt /\ at_end (reader d) <> ErrUnsignedVarInt) /\
  exists x d', readVarInt d = Ok x d' /\
    (err d' = Some ErrVarInt <-> continued 2 (pending (reader d))).
Proof.
  intros d.
  assert (He : err d = None) by reflexivity.
  assert (Hr : 0 <= remain d) by (vm_compute; discriminate).
  assert (H1 : at_end (reader d) <> ErrVarInt) by discriminate.
  assert (H2 : at_end (reader d) <> ErrUnsignedVarInt) by discriminate.
  split; [done|].
  exact (proj1 (varint_error_iff d He Hr H1 H2)).
Defined.

(** C5, as stated, fails: with a budget of two bytes, both carrying the
    continuation bit, [readVarInt] and [readUnsignedVarInt] have read
    two groups, not eleven, and the error they set is the
    malformed-varint error, not an end-of-input error. *)
Lemma varint_short_budget_is_malformed :
  let d := bound (bytesReader (bytes_of [128; 128])) 2 in
  ~ continued 11 (pending (reader d)) /\
  err (final (readVarInt d)) = Some ErrVarInt /\
  err (final (readUnsignedVarInt d)) = Some ErrUnsignedVarInt.
Proof.
  intros d. split; [|split; reflexivity].
  intros [Hlen _]. vm_compute in Hlen. lia.
Qed.

(** ** What the first error does to the source *)

Lemma setError_plain d e :
  err d = None -> has_discard (reader d) = false ->
  setError (Some e) d = Ok tt (set_err (Some e) d).
Proof.
  intros He Hd. rewrite setError_spec, He. unfold fail_with, drained.
  simpl. by rewrite Hd.
Qed.

Lemma setError_discarder d e :
  err d = None -> has_discard (reader d) = true ->
  0 <= remain d -> (Z.to_nat (remain d) <= length (pending (reader d)))%nat ->
  exists d',
    setError (Some e) d = Ok tt d' /\
    pending (reader d') = drop (Z.to_nat (remain d)) (pending (reader d)) /\
    remain d' = 0 /\ err d' = Some e.
Proof.
  intros He Hd Hr Hp. rewrite setError_spec, He. eexists. split; [done|].
  unfold fail_with, drained, src_discard. simpl. rewrite Hd.
  destruct (Z.ltb_spec (remain d) 0); [lia|]. simpl.
  rewrite Nat.min_l by done. repeat split. lia.
Qed.

(** C4 fails on the code for a source without [Discard].  A frame of 13
    bytes opens with eleven continuation groups; [readVarInt] sets the
    malformed-varint error with two bytes of the frame unread.  Over a
    [bytes.Reader] those two bytes stay in the source and in the budget,
    because [setError] stores the error before [discardAll] runs and the
    copy into [ioutil.Discard] reads through [Read], which returns at
    once.  Over a source with [Discard] the same frame is skipped to its
    end. *)
Theorem plain_source_is_left_mid_frame :
  let frame := bytes_of [128; 128; 128; 128; 128; 128; 128; 128; 128; 128; 128; 1; 2] in
  let plain := final (readVarInt (bound (bytesReader frame) 13)) in
  let skipping := final (readVarInt (bound (bufioReader frame) 13)) in
  (err plain = Some ErrVarInt /\
   pending (reader plain) = bytes_of [1; 2] /\ remain plain = 2) /\
  (err skipping = Some ErrVarInt /\
   pending (reader skipping) = [] /\ remain skipping = 0).
Proof. vm_compute. repeat split. Qed.

(** ** The budget under a length that does not fit [int] *)

(** C9 fails on the code for a compact length of [2^63 + 1] or more.
    The ten bytes below are the unsigned varint [2^64 - 1];
    [readCompactBytesTo] passes [int(n-1) = -2] to [writeTo], which
    stores it in [d.remain] because it is below the limit; the copy then
    panics in [Read] on [b[:d.remain]], and the decoder is left with a
    budget of [-2]. *)
Theorem compact_length_overflow_makes_budget_negative :
  let frame := bytes_of [255; 255; 255; 255; 255; 255; 255; 255; 255; 1; 7; 7; 7] in
  exists d',
    readCompactBytesTo [] (bound (bytesReader frame) 13) = Panic d' /\
    remain d' = -2.
Proof. eexists. vm_compute. split; reflexivity. Qed.

(** ** Staying within the frame *)

Lemma within_refl d : 0 <= remain d -> within d d.
Proof. intros Hr. exists O. rewrite drop_0. repeat split; [lia|done]. Qed.

Lemma within_trans d1 d2 d3 : within d1 d2 -> within d2 d3 -> within d1 d3.
Proof.
  intros (k1 & Hp1 & Hr1 & H1) (k2 & Hp2 & Hr2 & H2). exists (k1 + k2)%nat.
  rewrite Hp2, Hp1, drop_drop. repeat split; [lia|done].
Qed.

Lemma within_nonneg d d' : within d d' -> 0 <= remain d'.
Proof. by intros (k & _ & _ & H). Qed.

Lemma within_le d d' : within d d' -> remain d' <= remain d.
Proof. intros (k & _ & H & _). lia. Qed.

Lemma within_consumed k d :
  (k <= available d)%nat -> 0 <= remain d -> within d (consumed k d).
Proof.
  intros Hk Hr. exists k. unfold consumed, fill, advance, available in *. simpl.
  repeat split; lia.
Qed.

Lemma within_advance k d :
  (k <= available d)%nat -> 0 <= remain d -> within d (advance k d).
Proof.
  intros Hk Hr. exists k. unfold advance, available in *. simpl.
  repeat split; lia.
Qed.

Lemma within_drained d : 0 <= remain d -> within d (drained d).
Proof.
  intros Hr. unfold drained. destruct (has_discard (reader d)); [|by apply within_refl].
  unfold src_discard. destruct (Z.ltb_spec (remain d) 0); [lia|].
  exists (Nat.min (Z.to_nat (remain d)) (length (pending (reader d)))).
  simpl. repeat split; lia.
Qed.

Lemma within_fail_with e d : 0 <= remain d -> within d (fail_with e d).
Proof.
  intros Hr. unfold fail_with.
  destruct (within_drained (set_err (Some e) d) Hr) as (k & H1 & H2 & H3).
  by exists k.
Qed.

Lemma readFull_within k d :
  0 <= remain d -> exists ok d', readFull k d = Ok ok d' /\ within d d'.
Proof.
  intros Hr. destruct (err d) as [e|] eqn:He.
  { eexists _, _. split; [by apply (readFull_failed _ _ e)|by apply within_refl]. }
  destruct (Nat.le_gt_cases k (available d)) as [Hk|Hk].
  - eexists _, _. split; [by apply readFull_ok|by apply within_consumed].
  - eexists _, _. split; [by apply readFull_short|].
    eapply within_trans; [apply (within_consumed (available d)); [lia|done]|].
    apply within_fail_with. rewrite remain_consumed. unfold available. lia.
Qed.

Lemma read_within n d :
  0 <= n -> 0 <= remain d -> exists b d', read n d = Ok b d' /\ within d d'.
Proof.
  intros Hn Hr. destruct (err d) as [e|] eqn:He.
  { eexists _, _. split; [by apply (read_failed _ _ e)|by apply within_refl]. }
  destruct (Nat.le_gt_cases (Z.to_nat n) (available d)) as [Hk|Hk].
  - eexists _, _. split; [by apply read_ok|by apply within_advance].
  - eexists _, _. split; [by apply read_short|].
    eapply within_trans; [apply (within_advance (available d)); [lia|done]|].
    apply within_fail_with. unfold advance, available. simpl. lia.
Qed.

(** A computation that returns normally within the frame. *)
Lemma bind_within {A B} (m : M A) (k : A -> M B) (P : B -> Prop) d :
  (exists a d', m d = Ok a d' /\ within d d') ->
  (forall a d', within d d' -> exists b d'', k a d' = Ok b d'' /\ P b /\ within d' d'') ->
  exists b d'', bind m k d = Ok b d'' /\ P b /\ within d d''.
Proof.
  intros (a & d' & Hm & Hw) Hk. destruct (Hk a d' Hw) as (b & d'' & Hb & HP & Hw').
  exists b, d''. rewrite (bind_Ok _ _ _ _ _ Hm). eauto using within_trans.
Qed.

Lemma fixed_within (k : nat) (conv : decoder -> Z) d :
  0 <= remain d ->
  exists x d',
    (let* ok := readFull k in
     if ok then (fun d => Ok (conv d) d) else ret 0) d = Ok x d' /\ within d d'.
Proof.
  intros Hr. destruct (readFull_within k d Hr) as (ok & d' & Hrf & Hw).
  rewrite (bind_Ok _ _ _ _ _ Hrf). destruct ok; eauto.
Qed.

Lemma readBool_within d :
  0 <= remain d -> exists x d', readBool d = Ok x d' /\ within d d'.
Proof.
  intros Hr. unfold readBool, readByte.
  destruct (readFull_within 1 d Hr) as (ok & d' & Hrf & Hw).
  unfold bind at 1. rewrite (bind_Ok _ _ _ _ _ Hrf). destruct ok; eauto.
Qed.

Lemma readInt8_within d :
  0 <= remain d -> exists x d', readInt8 d = Ok x d' /\ within d d'.
Proof. apply (fixed_within 1). Qed.
Lemma readInt16_within d :
  0 <= remain d -> exists x d', readInt16 d = Ok x d' /\ within d d'.
Proof. apply (fixed_within 2). Qed.
Lemma readInt32_within d :
  0 <= remain d -> exists x d', readInt32 d = Ok x d' /\ within d d'.
Proof. apply (fixed_within 4). Qed.
Lemma readInt64_within d :
  0 <= remain d -> exists x d', readInt64 d = Ok x d' /\ within d d'.
Proof. apply (fixed_within 8). Qed.

(** ** Ranges of the machine integers *)

Lemma signed_range w x : 0 < w -> - 2 ^ (w - 1) <= Int.signed w x < 2 ^ (w - 1).
Proof.
  intros Hw. unfold Int.signed.
  assert (2 ^ w = 2 * 2 ^ (w - 1)) as Hp.
  { rewrite <- Z.pow_succ_r by lia. f_equal. lia. }
  assert (0 < 2 ^ (w - 1)) by (apply Z.pow_pos_nonneg; lia).
  pose proof (Z.mod_pos_bound (x + 2 ^ (w - 1)) (2 ^ w) ltac:(lia)). lia.
Qed.

Lemma signed_small w x :
  0 < w -> - 2 ^ (w - 1) <= x < 2 ^ (w - 1) -> Int.signed w x = x.
Proof.
  intros Hw Hx. unfold Int.signed.
  assert (2 ^ w = 2 * 2 ^ (w - 1)) as Hp.
  { rewrite <- Z.pow_succ_r by lia. f_equal. lia. }
  rewrite Z.mod_small; lia.
Qed.

Lemma int_of_int16 x : Int.int (Int.int16 x) = Int.int16 x.
Proof.
  pose proof (signed_range 16 x ltac:(lia)) as H. simpl in H.
  apply signed_small; [lia|]. unfold Int.int16. simpl. lia.
Qed.

Lemma int_of_int32 x : Int.int (Int.int32 x) = Int.int32 x.
Proof.
  pose proof (signed_range 32 x ltac:(lia)) as H. simpl in H.
  apply signed_small; [lia|]. unfold Int.int32. simpl. lia.
Qed.

Lemma int_small x : - 2 ^ 63 <= x < 2 ^ 63 -> Int.int x = x.
Proof. intros Hx. apply signed_small; [lia|]. simpl. lia. Qed.

(** What [readInt16] and [readInt32] return fits the type. *)
Lemma readInt16_range d x d' :
  readInt16 d = Ok x d' -> Int.int x = x.
Proof.
  unfold readInt16, bind. destruct (readFull 2 d) as [[|] d1|d1|d1]; try done.
  - intros [= <- _]. apply int_of_int16.
  - by intros [= <- _].
Qed.

Lemma readInt32_range d x d' :
  readInt32 d = Ok x d' -> Int.int x = x.
Proof.
  unfold readInt32, bind. destruct (readFull 4 d) as [[|] d1|d1|d1]; try done.
  - intros [= <- _]. apply int_of_int32.
  - by intros [= <- _].
Qed.

(** ** The classic codecs stay within the frame *)

Lemma readString_within d :
  0 <= remain d -> exists x d', readString d = Ok x d' /\ within d d'.
Proof.
  intros Hr. unfold readString.
  destruct (readInt16_within d Hr) as (n & d1 & Hn & Hw).
  rewrite (bind_Ok _ _ _ _ _ Hn).
  destruct (Z.ltb_spec n 0) as [Hneg|Hpos]; [by eauto|].
  rewrite (readInt16_range _ _ _ Hn).
  destruct (read_within n d1 Hpos (within_nonneg _ _ Hw)) as (b & d2 & Hb & Hw2).
  rewrite (bind_Ok _ _ _ _ _ Hb). eauto using within_trans.
Qed.

Lemma readBytes_within d :
  0 <= remain d -> exists x d', readBytes d = Ok x d' /\ within d d'.
Proof.
  intros Hr. unfold readBytes.
  destruct (readInt32_within d Hr) as (n & d1 & Hn & Hw).
  rewrite (bind_Ok _ _ _ _ _ Hn).
  destruct (Z.ltb_spec n 0) as [Hneg|Hpos]; [by eauto|].
  rewrite (readInt32_range _ _ _ Hn).
  destruct (read_within n d1 Hpos (within_nonneg _ _ Hw)) as (b & d2 & Hb & Hw2).
  rewrite (bind_Ok _ _ _ _ _ Hb). eauto using within_trans.
Qed.

Lemma safe_of_reader {A} (m : M A) (set : val -> A -> val) t :
  (forall d, 0 <= remain d -> exists a d', m d = Ok a d' /\ within d d') ->
  (forall v a, has_type t (set v a)) ->
  safe_on t (fun v => let* x := m in ret (set v x)).
Proof.
  intros Hm Hset v d Hv Hr. destruct (Hm d Hr) as (a & d' & Ha & Hw).
  exists (set v a), d'. by rewrite (bind_Ok _ _ _ _ _ Ha).
Qed.

Lemma safe_decodeBool : safe_on reflect.Bool decodeBool.
Proof. apply safe_of_reader; [apply readBool_within|constructor]. Qed.
Lemma safe_decodeInt8 : safe_on reflect.Int8 decodeInt8.
Proof. apply safe_of_reader; [apply readInt8_within|constructor]. Qed.
Lemma safe_decodeInt16 : safe_on reflect.Int16 decodeInt16.
Proof. apply safe_of_reader; [apply readInt16_within|constructor]. Qed.
Lemma safe_decodeInt32 : safe_on reflect.Int32 decodeInt32.
Proof. apply safe_of_reader; [apply readInt32_within|constructor]. Qed.
Lemma safe_decodeInt64 : safe_on reflect.Int64 decodeInt64.
Proof. apply safe_of_reader; [apply readInt64_within|constructor]. Qed.
Lemma safe_decodeString : safe_on reflect.String decodeString.
Proof. apply safe_of_reader; [apply readString_within|constructor]. Qed.
Lemma safe_decodeBytes : safe_on (reflect.Slice reflect.Uint8) decodeBytes.
Proof. apply safe_of_reader; [apply readBytes_within|constructor]. Qed.

(** ** Structs and arrays of safe routines *)

Lemma zero_has_type t : has_type t (zero t).
Proof.
  induction t as [| | | | | | |fs IH|elem IH|name|] using type_induction;
    try (by constructor).
  - simpl. constructor. induction IH as [|f fs Hf _ IHfs]; by constructor.
  - destruct (Uint8_or_not elem) as [->|Hne]; [constructor|].
    replace (zero (reflect.Slice elem)) with (VArray None) by by destruct elem.
    by constructor.
Qed.

Lemma safe_decodeField fs f t tags :
  fs !! index f = Some (t, tags) -> safe_on t (decode f) ->
  safe_on (reflect.Struct fs) (decodeField f).
Proof.
  intros Hf Hsafe v d Hv Hr. inversion Hv as [| | | | | | |fs' vs Hvs| | | | |]; subst.
  unfold decodeField.
  destruct (Forall2_lookup_l _ _ _ _ _ Hvs Hf) as (x & Hx & Htx).
  rewrite Hx. destruct (Hsafe x d Htx Hr) as (x' & d' & Hrun & Htx' & Hw).
  rewrite (bind_Ok _ _ _ _ _ Hrun). eexists _, _. split; [done|]. split; [|done].
  constructor. rewrite <- (list_insert_id fs (index f) (t, tags)) by done.
  by apply Forall2_insert.
Qed.

Lemma safe_decodeFields fs fields :
  Forall (fun f => exists t tags,
            fs !! index f = Some (t, tags) /\ safe_on t (decode f)) fields ->
  safe_on (reflect.Struct fs) (decodeFields fields).
Proof.
  induction 1 as [|f fields (t & tags & Hf & Hsafe) _ IH]; intros v d Hv Hr; simpl.
  { eexists _, _. split; [done|]. split; [done|]. by apply within_refl. }
  destruct (safe_decodeField _ _ _ _ Hf Hsafe v d Hv Hr) as (v1 & d1 & Hrun & Hv1 & Hw).
  rewrite (bind_Ok _ _ _ _ _ Hrun).
  destruct (IH v1 d1 Hv1 (within_nonneg _ _ Hw)) as (v2 & d2 & Hrun2 & Hv2 & Hw2).
  eauto 8 using within_trans.
Qed.

Lemma safe_decodeElems elem decodeElem :
  safe_on elem decodeElem ->
  forall count i a d,
  Forall (has_type elem) a -> (i + count <= length a)%nat -> 0 <= remain d ->
  exists a' d',
    decodeElems decodeElem count i a d = Ok a' d' /\
    Forall (has_type elem) a' /\ length a' = length a /\ within d d'.
Proof.
  intros Hsafe. induction count as [|count IH]; intros i a d Ha Hlen Hr; simpl.
  { eexists _, _. repeat split; try done. by apply within_refl. }
  rewrite Z.gtb_ltb. destruct (Z.ltb_spec 0 (remain d)).
  2: { eexists _, _. repeat split; try done. by apply within_refl. }
  destruct (lookup_lt_is_Some_2 a i ltac:(lia)) as [x Hx]. rewrite Hx.
  assert (has_type elem x) as Htx by (by eapply Forall_lookup_1).
  destruct (Hsafe x d Htx Hr) as (x' & d1 & Hrun & Htx' & Hw).
  rewrite (bind_Ok _ _ _ _ _ Hrun).
  destruct (IH (S i) (<[i:=x']> a) d1) as (a' & d2 & Hrun2 & Ha' & Hlen' & Hw2).
  { by apply Forall_insert. }
  { rewrite length_insert. lia. }
  { by eapply within_nonneg. }
  exists a', d2. rewrite length_insert in Hlen'. eauto using within_trans.
Qed.

Lemma safe_decodeArray elem decodeElem :
  elem <> reflect.Uint8 -> safe_on elem decodeElem ->
  safe_on (reflect.Slice elem) (decodeArray elem decodeElem).
Proof.
  intros Hne Hsafe v d Hv Hr. unfold decodeArray.
  destruct (readInt32_within d Hr) as (n & d1 & Hn & Hw).
  rewrite (bind_Ok _ _ _ _ _ Hn).
  destruct (Z.ltb_spec n 0) as [Hneg|Hpos].
  { eexists _, _. split; [done|]. split; [by constructor|done]. }
  rewrite (readInt32_range _ _ _ Hn). unfold makeArray.
  destruct (Z.ltb_spec n 0); [lia|]. unfold bind at 1. unfold ret at 1.
  destruct (safe_decodeElems _ _ Hsafe (Z.to_nat n) 0
              (replicate (Z.to_nat n) (zero elem)) d1)
    as (a' & d2 & Hrun & Ha' & Hlen & Hw2).
  { apply Forall_replicate, zero_has_type. }
  { rewrite length_replicate. lia. }
  { by eapply within_nonneg. }
  rewrite (bind_Ok _ _ _ _ _ Hrun).
  eexists _, _. split; [done|]. split; [by constructor|by eapply within_trans].
Qed.

(** ** Classic plans are safe *)

Lemma setError_within e d :
  0 <= remain d -> exists d', setError e d = Ok tt d' /\ within d d'.
Proof.
  intros Hr. rewrite setError_spec. eexists. split; [done|].
  destruct (err d); [by apply within_refl|].
  destruct e; [by apply within_fail_with|by apply within_refl].
Qed.

Lemma safe_structDecode_classic fs fields taggedFields :
  Forall (fun f => exists t tags,
            fs !! index f = Some (t, tags) /\ safe_on t (decode f)) fields ->
  safe_on (reflect.Struct fs) (structDecode fields taggedFields false).
Proof.
  intros Hf v d Hv Hr. unfold structDecode.
  destruct (safe_decodeFields _ _ Hf v d Hv Hr) as (v' & d' & Hrun & Hv' & Hw).
  rewrite (bind_Ok _ _ _ _ _ Hrun). eauto.
Qed.

Section ClassicSafety.

Variable ReadFrom : nat -> val -> M (val * option error).
Hypothesis ReadFrom_wellbehaved : wellbehaved ReadFrom.

Lemma safe_readerDecodeFuncOf name :
  safe_on (reflect.ReaderFrom name) (readerDecodeFuncOf ReadFrom name).
Proof.
  intros v d Hv Hr. unfold readerDecodeFuncOf.
  destruct (err d) as [e|] eqn:He.
  { eexists _, _. split; [done|]. split; [constructor|by apply within_refl]. }
  destruct (ReadFrom_wellbehaved name v d Hr) as (r & d1 & Hrun & Hw).
  rewrite (bind_Ok _ _ _ _ _ Hrun).
  destruct r.2 as [e|].
  - destruct (setError_within (Some e) d1 (within_nonneg _ _ Hw)) as (d2 & Hs & Hw2).
    rewrite (bind_Ok _ _ _ _ _ Hs). eexists _, _. split; [done|].
    split; [constructor|by eapply within_trans].
  - eexists _, _. split; [done|]. split; [constructor|done].
Qed.

Lemma safe_decodeFuncOf typ : forall version tag f,
  decodeFuncOf ReadFrom typ version false tag = Some f -> safe_on typ f.
Proof.
  induction typ as [| | | | | | |fs IH|elem IH|name|] using type_induction;
    intros version tag f Hf.
  - inversion Hf. apply safe_decodeBool.
  - inversion Hf. apply safe_decodeInt8.
  - inversion Hf. apply safe_decodeInt16.
  - inversion Hf. apply safe_decodeInt32.
  - inversion Hf. apply safe_decodeInt64.
  - inversion Hf. apply safe_decodeString.
  - done.
  - rewrite decodeFuncOf_Struct in Hf. unfold structDecodeFuncOf in Hf.
    destruct (collectFields _ _ _ _ _ _) as [acc|] eqn:Hc; [|done].
    inversion Hf. apply safe_structDecode_classic.
    eapply (collectFields_invariant ReadFrom
              (fun f => exists t tags,
                 fs !! index f = Some (t, tags) /\ safe_on t (decode f)));
      [apply Hc|done|done|].
    intros g (j & t & tags & tg & Hj & Hi & _ & Hd & _).
    exists t, tags. rewrite Hi. split; [done|].
    rewrite Forall_lookup in IH. by eapply (IH j (t, tags)).
  - destruct (Uint8_or_not elem) as [->|Hne].
    { inversion Hf. apply safe_decodeBytes. }
    rewrite decodeFuncOf_Slice in Hf by done. unfold arrayDecodeFuncOf in Hf.
    destruct (decodeFuncOf _ elem _ _ _) as [ef|] eqn:He; [|done].
    inversion Hf. apply safe_decodeArray; [done|]. by eapply IH.
  - inversion Hf. apply safe_readerDecodeFuncOf.
  - done.
Qed.

End ClassicSafety.

Lemma noReadFrom_wellbehaved : wellbehaved noReadFrom.
Proof. intros name v d Hr. eexists _, _. split; [done|]. by apply within_refl. Qed.

(** ** Arrays whose count exceeds the budget *)

Lemma fixed_width_of_reader (k : nat) (conv : decoder -> Z) (set : val -> Z -> val) :
  (0 < k)%nat ->
  fixed_width k (fun v =>
    let* x := (let* ok := readFull k in
               if ok then (fun d => Ok (conv d) d) else ret 0) in
    ret (set v x)).
Proof.
  intros Hk. split; [done|]. intros v d He Hr. split; intros Ha.
  - eexists. unfold bind at 1. unfold bind at 1.
    by rewrite (readFull_ok _ _ He Hr Ha).
  - eexists. unfold bind at 1. unfold bind at 1.
    by rewrite (readFull_short _ _ He Hr Ha).
Qed.

Lemma fixed_width_decodeBool : fixed_width 1 decodeBool.
Proof.
  split; [lia|]. intros v d He Hr. split; intros Ha.
  - eexists. unfold decodeBool, readBool, readByte. unfold bind.
    by rewrite (readFull_ok _ _ He Hr Ha).
  - eexists. unfold decodeBool, readBool, readByte. unfold bind.
    by rewrite (readFull_short _ _ He Hr Ha).
Qed.

Lemma fixed_width_decodeInt8 : fixed_width 1 decodeInt8.
Proof. apply (fixed_width_of_reader 1). lia. Qed.
Lemma fixed_width_decodeInt16 : fixed_width 2 decodeInt16.
Proof. apply (fixed_width_of_reader 2). lia. Qed.
Lemma fixed_width_decodeInt32 : fixed_width 4 decodeInt32.
Proof. apply (fixed_width_of_reader 4). lia. Qed.
Lemma fixed_width_decodeInt64 : fixed_width 8 decodeInt64.
Proof. apply (fixed_width_of_reader 8). lia. Qed.

Lemma decodeElems_spent f count i a d :
  remain d <= 0 -> decodeElems f count i a d = Ok a d.
Proof.
  intros Hr. destruct count; simpl; [done|].
  rewrite Z.gtb_ltb. by destruct (Z.ltb_spec 0 (remain d)); [lia|].
Qed.

(** The element loop can be run in two stretches. *)
Lemma decodeElems_split f i : forall k j a d,
  decodeElems f (i + k) j a d =
  (let* a1 := decodeElems f i j a in decodeElems f k (j + i) a1) d.
Proof.
  induction i as [|i IH]; intros k j a d.
  { simpl. unfold bind, ret. by rewrite Nat.add_0_r. }
  change (decodeElems f (S i + k) j a d)
    with (if remain d >? 0
          then match a !! j with
               | Some x => (let* x' := f x in
                            decodeElems f (i + k) (S j) (<[j:=x']> a)) d
               | None => Panic d
               end
          else Ok a d).
  unfold bind at 2.
  change (decodeElems f (S i) j a d)
    with (if remain d >? 0
          then match a !! j with
               | Some x => (let* x' := f x in
                            decodeElems f i (S j) (<[j:=x']> a)) d
               | None => Panic d
               end
          else Ok a d).
  rewrite Z.gtb_ltb. destruct (Z.ltb_spec 0 (remain d)) as [Hpos|Hzero].
  - destruct (a !! j) as [x|]; [|done].
    unfold bind at 1 2. destruct (f x d) as [x' d1|d1|d1]; try done.
    rewrite IH. unfold bind. by replace (S j + i)%nat with (j + S i)%nat by lia.
  - by rewrite decodeElems_spent by lia.
Qed.

(** The loop writes into the elements [i], ..., [i + count - 1] of the
    array it was given and into no other, and never resizes it. *)
Lemma decodeElems_untouched f count : forall i a d a' d',
  decodeElems f count i a d = Ok a' d' ->
  length a' = length a /\
  forall j, (j < i \/ i + count <= j)%nat -> a' !! j = a !! j.
Proof.
  induction count as [|count IH]; intros i a d a' d'; simpl.
  { by intros [= <- <-]. }
  rewrite Z.gtb_ltb. destruct (Z.ltb_spec 0 (remain d)); [|by intros [= <- <-]].
  destruct (a !! i) as [x|]; [|done].
  unfold bind. destruct (f x d) as [x' d1|d1|d1]; try done.
  intros Hrun. destruct (IH _ _ _ _ _ Hrun) as [Hlen Hj].
  rewrite length_insert in Hlen. split; [done|].
  intros j Hout. rewrite Hj by lia. apply list_lookup_insert_ne. lia.
Qed.

(** A classic array whose budget is used up once [k] of its [n] elements
    have been run: the result is what these [k] elements left, the array
    has the declared length, and the elements from [k] on are as
    [makeArray] made them. *)
Lemma decodeArray_stops elem decodeElem v d n d1 (k : nat) a1 dk :
  readInt32 d = Ok n d1 -> 0 <= n -> (k <= Z.to_nat n)%nat ->
  decodeElems decodeElem k 0 (replicate (Z.to_nat n) (zero elem)) d1
    = Ok a1 dk ->
  remain dk <= 0 ->
  decodeArray elem decodeElem v d = Ok (setArray v (Some a1)) dk /\
  length a1 = Z.to_nat n /\
  forall j, (k <= j < Z.to_nat n)%nat -> a1 !! j = Some (zero elem).
Proof.
  intros Hn Hpos Hk Hrun Hz.
  destruct (decodeElems_untouched _ _ _ _ _ _ _ Hrun) as [Hlen Hj].
  rewrite length_replicate in Hlen. split; [|split; [done|]].
  - unfold decodeArray. rewrite (bind_Ok _ _ _ _ _ Hn).
    destruct (Z.ltb_spec n 0); [lia|].
    rewrite (readInt32_range _ _ _ Hn). unfold makeArray.
    destruct (Z.ltb_spec n 0); [lia|]. unfold bind at 1. unfold ret at 1.
    assert (Hloop : decodeElems decodeElem (Z.to_nat n) 0
                      (replicate (Z.to_nat n) (zero elem)) d1 = Ok a1 dk).
    { replace (Z.to_nat n) with (k + (Z.to_nat n - k))%nat at 1 by lia.
      rewrite decodeElems_split, (bind_Ok _ _ _ _ _ Hrun).
      by apply decodeElems_spent. }
    by rewrite (bind_Ok _ _ _ _ _ Hloop).
  - intros j Hjn. rewrite Hj by lia. apply lookup_replicate_2. lia.
Qed.

Lemma supplied_available d :
  0 <= remain d -> supplied d -> available d = Z.to_nat (remain d).
Proof. unfold supplied, available. lia. Qed.

Lemma supplied_consumed k d :
  supplied d -> (k <= available d)%nat -> supplied (consumed k d).
Proof.
  unfold supplied, available, consumed, fill, advance. simpl.
  rewrite length_drop. lia.
Qed.

Lemma remain_drained_0 d : remain d = 0 -> remain (drained d) = 0.
Proof.
  intros Hr. unfold drained. destruct (has_discard (reader d)); [|done].
  unfold src_discard. rewrite Hr. simpl. lia.
Qed.

(** The elements a budget of [r] bytes reaches, at [w] bytes each. *)
Lemma reached_next (r w : nat) :
  (0 < w <= r)%nat -> ((r + w - 1) / w = S ((r - w + w - 1) / w))%nat.
Proof.
  intros Hw. replace (r + w - 1)%nat with ((r - w + w - 1) + 1 * w)%nat by lia.
  rewrite Nat.div_add by lia. lia.
Qed.

Lemma reached_one (r w : nat) :
  (0 < r < w)%nat -> ((r + w - 1) / w = 1)%nat.
Proof.
  intros Hw. replace (r + w - 1)%nat with ((r - 1) + 1 * w)%nat by lia.
  rewrite Nat.div_add by lia. rewrite Nat.div_small by lia. done.
Qed.

(** Elements of a fixed width [w] over a budget of [r] bytes: the loop
    decodes whole elements while the budget lasts, touches no element
    the budget does not reach, and ends with an error exactly when the
    budget ends inside an element. *)
Lemma decodeElems_fixed_width w f :
  fixed_width w f ->
  forall count i a d,
  err d = None -> 0 <= remain d -> supplied d ->
  (i + count <= length a)%nat ->
  exists a' d',
    decodeElems f count i a d = Ok a' d' /\
    length a' = length a /\
    ((count * w <= Z.to_nat (remain d))%nat ->
       err d' = None /\ remain d' = remain d - Z.of_nat (count * w)) /\
    ((Z.to_nat (remain d) < count * w)%nat ->
       remain d' = 0 /\
       (forall j, (i + (Z.to_nat (remain d) + w - 1) / w <= j)%nat ->
                  a' !! j = a !! j) /\
       (Z.to_nat (remain d) mod w = 0 -> err d' = None)%nat /\
       (Z.to_nat (remain d) mod w <> 0 -> err d' = Some ErrUnexpectedEOF)%nat).
Proof.
  intros [Hw Hf]. induction count as [|count IH]; intros i a d He Hr Hs Hlen.
  { exists a, d. simpl. repeat split; try done; lia. }
  simpl. rewrite Z.gtb_ltb. destruct (Z.ltb_spec 0 (remain d)) as [Hpos|Hzero].
  2: { exists a, d. assert (remain d = 0) as Hz by lia. rewrite Hz. simpl.
       split; [done|]. split; [done|]. split; [lia|]. intros _.
       split; [done|]. split; [done|]. split; [done|].
       intros Hm. by rewrite Nat.Div0.mod_0_l in Hm. }
  destruct (lookup_lt_is_Some_2 a i ltac:(lia)) as [x Hx]. rewrite Hx.
  pose proof (supplied_available d Hr Hs) as Hav.
  destruct (Hf x d He Hr) as [Hok Hshort].
  destruct (Nat.le_gt_cases w (available d)) as [Hle|Hgt].
  - (* a whole element is there *)
    destruct (Hok Hle) as [x' Hrun]. rewrite (bind_Ok _ _ _ _ _ Hrun).
    destruct (IH (S i) (<[i:=x']> a) (consumed w d)) as (a' & d' & Hrun' & Hlen' & Hfit & Hcut).
    { done. } { rewrite remain_consumed. lia. } { by apply supplied_consumed. }
    { rewrite length_insert. lia. }
    exists a', d'. split; [done|]. rewrite length_insert in Hlen'. split; [done|].
    rewrite remain_consumed in Hfit, Hcut.
    replace (Z.to_nat (remain d - Z.of_nat w)) with (Z.to_nat (remain d) - w)%nat in * by lia.
    split.
    + intros Hc. destruct Hfit as [He' Hr']; [lia|]. split; [done|]. lia.
    + intros Hc. destruct Hcut as (Hr' & Hj & Hz & Hnz); [lia|]. split; [done|].
      assert (Hmod : ((Z.to_nat (remain d) - w) mod w = Z.to_nat (remain d) mod w)%nat).
      { rewrite <- (Nat.Div0.mod_add (Z.to_nat (remain d) - w) 1 w). f_equal. lia. }
      rewrite Hmod in Hz, Hnz. split; [|done].
      intros j Hjr. rewrite reached_next in Hjr by lia.
      rewrite Hj by lia. apply list_lookup_insert_ne. lia.
  - (* the budget ends inside the element *)
    destruct (Hshort Hgt) as [x' Hrun]. rewrite (bind_Ok _ _ _ _ _ Hrun).
    set (d1 := fail_with _ _).
    assert (Hr1 : remain d1 = 0).
    { unfold d1, fail_with. apply remain_drained_0. simpl. lia. }
    assert (He1 : err d1 = Some ErrUnexpectedEOF).
    { unfold d1. rewrite err_fail_with. f_equal. unfold short_error. simpl.
      destruct (Z.eqb_spec (remain d - Z.of_nat (available d)) 0); [|lia].
      destruct (Nat.ltb_spec 0 (available d)); [done|lia]. }
    rewrite decodeElems_spent by lia.
    exists (<[i:=x']> a), d1. split; [done|]. rewrite length_insert. split; [done|].
    split; [lia|]. intros _. split; [done|]. split.
    + intros j Hjr. rewrite reached_one in Hjr by lia.
      apply list_lookup_insert_ne. lia.
    + rewrite Nat.mod_small by lia. split; [lia|done].
Qed.

Section ArrayBudget.

Variable ReadFrom : nat -> val -> M (val * option error).
Hypothesis ReadFrom_wellbehaved : wellbehaved ReadFrom.

(** A classic array of any element shape: the destination gets an array
    of the declared length, and the decoder stays within the frame. *)
Lemma decodeArray_declared_length elem version tag decodeElem v d n d1 :
  elem <> reflect.Uint8 ->
  decodeFuncOf ReadFrom elem version false tag = Some decodeElem ->
  0 <= remain d -> readInt32 d = Ok n d1 -> 0 <= n ->
  exists a d',
    decodeArray elem decodeElem v d = Ok (VArray (Some a)) d' /\
    length a = Z.to_nat n /\ within d d'.
Proof.
  intros Hne Hf Hr Hn Hpos. unfold decodeArray.
  rewrite (bind_Ok _ _ _ _ _ Hn).
  destruct (Z.ltb_spec n 0); [lia|].
  rewrite (readInt32_range _ _ _ Hn). unfold makeArray.
  destruct (Z.ltb_spec n 0); [lia|]. unfold bind at 1. unfold ret at 1.
  destruct (readInt32_within d Hr) as (n' & d1' & Hn' & Hw).
  rewrite Hn in Hn'. inversion Hn'; subst n' d1'.
  destruct (safe_decodeElems elem decodeElem
              (safe_decodeFuncOf ReadFrom ReadFrom_wellbehaved elem _ _ _ Hf)
              (Z.to_nat n) 0 (replicate (Z.to_nat n) (zero elem)) d1)
    as (a' & d2 & Hrun & Ha' & Hlen & Hw2).
  { apply Forall_replicate, zero_has_type. }
  { rewrite length_replicate. lia. }
  { by eapply within_nonneg. }
  rewrite (bind_Ok _ _ _ _ _ Hrun). exists a', d2. split; [done|].
  rewrite Hlen, length_replicate. split; [done|by eapply within_trans].
Qed.

End ArrayBudget.

(** C2, as amended.  For a classic array with a declared count
    [n >= 0], whatever the shape of its elements.  The element loop
    stops when it finds the budget at zero, and the stop reads nothing
    and sets no error.  The destination receives an array of exactly
    the declared length and the decoder stays within the frame.  When
    the budget is at zero once [k] of the [n] elements have been run,
    the call returns what these [k] elements left, array and decoder,
    and the elements from [k] on keep their zero value.  Whether an
    error is reported is up to the reads of the elements: for elements
    read by one fixed-width read of [w] bytes, over a budget of [r]
    bytes that cannot supply them all, the budget ends at zero, the
    elements from position [(r + w - 1) / w] on keep their zero value,
    and there is no error when [r] is a multiple of [w], and the
    unexpected-end-of-input error when it is not, the budget ending
    inside an element. *)
Theorem classic_array_over_short_budget
    (ReadFrom : nat -> val -> M (val * option error))
    elem version tag decodeElem v d n d1 :
  wellbehaved ReadFrom ->
  elem <> reflect.Uint8 ->
  decodeFuncOf ReadFrom elem version false tag = Some decodeElem ->
  0 <= remain d -> readInt32 d = Ok n d1 -> 0 <= n ->
  (forall count i a d0,
     remain d0 <= 0 -> decodeElems decodeElem count i a d0 = Ok a d0) /\
  (exists a d',
     decodeArray elem decodeElem v d = Ok (VArray (Some a)) d' /\
     length a = Z.to_nat n /\ within d d') /\
  (forall (k : nat) a1 dk,
     (k <= Z.to_nat n)%nat ->
     decodeElems decodeElem k 0 (replicate (Z.to_nat n) (zero elem)) d1
       = Ok a1 dk ->
     remain dk <= 0 ->
     decodeArray elem decodeElem v d = Ok (VArray (Some a1)) dk /\
     length a1 = Z.to_nat n /\
     forall j, (k <= j < Z.to_nat n)%nat -> a1 !! j = Some (zero elem)) /\
  (forall w,
     fixed_width w decodeElem -> err d1 = None -> supplied d1 ->
     (Z.to_nat (remain d1) < Z.to_nat n * w)%nat ->
     exists a d',
       decodeArray elem decodeElem v d = Ok (VArray (Some a)) d' /\
       length a = Z.to_nat n /\ remain d' = 0 /\
       (forall j, ((Z.to_nat (remain d1) + w - 1) / w <= j < Z.to_nat n)%nat ->
                  a !! j = Some (zero elem)) /\
       ((Z.to_nat (remain d1) mod w = 0)%nat -> err d' = None) /\
       ((Z.to_nat (remain d1) mod w <> 0)%nat -> err d' = Some ErrUnexpectedEOF)).
Proof.
  intros HR Hne Hf Hr Hn Hpos. split; [|split; [|split]].
  - intros count i a d0. apply decodeElems_spent.
  - by eapply decodeArray_declared_length.
  - intros k a1 dk Hk Hrun Hz. by eapply decodeArray_stops.
  - intros w Hw He1 Hs Hshort.
    destruct (readInt32_within d Hr) as (n' & d1' & Hn' & Hw1).
    rewrite Hn in Hn'. inversion Hn'; subst n' d1'.
    destruct (decodeElems_fixed_width w decodeElem Hw (Z.to_nat n) 0
                (replicate (Z.to_nat n) (zero elem)) d1 He1
                (within_nonneg _ _ Hw1) Hs)
      as (a' & d' & Hrun & Hlen & _ & Hcut).
    { rewrite length_replicate. lia. }
    destruct (Hcut Hshort) as (Hr' & Hj & Hz & Hnz).
    exists a', d'. unfold decodeArray. rewrite (bind_Ok _ _ _ _ _ Hn).
    destruct (Z.ltb_spec n 0); [lia|].
    rewrite (readInt32_range _ _ _ Hn). unfold makeArray.
    destruct (Z.ltb_spec n 0); [lia|]. unfold bind at 1. unfold ret at 1.
    rewrite (bind_Ok _ _ _ _ _ Hrun). rewrite Hlen, length_replicate.
    split; [done|]. split; [done|]. split; [done|]. split; [|done].
    intros j Hjn. rewrite Hj by (simpl; lia). apply lookup_replicate_2. lia.
Qed.

Lemma classic_array_over_short_budget_witness :
  let d := bound (bytesReader
                    (bytes_of [0; 0; 3; 232; 0; 0; 0; 1; 0; 0; 0; 2; 0; 0])) 14 in
  (0 <= remain d /\ readInt32 d = Ok 1000 (consumed 4 d) /\ 0 <= 1000) /\
  exists a d',
    decodeArray reflect.Int32 decodeInt32 (VArray None) d
      = Ok (VArray (Some a)) d' /\
    length a = 1000%nat /\ remain d' = 0 /\
    (forall j, (3 <= j < 1000)%nat -> a !! j = Some (VInt32 0)) /\
    err d' = Some ErrUnexpectedEOF.
Proof.
  intros d.
  assert (Hr : 0 <= remain d) by (vm_compute; discriminate).
  assert (Hn : readInt32 d = Ok 1000 (consumed 4 d)) by (vm_compute; reflexivity).
  assert (Hp : 0 <= 1000) by lia.
  split; [done|].
  destruct (proj2 (proj2 (proj2
              (classic_array_over_short_budget noReadFrom reflect.Int32 0
                 rootTag decodeInt32 (VArray None) d 1000 (consumed 4 d)
                 noReadFrom_wellbehaved ltac:(discriminate) eq_refl Hr Hn Hp)))
              4%nat fixed_width_decodeInt32 eq_refl
              ltac:(vm_compute; lia) ltac:(vm_compute; lia))
    as (a & d' & Hrun & Hlen & Hz & Hj & _ & He).
  exists a, d'. split; [exact Hrun|]. split; [exact Hlen|]. split; [exact Hz|].
  split; [exact Hj|]. apply He. vm_compute. discriminate.
Defined.

(** C2, as stated, fails: an array of [int32] with a declared count of
    1000 and 10 bytes left decodes two elements, reads the two bytes
    that are left, and ends with the unexpected-end-of-input error;
    the array it produces has 1000 elements. *)
Lemma classic_array_cut_inside_an_element :
  let d := bound (bytesReader
                    (bytes_of [0; 0; 3; 232; 0; 0; 0; 1; 0; 0; 0; 2; 0; 0])) 14 in
  exists a d',
    decodeArray reflect.Int32 decodeInt32 (VArray None) d
      = Ok (VArray (Some a)) d' /\
    readInt32 d = Ok 1000 (consumed 4 d) /\
    remain (consumed 4 d) = 10 /\
    err d' = Some ErrUnexpectedEOF /\
    length a = 1000%nat /\
    take 3 a = [VInt32 1; VInt32 2; VInt32 0].
Proof. intros d. eexists _, _. vm_compute. repeat split. Qed.

(** ** Fields outside the requested version *)

Lemma forEachStructTag_None version tags :
  Forall (fun tag => applies version tag = false) tags ->
  forEachStructTag version tags = None.
Proof.
  unfold forEachStructTag. induction 1 as [|tag tags Htag _ IH]; simpl; [done|].
  by rewrite Htag.
Qed.

Lemma bind_Ok_inv {A B} (m : M A) (k : A -> M B) d b d' :
  bind m k d = Ok b d' -> exists a d1, m d = Ok a d1 /\ k a d1 = Ok b d'.
Proof. unfold bind. destruct (m d) as [a d1|d1|d1]; try done. eauto. Qed.

Lemma preserves_field_decodeField i g :
  index g <> i -> preserves_field i (decodeField g).
Proof.
  intros Hne vs d v' d'. unfold decodeField.
  destruct (vs !! index g) as [x|]; [|done].
  intros (x' & d1 & _ & [= <- <-])%bind_Ok_inv.
  eexists. split; [done|]. by apply list_lookup_insert_ne.
Qed.

Lemma preserves_field_decodeFields i fields :
  Forall (fun g => index g <> i) fields -> preserves_field i (decodeFields fields).
Proof.
  induction 1 as [|g fields Hg _ IH]; intros vs d v' d'; simpl.
  { intros [= <- <-]. eauto. }
  intros (v1 & d1 & H1 & H2)%bind_Ok_inv.
  destruct (preserves_field_decodeField i g Hg _ _ _ _ H1) as (vs1 & -> & Hvs1).
  destruct (IH _ _ _ _ H2) as (vs2 & -> & Hvs2).
  eexists. split; [done|]. congruence.
Qed.

Lemma preserves_field_decodeTaggedFields i taggedFields n :
  map_Forall (fun _ g => index g <> i) taggedFields ->
  preserves_field i (decodeTaggedFields taggedFields n).
Proof.
  intros Ht. induction n as [|n IH]; intros vs d v' d'; simpl.
  { intros [= <- <-]. eauto. }
  intros (v1 & d1 & H1 & H2)%bind_Ok_inv.
  assert (exists vs1, v1 = VStruct vs1 /\ vs1 !! i = vs !! i) as (vs1 & -> & Hvs1).
  { unfold decodeTaggedField in H1.
    apply bind_Ok_inv in H1 as (t & dt & _ & H1).
    apply bind_Ok_inv in H1 as (s & ds & _ & H1).
    destruct (taggedFields !! Int.int t) as [g|] eqn:Hg.
    - eapply preserves_field_decodeField; [|apply H1]. by eapply Ht.
    - apply bind_Ok_inv in H1 as (b & db & _ & [= <- <-]). eauto. }
  destruct (IH _ _ _ _ H2) as (vs2 & -> & Hvs2).
  eexists. split; [done|]. congruence.
Qed.

Lemma preserves_field_structDecode i fields taggedFields flexible :
  Forall (fun g => index g <> i) fields ->
  map_Forall (fun _ g => index g <> i) taggedFields ->
  preserves_field i (structDecode fields taggedFields flexible).
Proof.
  intros Hf Ht vs d v' d'. unfold structDecode.
  intros (v1 & d1 & H1 & H2)%bind_Ok_inv.
  destruct (preserves_field_decodeFields i fields Hf _ _ _ _ H1) as (vs1 & -> & Hvs1).
  destruct flexible.
  - apply bind_Ok_inv in H2 as (n & dn & _ & H2).
    destruct (preserves_field_decodeTaggedFields i _ _ Ht _ _ _ _ H2) as (vs2 & -> & Hvs2).
    eexists. split; [done|]. congruence.
  - inversion H2; subst. eauto.
Qed.

Section Versions.

Variable ReadFrom : nat -> val -> M (val * option error).

Lemma collectFields_excluded version flexible t' tags :
  forEachStructTag version tags = None ->
  forall fs i t i0 acc,
  fs !! i = Some (t, tags) ->
  collectFields ReadFrom version flexible (<[i:=(t', tags)]> fs) i0 acc =
  collectFields ReadFrom version flexible fs i0 acc.
Proof.
  intros Hnone. induction fs as [|f fs IH]; intros i t i0 acc Hi; [done|].
  destruct i as [|i]; simpl in *.
  - inversion Hi; subst. simpl. by rewrite Hnone.
  - destruct (forEachStructTag version f.2); [|by eapply IH].
    destruct (decodeFuncOf ReadFrom f.1 version flexible s); [by eapply IH|done].
Qed.

(** C7. A field none of whose version ranges holds the requested
    version is left out of the compiled plan: no compiled field, ordinary
    or tagged, addresses it; the plan is the same whatever the type of
    that field is, so that no byte is consumed for it; and a decode
    leaves that field of the destination as it was, at its zero value
    when the destination started out zero.  In particular
    [{A: int32 @0+, B: string @1+}] decoded at version 0 from the four
    bytes of [A] returns no error and leaves [B] empty. *)
Theorem excluded_field_is_omitted fs version flexible i t tags f :
  fs !! i = Some (t, tags) ->
  Forall (fun tag => applies version tag = false) tags ->
  structDecodeFuncOf ReadFrom fs version flexible = Some f ->
  (exists fields taggedFields,
     collectFields ReadFrom version flexible fs O ([], ∅)
       = Some (fields, taggedFields) /\
     f = structDecode fields taggedFields flexible /\
     Forall (fun g => index g <> i) fields /\
     map_Forall (fun _ g => index g <> i) taggedFields) /\
  (forall t', structDecodeFuncOf ReadFrom (<[i:=(t', tags)]> fs) version flexible
              = Some f) /\
  preserves_field i f /\
  (Unmarshal noReadFrom initial (bytes_of [0; 0; 0; 7]) 0 scenarioA
     (zero scenarioA)).2
    = Returned None (VStruct [VInt32 7; VString []]).
Proof.
  intros Hi Htags Hf.
  pose proof (forEachStructTag_None _ _ Htags) as Hnone.
  unfold structDecodeFuncOf in Hf.
  destruct (collectFields _ _ _ fs _ _) as [[fields taggedFields]|] eqn:Hc; [|done].
  simpl in Hf. inversion Hf as [Hf']. clear Hf.
  destruct (collectFields_invariant ReadFrom (fun g => index g <> i)
              version flexible fs O ([], ∅) _ Hc) as [H1 H2]; [done|done| |].
  { intros g (j & tj & tagsj & tg & Hj & Hidx & Htg & _) Heq. simpl in Hidx.
    assert (j = i) as -> by lia. rewrite Hi in Hj. inversion Hj; subst.
    by rewrite Hnone in Htg. }
  simpl in H1, H2. repeat split.
  - by exists fields, taggedFields.
  - intros t'. unfold structDecodeFuncOf.
    by rewrite (collectFields_excluded _ _ t' tags Hnone fs i t), Hc.
  - by apply preserves_field_structDecode.
Qed.

End Versions.

Lemma excluded_field_is_omitted_witness :
  let fs := [(reflect.Int32, [ordinary 0 maxVersion]);
             (reflect.String, [ordinary 1 maxVersion])] in
  (fs !! 1%nat = Some (reflect.String, [ordinary 1 maxVersion]) /\
   Forall (fun tag => applies 0 tag = false) [ordinary 1 maxVersion] /\
   structDecodeFuncOf noReadFrom fs 0 false
     = Some (structDecode [{| decode := decodeInt32; index := 0; tagID := -2 |}]
                          ∅ false)) /\
  preserves_field 1
    (structDecode [{| decode := decodeInt32; index := 0; tagID := -2 |}] ∅ false).
Proof.
  intros fs.
  assert (H1 : fs !! 1%nat = Some (reflect.String, [ordinary 1 maxVersion]))
    by reflexivity.
  assert (H2 : Forall (fun tag => applies 0 tag = false) [ordinary 1 maxVersion])
    by (repeat constructor).
  assert (H3 : structDecodeFuncOf noReadFrom fs 0 false
     = Some (structDecode [{| decode := decodeInt32; index := 0; tagID := -2 |}]
                          ∅ false)) by reflexivity.
  split; [done|].
  exact (proj1 (proj2 (proj2
    (excluded_field_is_omitted noReadFrom fs 0 false 1 _ _ _ H1 H2 H3)))).
Defined.

(** ** The tag section of flexible structs *)

Section Tagged.

Variable ReadFrom : nat -> val -> M (val * option error).

(** Where the compiler puts a field: ordinary fields, whose tag id is
    below [-1], in the list; the others in the map, under their id. *)
Lemma collectFields_partition (Q : Z -> field -> Prop) version flexible fs :
  forall i acc acc',
  collectFields ReadFrom version flexible fs i acc = Some acc' ->
  Forall (fun g => tagID g < -1) acc.1 ->
  (forall id g, acc.2 !! id = Some g -> Q id g) ->
  (forall g, compiled_from ReadFrom version flexible fs i g ->
             ~ tagID g < -1 -> Q (tagID g) g) ->
  Forall (fun g => tagID g < -1) acc'.1 /\
  (forall id g, acc'.2 !! id = Some g -> Q id g).
Proof.
  induction fs as [|[t tags] fs IH]; intros i acc acc' Hc H1 H2 HQ; simpl in Hc.
  { by inversion Hc; subst. }
  assert (Hrest : forall g, compiled_from ReadFrom version flexible fs (S i) g ->
                            ~ tagID g < -1 -> Q (tagID g) g).
  { intros g (j & t' & tags' & tg & Hj & Hi & Ht & Hd & Hid). apply HQ.
    exists (S j), t', tags', tg. repeat split; try done. lia. }
  destruct (forEachStructTag version tags) as [tg|] eqn:Etag; [|by eapply IH].
  destruct (decodeFuncOf ReadFrom t version flexible tg) as [dec|] eqn:Edec; [|done].
  eapply IH; [apply Hc| | |done]; unfold register; simpl;
    destruct (Z.ltb_spec (TagID tg) (-1)); simpl; try done.
  - apply Forall_app. split; [done|]. by repeat constructor.
  - intros id g. destruct (decide (TagID tg = id)) as [<-|Hne].
    + rewrite lookup_insert_eq. intros [= <-].
      apply (HQ {| decode := dec; index := i; tagID := TagID tg |}); simpl; [|lia].
      exists O, t, tags, tg. repeat split; try done; simpl; lia.
    + rewrite lookup_insert_ne by done. apply H2.
Qed.

Lemma decodeTaggedField_known taggedFields v d t dt s ds g :
  readUnsignedVarInt d = Ok t dt -> readUnsignedVarInt dt = Ok s ds ->
  taggedFields !! Int.int t = Some g ->
  decodeTaggedField taggedFields v d = decodeField g v ds.
Proof.
  intros Ht Hs Hg. unfold decodeTaggedField.
  rewrite (bind_Ok _ _ _ _ _ Ht), (bind_Ok _ _ _ _ _ Hs). by rewrite Hg.
Qed.

Lemma decodeTaggedField_unknown taggedFields v d t dt s ds :
  readUnsignedVarInt d = Ok t dt -> readUnsignedVarInt dt = Ok s ds ->
  taggedFields !! Int.int t = None ->
  err ds = None -> 0 <= remain ds -> 0 <= Int.int s ->
  (Z.to_nat (Int.int s) <= available ds)%nat ->
  decodeTaggedField taggedFields v d = Ok v (advance (Z.to_nat (Int.int s)) ds).
Proof.
  intros Ht Hs Hg He Hr Hpos Ha. unfold decodeTaggedField.
  rewrite (bind_Ok _ _ _ _ _ Ht), (bind_Ok _ _ _ _ _ Hs). rewrite Hg.
  by rewrite (bind_Ok _ _ _ _ _ (read_ok _ _ He Hr Hpos Ha)).
Qed.

(** C6. The routine of a flexible struct is: the ordinary fields in
    order, then an unsigned-varint count [n] and [n] entries.  An entry
    reads the tag id and the payload length as unsigned varints.  The
    registered extension fields are exactly the compiled fields whose
    tag id is not below [-1], each under its id; an entry with such an
    id is decoded by that field's routine into that field.  An entry
    with any other id, whose payload is there, has exactly
    payload-length bytes consumed: the destination is untouched and no
    error is set.  In particular, a struct with the extension field 5
    decoded from a frame that carries only the unknown tag 9 with a
    payload of three bytes succeeds, keeps the default of field 5 and
    ends right behind the payload. *)
Theorem flexible_struct_tag_section fs version f :
  structDecodeFuncOf ReadFrom fs version true = Some f ->
  exists fields taggedFields,
    f = structDecode fields taggedFields true /\
    Forall (fun g => tagID g < -1) fields /\
    (forall id g, taggedFields !! id = Some g ->
       tagID g = id /\ ~ id < -1 /\
       compiled_from ReadFrom version true fs O g) /\
    (forall v d v1 d1 n d2,
       decodeFields fields v d = Ok v1 d1 ->
       readUnsignedVarInt d1 = Ok n d2 ->
       f v d = decodeTaggedFields taggedFields (Z.to_nat (Int.int n)) v1 d2) /\
    (forall n v d,
       decodeTaggedFields taggedFields (S n) v d =
       (let* v' := decodeTaggedField taggedFields v in
        decodeTaggedFields taggedFields n v') d) /\
    (forall v d t dt s ds g,
       readUnsignedVarInt d = Ok t dt -> readUnsignedVarInt dt = Ok s ds ->
       taggedFields !! Int.int t = Some g ->
       decodeTaggedField taggedFields v d = decodeField g v ds) /\
    (forall v d t dt s ds,
       readUnsignedVarInt d = Ok t dt -> readUnsignedVarInt dt = Ok s ds ->
       taggedFields !! Int.int t = None ->
       err ds = None -> 0 <= remain ds -> 0 <= Int.int s ->
       (Z.to_nat (Int.int s) <= available ds)%nat ->
       decodeTaggedField taggedFields v d
         = Ok v (advance (Z.to_nat (Int.int s)) ds)) /\
    observe (default (fun _ => panic) (structDecodeFuncOf noReadFrom scenarioB 0 true)
               (VStruct [VInt8 0; VInt16 0])
               (bound (bytesReader (bytes_of [7; 1; 9; 3; 1; 2; 3; 99])) 8))
      = (Some (VStruct [VInt8 7; VInt16 0]), [99], 1, None).
Proof.
  intros Hf. unfold structDecodeFuncOf in Hf.
  destruct (collectFields _ _ _ fs _ _) as [[fields taggedFields]|] eqn:Hc; [|done].
  simpl in Hf. inversion Hf as [Hf']. clear Hf.
  exists fields, taggedFields.
  destruct (collectFields_partition
              (fun id g => tagID g = id /\ ~ id < -1 /\
                           compiled_from ReadFrom version true fs O g)
              version true fs O ([], ∅) _ Hc) as [H1 H2]; [done|done|done|].
  simpl in H1, H2. split; [done|]. split; [done|]. split; [done|].
  split; [|split; [done|split; [|split; [|reflexivity]]]].
  - intros v d v1 d1 n d2 Hfields Hn. unfold structDecode.
    by rewrite (bind_Ok _ _ _ _ _ Hfields), (bind_Ok _ _ _ _ _ Hn).
  - intros. by eapply decodeTaggedField_known.
  - intros. by eapply decodeTaggedField_unknown.
Qed.

End Tagged.

Lemma flexible_struct_tag_section_witness :
  let f := structDecode [{| decode := decodeInt8; index := 0; tagID := -2 |}]
             {[ 5 := {| decode := decodeInt16; index := 1; tagID := 5 |} ]} true in
  structDecodeFuncOf noReadFrom scenarioB 0 true = Some f /\
  exists fields taggedFields,
    f = structDecode fields taggedFields true /\
    Forall (fun g => tagID g < -1) fields.
Proof.
  intros f.
  assert (Hf : structDecodeFuncOf noReadFrom scenarioB 0 true = Some f) by reflexivity.
  split; [done|].
  destruct (flexible_struct_tag_section noReadFrom scenarioB 0 f Hf)
    as (fields & taggedFields & H1 & H2 & _).
  by exists fields, taggedFields.
Defined.

(** ** [Unmarshal] decodes the classic encoding *)

Lemma same_decodeElems f g :
  same f g -> forall count i a d,
  decodeElems f count i a d = decodeElems g count i a d.
Proof.
  intros Hfg. induction count as [|count IH]; intros i a d; simpl; [done|].
  destruct (remain d >? 0); [|done]. destruct (a !! i) as [x|]; [|done].
  unfold bind. rewrite Hfg. destruct (g x d); [apply IH|done|done].
Qed.

Lemma same_decodeArray elem f g :
  same f g -> same (decodeArray elem f) (decodeArray elem g).
Proof.
  intros Hfg v d. unfold decodeArray, bind.
  destruct (readInt32 d) as [n d1|d1|d1]; try done.
  destruct (n <? 0); [done|].
  destruct (makeArray elem (Int.int n) d1) as [a d2|d2|d2]; try done.
  by rewrite (same_decodeElems f g Hfg).
Qed.

Lemma same_decodeField f g : same_field f g -> same (decodeField f) (decodeField g).
Proof.
  intros [Hi Hd] v d. unfold decodeField. rewrite Hi.
  destruct v; try done. destruct (fields !! index g); [|done].
  unfold bind. by rewrite Hd.
Qed.

Lemma same_decodeFields fs gs :
  Forall2 same_field fs gs -> same (decodeFields fs) (decodeFields gs).
Proof.
  induction 1 as [|f g fs gs Hfg _ IH]; intros v d; simpl; [done|].
  unfold bind. rewrite (same_decodeField f g Hfg).
  destruct (decodeField g v d); [apply IH|done|done].
Qed.

Lemma same_structDecode_classic fs gs taggedFields :
  Forall2 same_field fs gs ->
  same (structDecode fs taggedFields false) (classicStruct gs).
Proof.
  intros H v d. unfold structDecode, classicStruct, bind.
  rewrite (same_decodeFields fs gs H). by destruct (decodeFields gs v d).
Qed.

Section ClassicRefinement.

Variable ReadFrom : nat -> val -> M (val * option error).

Lemma classicFuncOf_Struct fs version tag :
  classicFuncOf ReadFrom (reflect.Struct fs) version tag =
  match classicFields ReadFrom version fs O [] with
  | None => None
  | Some fields => Some (classicStruct fields)
  end.
Proof.
  simpl. generalize (@nil field) as acc. generalize O as i.
  induction fs as [|f fs IH]; intros i acc; simpl; [done|].
  destruct (forEachStructTag version f.2) as [tg|]; [|apply IH].
  destruct (classicFuncOf ReadFrom f.1 version tg); [apply IH|done].
Qed.

(** The two field loops agree when the two compilers agree on the
    types of the fields. *)
Lemma collectFields_classic version fs :
  Forall (fun f => forall tag,
            same_plan (decodeFuncOf ReadFrom f.1 version false tag)
                      (classicFuncOf ReadFrom f.1 version tag)) fs ->
  forall i acc accC,
  Forall2 same_field acc.1 accC ->
  match collectFields ReadFrom version false fs i acc,
        classicFields ReadFrom version fs i accC with
  | Some acc', Some accC' => Forall2 same_field acc'.1 accC'
  | None, None => True
  | _, _ => False
  end.
Proof.
  induction 1 as [|[t tags] fs Hf _ IH]; intros i acc accC Hacc; simpl; [done|].
  destruct (forEachStructTag version tags) as [tg|]; [|by apply IH].
  specialize (Hf tg). simpl in Hf. unfold same_plan in Hf.
  destruct (decodeFuncOf ReadFrom t version false tg) as [dec|],
           (classicFuncOf ReadFrom t version tg) as [decC|]; try done.
  apply IH. unfold register, keepOrdinary. simpl.
  destruct (TagID tg <? -1); simpl; [|done].
  apply Forall2_app; [done|]. by repeat constructor.
Qed.

(** Compiling with [flexible = false] is compiling for the classic
    encoding, at every nesting depth. *)
Lemma decodeFuncOf_classic typ : forall version tag,
  same_plan (decodeFuncOf ReadFrom typ version false tag)
            (classicFuncOf ReadFrom typ version tag).
Proof.
  induction typ as [| | | | | | |fs IH|elem IH|name|] using type_induction;
    intros version tag; try done.
  - rewrite decodeFuncOf_Struct, classicFuncOf_Struct. unfold structDecodeFuncOf.
    assert (Hfs : Forall (fun f => forall tag,
              same_plan (decodeFuncOf ReadFrom f.1 version false tag)
                        (classicFuncOf ReadFrom f.1 version tag)) fs).
    { eapply Forall_impl; [apply IH|]. intros f Hf tag'. apply Hf. }
    pose proof (collectFields_classic version fs Hfs
                  O ([], ∅) [] ltac:(constructor)) as H.
    destruct (collectFields _ _ _ _ _ _) as [acc|],
             (classicFields _ _ _ _ _) as [accC|]; try done.
    by apply same_structDecode_classic.
  - destruct (Uint8_or_not elem) as [->|Hne]; [done|].
    rewrite decodeFuncOf_Slice by done. unfold arrayDecodeFuncOf.
    replace (classicFuncOf ReadFrom (reflect.Slice elem) version tag)
      with (match classicFuncOf ReadFrom elem version tag with
            | None => None
            | Some elemFunc => Some (decodeArray elem elemFunc)
            end) by by destruct elem.
    specialize (IH version tag). unfold same_plan in IH.
    destruct (decodeFuncOf ReadFrom elem version false tag) as [f|],
             (classicFuncOf ReadFrom elem version tag) as [g|]; try done.
    by apply same_decodeArray.
Qed.

End ClassicRefinement.

(** The cache tells its keys apart by their type and version. *)
Lemma type_eqb_eq a : forall b, type_eqb a b = true -> a = b.
Proof.
  induction a as [| | | | | | |fs IH|elem IH|name|] using type_induction;
    intros [| | | | | | |gs|elem'|name'|]; simpl; try done.
  - intros H. f_equal. revert gs H.
    induction IH as [|[t tags] fs Hf _ IHfs]; intros [|[t' tags'] gs]; try done.
    simpl. intros H. apply andb_prop in H as [H Hrest].
    apply andb_prop in H as [Ht Htags].
    simpl in Hf. apply Hf in Ht. apply bool_decide_eq_true in Htags.
    subst t' tags'. by rewrite (IHfs gs Hrest).
  - intros H. f_equal. by apply IH.
  - intros H. f_equal. by apply Nat.eqb_eq.
Qed.

Lemma versionedType_eqb_eq a b : versionedType_eqb a b = true -> a = b.
Proof.
  destruct a as [ta va], b as [tb vb]. unfold versionedType_eqb. simpl.
  intros [Ht Hv]%andb_prop. apply type_eqb_eq in Ht as ->.
  apply Z.eqb_eq in Hv as ->. done.
Qed.

Lemma type_eqb_refl a : type_eqb a a = true.
Proof.
  induction a as [| | | | | | |fs IH|elem IH|name|] using type_induction;
    simpl; try done.
  - induction IH as [|[t tags] fs Hf _ IHfs]; [done|].
    simpl in *. rewrite Hf, IHfs. unfold tags_eqb.
    by rewrite bool_decide_eq_true_2.
  - apply Nat.eqb_refl.
Qed.

Lemma versionedType_eqb_refl k : versionedType_eqb k k = true.
Proof. unfold versionedType_eqb. by rewrite type_eqb_refl, Z.eqb_refl. Qed.

Section UnmarshalClassic.

Variable ReadFrom : nat -> val -> M (val * option error).

Lemma cache_classic_empty : cache_classic ReadFrom emptyCache.
Proof. by intros key f. Qed.

Lemma cache_classic_publish cache key decode :
  cache_classic ReadFrom cache ->
  decodeFuncOf ReadFrom (typ key) (version key) false rootTag = Some decode ->
  cache_classic ReadFrom (publish cache key decode).
Proof.
  intros Hc Hd k f. unfold publish.
  destruct (cache k) as [f'|] eqn:Hk.
  - intros [= <-]. by apply Hc.
  - destruct (versionedType_eqb k key) eqn:Heq; [|done].
    intros [= <-]. by apply versionedType_eqb_eq in Heq as ->.
Qed.

Lemma resolve_classic cache key decode cache' :
  cache_classic ReadFrom cache ->
  resolve ReadFrom cache key = Some (decode, cache') ->
  decodeFuncOf ReadFrom (typ key) (version key) false rootTag = Some decode /\
  cache_classic ReadFrom cache'.
Proof.
  intros Hc. unfold resolve. destruct (cache key) as [f|] eqn:Hk.
  - intros [= <- <-]. split; [by apply Hc|done].
  - destruct (decodeFuncOf _ _ _ _ _) as [f|] eqn:Hf; [|done].
    intros [= <- <-]. split; [done|]. by apply cache_classic_publish.
Qed.

Lemma resolve_None cache key :
  cache_classic ReadFrom cache ->
  resolve ReadFrom cache key = None ->
  decodeFuncOf ReadFrom (typ key) (version key) false rootTag = None.
Proof.
  intros Hc. unfold resolve. destruct (cache key) as [f|] eqn:Hk; [done|].
  by destruct (decodeFuncOf _ _ _ _ _).
Qed.

(** The cache after a call: the plan of the call under its key, and
    under every other key what was there before. *)
Lemma resolve_publishes cache key decode cache' :
  resolve ReadFrom cache key = Some (decode, cache') ->
  cache' key = Some decode /\
  (forall k, k <> key -> cache' k = cache k).
Proof.
  unfold resolve. destruct (cache key) as [f|] eqn:Hk.
  - by intros [= <- <-].
  - destruct (decodeFuncOf _ _ _ _ _) as [f|] eqn:Hf; [|done].
    intros [= <- <-]. unfold publish. split.
    + by rewrite Hk, versionedType_eqb_refl.
    + intros k Hne. destruct (cache k); [done|].
      destruct (versionedType_eqb k key) eqn:Heq; [|done].
      by apply versionedType_eqb_eq in Heq.
Qed.

(** C10. [Unmarshal] resolves its plan under the key made of the type
    and the version alone, and a plan it compiles is compiled with the
    flexible flag [false]; so every plan in the cache, the empty cache
    of a fresh process to begin with, is such a plan, before and after
    any call.  The call caches its plan: when the compiler accepts the
    type, the cache it leaves holds, under the key of the type and the
    version, the plan compiled with [flexible = false], and under every
    other key what it held before.  What a call returns is therefore
    what the compiler for the classic encoding, which has
    length-prefixed strings, byte sequences and arrays and no tag
    section at any depth, makes of the input: the call panics when that
    compiler rejects the type, and reports the run of its routine
    otherwise. *)
Theorem Unmarshal_decodes_classic g data version typ value :
  cache_classic ReadFrom (unmarshalers g) ->
  cache_classic ReadFrom (unmarshalers initial) /\
  cache_classic ReadFrom
    (unmarshalers (Unmarshal ReadFrom g data version typ value).1) /\
  (forall decode cache,
     resolve ReadFrom (unmarshalers g) {| typ := typ; version := version |}
       = Some (decode, cache) ->
     decodeFuncOf ReadFrom typ version false rootTag = Some decode) /\
  (forall decode,
     decodeFuncOf ReadFrom typ version false rootTag = Some decode ->
     unmarshalers (Unmarshal ReadFrom g data version typ value).1
       {| typ := typ; version := version |} = Some decode) /\
  (forall key,
     key <> {| typ := typ; version := version |} ->
     unmarshalers (Unmarshal ReadFrom g data version typ value).1 key
       = unmarshalers g key) /\
  (Unmarshal ReadFrom g data version typ value).2 =
    match classicFuncOf ReadFrom typ version rootTag with
    | None => Panicked
    | Some classic => report (classic value (checkout g data))
    end.
Proof.
  intros Hc. split; [apply cache_classic_empty|].
  pose proof (decodeFuncOf_classic ReadFrom typ version rootTag) as Hsame.
  unfold Unmarshal.
  destruct (resolve _ _ _) as [[decode cache]|] eqn:Hres.
  - destruct (resolve_classic _ _ _ _ Hc Hres) as [Hd Hc']. simpl in Hd.
    destruct (resolve_publishes _ _ _ _ Hres) as [Hkey Hother].
    split; [done|]. split; [by intros ? ? [= <- <-]|].
    split; [intros decode' Hd'; simpl; congruence|].
    split; [done|]. simpl.
    rewrite Hd in Hsame. unfold same_plan in Hsame.
    destruct (classicFuncOf _ _ _ _) as [classic|]; [|done].
    by rewrite Hsame.
  - pose proof (resolve_None _ _ Hc Hres) as Hd. simpl in Hd.
    split; [done|]. split; [done|].
    split; [intros decode' Hd'; congruence|].
    split; [done|]. simpl.
    rewrite Hd in Hsame. unfold same_plan in Hsame.
    by destruct (classicFuncOf _ _ _ _).
Qed.

End UnmarshalClassic.

Lemma Unmarshal_decodes_classic_witness :
  let data := bytes_of [0; 0; 0; 7; 0; 1; 65] in
  cache_classic noReadFrom (unmarshalers initial) /\
  unmarshalers (Unmarshal noReadFrom initial data 1 scenarioA (zero scenarioA)).1
    {| typ := scenarioA; version := 1 |}
    = decodeFuncOf noReadFrom scenarioA 1 false rootTag /\
  (Unmarshal noReadFrom initial data 1 scenarioA (zero scenarioA)).2 =
    match classicFuncOf noReadFrom scenarioA 1 rootTag with
    | None => Panicked
    | Some classic =>
        report (classic (zero scenarioA) (checkout initial data))
    end.
Proof.
  intros data.
  assert (Hc : cache_classic noReadFrom (unmarshalers initial))
    by (intros key f; discriminate).
  destruct (Unmarshal_decodes_classic noReadFrom initial data 1 scenarioA
              (zero scenarioA) Hc) as (_ & _ & _ & Hkey & _ & Hrun).
  split; [exact Hc|]. split; [|exact Hrun].
  exact (Hkey _ eq_refl).
Defined.

(** ** Truncated frames *)

Lemma clean_available d : clean d -> available d = Z.to_nat (remain d).
Proof. intros (_ & Hr & Hs). by apply supplied_available. Qed.

Lemma spent_is_failed d : spent d -> exists e, err d = Some e.
Proof. intros [[He|He] _]; eauto. Qed.

Lemma spent_fail_with d :
  0 <= remain d -> available d = Z.to_nat (remain d) ->
  spent (fail_with (short_error (advance (available d) d) (available d))
                   (consumed (available d) d)) /\
  spent (fail_with (short_error (advance (available d) d) (available d))
                   (advance (available d) d)).
Proof.
  intros Hr Hav.
  assert (He : short_error (advance (available d) d) (available d) = EOF \/
               short_error (advance (available d) d) (available d) = ErrUnexpectedEOF).
  { unfold short_error. simpl.
    destruct (Z.eqb_spec (remain d - Z.of_nat (available d)) 0); [|lia].
    destruct (0 <? available d)%nat; simpl; auto. }
  split; (split; [rewrite err_fail_with; destruct He as [->| ->]; auto|]);
    unfold fail_with; apply remain_drained_0; simpl; lia.
Qed.

Lemma readFull_cut k d :
  clean d -> remain d < Z.of_nat k ->
  exists d', readFull k d = Ok false d' /\ spent d'.
Proof.
  intros Hc Hr. pose proof (clean_available d Hc) as Hav.
  destruct Hc as (He & Hr0 & Hs).
  eexists. split; [apply readFull_short; [done|done|lia]|].
  by apply spent_fail_with.
Qed.

Lemma read_cut n d :
  clean d -> remain d < n ->
  exists b d', read n d = Ok b d' /\ spent d'.
Proof.
  intros Hc Hr. pose proof (clean_available d Hc) as Hav.
  destruct Hc as (He & Hr0 & Hs).
  eexists _, _. split; [apply read_short; [done|done|lia|lia]|].
  by apply spent_fail_with.
Qed.

Lemma fixed_cut (k : nat) (conv : decoder -> Z) (set : val -> Z -> val) v d :
  clean d -> remain d < Z.of_nat k ->
  exists v' d',
    (let* x := (let* ok := readFull k in
                if ok then (fun d => Ok (conv d) d) else ret 0) in
     ret (set v x)) d = Ok v' d' /\ spent d'.
Proof.
  intros Hc Hr. destruct (readFull_cut k d Hc Hr) as (d' & Hrun & Hsp).
  eexists _, d'. unfold bind at 1. unfold bind at 1. by rewrite Hrun.
Qed.

Lemma decodeBool_cut v d :
  clean d -> remain d < 1 ->
  exists v' d', decodeBool v d = Ok v' d' /\ spent d'.
Proof.
  intros Hc Hr. destruct (readFull_cut 1 d Hc ltac:(lia)) as (d' & Hrun & Hsp).
  eexists _, d'. unfold decodeBool, readBool, readByte. unfold bind.
  by rewrite Hrun.
Qed.

Lemma clean_consumed k d :
  clean d -> (k <= available d)%nat -> clean (consumed k d).
Proof.
  intros (He & Hr & Hs) Hk. repeat split; [done| |by apply supplied_consumed].
  rewrite remain_consumed. unfold available in Hk. lia.
Qed.

Lemma decodeString_cut_payload v d :
  clean d ->
  2 <= remain d < 2 + Fixed.readInt16 (take 2 (pending (reader d))) ->
  exists v' d', decodeString v d = Ok v' d' /\ spent d'.
Proof.
  intros Hc Hr. pose proof (clean_available d Hc) as Hav.
  assert (Hc2 : clean (consumed 2 d)) by (apply clean_consumed; [done|lia]).
  destruct Hc as (He & Hr0 & Hs).
  destruct (read_cut (Fixed.readInt16 (take 2 (pending (reader d)))) (consumed 2 d) Hc2)
    as (b & d' & Hrun & Hsp).
  { rewrite remain_consumed. lia. }
  exists (VString b), d'. split; [|done].
  unfold decodeString, readString. unfold bind at 1. unfold bind at 1.
  rewrite (readInt16_ok _ He Hr0 ltac:(lia)).
  destruct (Z.ltb_spec (Fixed.readInt16 (take 2 (pending (reader d)))) 0); [lia|].
  unfold Fixed.readInt16 at 1. rewrite int_of_int16.
  fold (Fixed.readInt16 (take 2 (pending (reader d)))).
  by rewrite (bind_Ok _ _ _ _ _ Hrun).
Qed.

Lemma decodeBytes_cut_payload v d :
  clean d ->
  4 <= remain d < 4 + Fixed.readInt32 (take 4 (pending (reader d))) ->
  exists v' d', decodeBytes v d = Ok v' d' /\ spent d'.
Proof.
  intros Hc Hr. pose proof (clean_available d Hc) as Hav.
  assert (Hc2 : clean (consumed 4 d)) by (apply clean_consumed; [done|lia]).
  destruct Hc as (He & Hr0 & Hs).
  destruct (read_cut (Fixed.readInt32 (take 4 (pending (reader d)))) (consumed 4 d) Hc2)
    as (b & d' & Hrun & Hsp).
  { rewrite remain_consumed. lia. }
  exists (VBytes (Some b)), d'. split; [|done].
  unfold decodeBytes, readBytes. unfold bind at 1. unfold bind at 1.
  rewrite (readInt32_ok _ He Hr0 ltac:(lia)).
  destruct (Z.ltb_spec (Fixed.readInt32 (take 4 (pending (reader d)))) 0); [lia|].
  unfold Fixed.readInt32 at 1. rewrite int_of_int32.
  fold (Fixed.readInt32 (take 4 (pending (reader d)))).
  by rewrite (bind_Ok _ _ _ _ _ Hrun).
Qed.

Lemma decodeString_cut_length v d :
  clean d -> remain d < 2 ->
  exists v' d', decodeString v d = Ok v' d' /\ spent d'.
Proof.
  intros Hc Hr. destruct (readFull_cut 2 d Hc ltac:(lia)) as (d' & Hrun & Hsp).
  destruct (spent_is_failed _ Hsp) as [e He].
  exists (VString []), d'. split; [|done].
  unfold decodeString, readString, readInt16. unfold bind at 1 2 3.
  rewrite Hrun. simpl.
  by rewrite (bind_Ok _ _ _ _ _ (read_failed 0 d' _ He ltac:(lia))).
Qed.

Lemma decodeBytes_cut_length v d :
  clean d -> remain d < 4 ->
  exists v' d', decodeBytes v d = Ok v' d' /\ spent d'.
Proof.
  intros Hc Hr. destruct (readFull_cut 4 d Hc ltac:(lia)) as (d' & Hrun & Hsp).
  destruct (spent_is_failed _ Hsp) as [e He].
  exists (VBytes (Some [])), d'. split; [|done].
  unfold decodeBytes, readBytes, readInt32. unfold bind at 1 2 3.
  rewrite Hrun. simpl.
  by rewrite (bind_Ok _ _ _ _ _ (read_failed 0 d' _ He ltac:(lia))).
Qed.

Lemma decodeArray_cut_count elem decodeElem v d :
  clean d -> remain d < 4 ->
  exists v' d', decodeArray elem decodeElem v d = Ok v' d' /\ spent d'.
Proof.
  intros Hc Hr. destruct (readFull_cut 4 d Hc ltac:(lia)) as (d' & Hrun & Hsp).
  exists (VArray (Some [])), d'. split; [|done].
  unfold decodeArray, readInt32. unfold bind at 1 2.
  by rewrite Hrun.
Qed.

Lemma decodeFields_app pre post v d :
  decodeFields (pre ++ post) v d =
  (let* v1 := decodeFields pre v in decodeFields post v1) d.
Proof.
  revert v d. induction pre as [|f pre IH]; intros v d; simpl; [done|].
  unfold bind at 1 2 3.
  destruct (decodeField f v d) as [v1 d1|d1|d1]; [apply IH|done|done].
Qed.

(** A safe and quiet routine, run with the error set, returns in the
    decoder it was given. *)
Lemma runs_quietly t f v d e :
  safe_on t f -> quiet f -> has_type t v -> err d = Some e -> 0 <= remain d ->
  exists v', f v d = Ok v' d /\ has_type t v'.
Proof.
  intros Hs Hq Hv He Hr. destruct (Hs v d Hv Hr) as (v' & d' & Hrun & Hv' & _).
  pose proof (Hq v d e He) as Hu. rewrite Hrun in Hu. simpl in Hu. subst d'.
  eauto.
Qed.

Section Truncation.

Variable ReadFrom : nat -> val -> M (val * option error).
Hypothesis ReadFrom_wellbehaved : wellbehaved ReadFrom.
Variable version : Z.

(** With [flexible = false] the tag handed down by the caller plays no
    part in the plan. *)
Lemma decodeFuncOf_classic_tag typ : forall tag tag',
  decodeFuncOf ReadFrom typ version false tag =
  decodeFuncOf ReadFrom typ version false tag'.
Proof.
  induction typ as [| | | | | | |fs IH|elem IH|name|] using type_induction;
    intros tag tag'; try reflexivity.
  destruct (Uint8_or_not elem) as [->|Hne]; [done|].
  rewrite !decodeFuncOf_Slice by done. unfold arrayDecodeFuncOf.
  by rewrite (IH tag tag').
Qed.

(** What the compiler knows of the fields it has collected. *)
Lemma collected_fields (fs : list (type * list structTag)) fields taggedFields :
  collectFields ReadFrom version false fs O ([], ∅) = Some (fields, taggedFields) ->
  Forall (fun g => exists t tags tag,
            fs !! index g = Some (t, tags) /\
            decodeFuncOf ReadFrom t version false tag = Some (decode g)) fields.
Proof.
  intros Hc.
  destruct (collectFields_invariant ReadFrom
              (fun g => exists t tags tag,
                 fs !! index g = Some (t, tags) /\
                 decodeFuncOf ReadFrom t version false tag = Some (decode g))
              version false fs O ([], ∅) _ Hc) as [H _]; [done|done| |done].
  intros g (j & t & tags & tg & Hj & Hi & _ & Hd & _). rewrite Hi. eauto.
Qed.

Lemma collected_safe (fs : list (type * list structTag)) fields :
  Forall (fun g => exists t tags tag,
            fs !! index g = Some (t, tags) /\
            decodeFuncOf ReadFrom t version false tag = Some (decode g)) fields ->
  Forall (fun f => exists t tags,
            fs !! index f = Some (t, tags) /\ safe_on t (decode f)) fields /\
  Forall (fun f => quiet (decode f)) fields.
Proof.
  intros H. split; (eapply Forall_impl; [apply H|]);
    intros g (t & tags & tag & Hg & Hd).
  - exists t, tags. split; [done|]. by eapply safe_decodeFuncOf.
  - by eapply quiet_decodeFuncOf.
Qed.

(** A frame that ends before an item is complete: the plan returns,
    with an end-of-input error set and the budget used up. *)
Lemma cut_is_spent t v d :
  cut ReadFrom version t v d ->
  forall tag f,
  decodeFuncOf ReadFrom t version false tag = Some f -> has_type t v ->
  exists v' d', f v d = Ok v' d' /\ spent d'.
Proof.
  induction 1 as
    [t w v d Hw Hc Hr
    |v d Hc Hr|v d Hc Hr|v d Hc Hr|v d Hc Hr
    |elem v d Hne Hc Hr
    |elem tg decodeElem v d i a1 d1 x Hne Hc Hr He Hi Hrun Hx Hpos Hcut IH
    |fs fields taggedFields pre g post t tags vs vs1 d d1 x
       Hc Hcoll Hfields Hg Hrun Hx Hcut IH];
    intros tag f Hf Hv.
  - (* a fixed-width value *)
    destruct t; simpl in Hw; inversion Hw; subst w; inversion Hf; subst f;
      [by apply decodeBool_cut|apply (fixed_cut 1)|apply (fixed_cut 2)
      |apply (fixed_cut 4)|apply (fixed_cut 8)]; done.
  - inversion Hf. by apply decodeString_cut_length.
  - inversion Hf. by apply decodeString_cut_payload.
  - inversion Hf. by apply decodeBytes_cut_length.
  - inversion Hf. by apply decodeBytes_cut_payload.
  - rewrite decodeFuncOf_Slice in Hf by done.
    unfold arrayDecodeFuncOf in Hf.
    destruct (decodeFuncOf _ elem _ _ _) as [ef|]; [|done]. inversion Hf.
    by apply decodeArray_cut_count.
  - (* in an element of an array *)
    rewrite decodeFuncOf_Slice in Hf by done. unfold arrayDecodeFuncOf in Hf.
    rewrite (decodeFuncOf_classic_tag elem tag tg), He in Hf.
    inversion Hf; subst f. clear Hf.
    pose proof (clean_available d Hc) as Hav.
    pose proof (clean_consumed 4 d Hc ltac:(lia)) as Hc4.
    destruct Hc as (Herr & Hr0 & Hs).
    set (n := Fixed.readInt32 (take 4 (pending (reader d)))) in *.
    pose proof (safe_decodeFuncOf ReadFrom ReadFrom_wellbehaved elem _ _ _ He) as Hsafe.
    destruct (safe_decodeElems elem decodeElem Hsafe i 0
                (replicate (Z.to_nat n) (zero elem)) (consumed 4 d))
      as (a1' & d1' & Hrun' & Ha1 & Hlen & Hw).
    { apply Forall_replicate, zero_has_type. }
    { rewrite length_replicate. lia. }
    { apply Hc4. }
    rewrite Hrun in Hrun'. inversion Hrun'; subst a1' d1'. clear Hrun'.
    assert (Htx : has_type elem x) by (by eapply Forall_lookup_1).
    destruct (IH tg decodeElem He Htx) as (x' & d2 & Hdec & Hsp).
    exists (VArray (Some (<[i:=x']> a1))), d2. split; [|done].
    assert (Hrun1 : decodeElems decodeElem (S i) 0
                      (replicate (Z.to_nat n) (zero elem)) (consumed 4 d)
                    = Ok (<[i:=x']> a1) d2).
    { replace (S i) with (i + 1)%nat by lia.
      rewrite decodeElems_split, (bind_Ok _ _ _ _ _ Hrun). simpl.
      rewrite Z.gtb_ltb. destruct (Z.ltb_spec 0 (remain d1)); [|lia].
      by rewrite Hx, (bind_Ok _ _ _ _ _ Hdec). }
    apply (decodeArray_stops elem decodeElem v d n (consumed 4 d) (S i));
      [by apply readInt32_ok; [| |lia]|lia|lia|done|].
    destruct Hsp. lia.
  - (* in a field of a struct *)
    pose proof (collected_fields _ _ _ Hcoll) as Hall.
    rewrite decodeFuncOf_Struct in Hf. unfold structDecodeFuncOf in Hf.
    rewrite Hcoll in Hf. simpl in Hf. inversion Hf; subst f. clear Hf.
    subst fields. apply Forall_app in Hall as [Hpre Hgpost].
    apply Forall_cons in Hgpost as [(t' & tags' & tg & Hg' & Hdec) Hpost].
    rewrite Hg in Hg'. inversion Hg'; subst t' tags'. clear Hg'.
    destruct (collected_safe _ _ Hpre) as [Hpre_safe _].
    destruct (collected_safe _ _ Hpost) as [Hpost_safe Hpost_quiet].
    destruct Hc as (Herr & Hr0 & Hs).
    destruct (safe_decodeFields fs pre Hpre_safe (VStruct vs) d Hv Hr0)
      as (v1' & d1' & Hrun' & Hv1 & Hw).
    rewrite Hrun in Hrun'. inversion Hrun'; subst v1' d1'. clear Hrun'.
    assert (Htx : has_type t x).
    { inversion Hv1 as [| | | | | | |fs' vs' Hvs| | | | |]; subst.
      destruct (Forall2_lookup_l _ _ _ _ _ Hvs Hg) as (x0 & Hx0 & Htx0).
      rewrite Hx in Hx0. by inversion Hx0; subst. }
    destruct (IH tg (decode g) Hdec Htx) as (x' & d2 & Hrun2 & Hsp).
    assert (Hsafe_g : safe_on t (decode g))
      by (by eapply safe_decodeFuncOf).
    destruct (Hsafe_g x d1 Htx (within_nonneg _ _ Hw)) as (x'' & d2' & Hrun2' & Htx' & _).
    rewrite Hrun2 in Hrun2'. inversion Hrun2'; subst x'' d2'. clear Hrun2'.
    assert (Hv2 : has_type (reflect.Struct fs) (VStruct (<[index g:=x']> vs1))).
    { inversion Hv1 as [| | | | | | |fs' vs' Hvs| | | | |]; subst.
      constructor. rewrite <- (list_insert_id fs (index g) (t, tags)) by done.
      by apply Forall2_insert. }
    destruct (spent_is_failed _ Hsp) as [e Hsp_err].
    destruct (runs_quietly (reflect.Struct fs) (decodeFields post) _ d2 _
                (safe_decodeFields fs post Hpost_safe)
                (quiet_decodeFields post Hpost_quiet) Hv2 Hsp_err
                ltac:(destruct Hsp; lia))
      as (v' & Hrun3 & _).
    exists v', d2. split; [|done].
    assert (Hall : decodeFields (pre ++ g :: post) (VStruct vs) d = Ok v' d2).
    { rewrite decodeFields_app, (bind_Ok _ _ _ _ _ Hrun). simpl.
      unfold bind at 1. unfold decodeField. rewrite Hx.
      rewrite (bind_Ok _ _ _ _ _ Hrun2). unfold ret at 1. done. }
    unfold structDecode. by rewrite (bind_Ok _ _ _ _ _ Hall).
Qed.

End Truncation.

(** What [Unmarshal] returns is the report of the compiled plan, whatever
    the cache holds. *)
Lemma Unmarshal_runs_the_plan
    (ReadFrom : nat -> val -> M (val * option error))
    g data version typ value f :
  cache_classic ReadFrom (unmarshalers g) ->
  decodeFuncOf ReadFrom typ version false rootTag = Some f ->
  (Unmarshal ReadFrom g data version typ value).2
    = report (f value (checkout g data)).
Proof.
  intros Hc Hf. unfold Unmarshal.
  destruct (resolve _ _ _) as [[decode cache]|] eqn:Hres.
  - destruct (resolve_classic _ _ _ _ _ Hc Hres) as [Hd _]. simpl in Hd.
    rewrite Hf in Hd. by inversion Hd.
  - pose proof (resolve_None _ _ _ Hc Hres) as Hd. simpl in Hd. congruence.
Qed.

(** C1, as amended.  Through [Unmarshal], a buffer that ends before an
    item the plan goes on to read is complete, that is inside or right
    before a fixed-width value, a length or a count, or inside or right
    before the payload of a string or of a byte sequence, at any depth
    within structs and arrays, the field boundary included, is reported:
    the call returns the unexpected-end-of-input error.  The elements of
    an array are the exception: the element loop does not go on once the
    budget is at zero, so a buffer that ends on an element boundary
    raises no error there; an array that is the whole value, with the
    budget at zero once [k] of its [n] elements have been decoded
    without error, makes the call return no error, the first [k]
    elements and zero values after them. *)
Theorem truncated_frame_is_reported
    (ReadFrom : nat -> val -> M (val * option error))
    g data version typ value :
  wellbehaved ReadFrom ->
  cache_classic ReadFrom (unmarshalers g) ->
  has_type typ value ->
  is_Some (decodeFuncOf ReadFrom typ version false rootTag) ->
  (cut ReadFrom version typ value (checkout g data) ->
   exists v',
     (Unmarshal ReadFrom g data version typ value).2
       = Returned (Some ErrUnexpectedEOF) v') /\
  (forall f count i a d,
     remain d = 0 -> decodeElems f count i a d = Ok a d) /\
  (forall elem decodeElem n d1 (k : nat) a1 dk,
     typ = reflect.Slice elem -> elem <> reflect.Uint8 ->
     decodeFuncOf ReadFrom elem version false rootTag = Some decodeElem ->
     readInt32 (checkout g data) = Ok n d1 -> 0 <= n ->
     (k <= Z.to_nat n)%nat ->
     decodeElems decodeElem k 0 (replicate (Z.to_nat n) (zero elem)) d1
       = Ok a1 dk ->
     err dk = None -> remain dk = 0 ->
     (Unmarshal ReadFrom g data version typ value).2
       = Returned None (VArray (Some a1)) /\
     length a1 = Z.to_nat n /\
     forall j, (k <= j < Z.to_nat n)%nat -> a1 !! j = Some (zero elem)).
Proof.
  intros HR Hc Hv [f Hf]. split; [|split].
  - intros Hcut.
    destruct (cut_is_spent ReadFrom HR version typ value _ Hcut rootTag f Hf Hv)
      as (v' & d' & Hrun & Herr & _).
    exists v'. rewrite (Unmarshal_runs_the_plan _ _ _ _ _ _ _ Hc Hf), Hrun. simpl.
    by destruct Herr as [-> | ->].
  - intros f0 count i a d Hz. apply decodeElems_spent. lia.
  - intros elem decodeElem n d1 k a1 dk -> Hne He Hn Hpos Hk Hrun Herr Hz.
    rewrite (Unmarshal_runs_the_plan _ _ _ _ _ _ _ Hc Hf).
    rewrite decodeFuncOf_Slice in Hf by done. unfold arrayDecodeFuncOf in Hf.
    rewrite He in Hf. inversion Hf; subst f. clear Hf.
    destruct (decodeArray_stops elem decodeElem value _ n d1 k a1 dk Hn Hpos Hk Hrun
                ltac:(lia)) as (Hdec & Hlen & Hj).
    rewrite Hdec. simpl. rewrite Herr. simpl.
    split; [|done]. by inversion Hv.
Qed.

Lemma truncated_frame_is_reported_witness :
  let data := bytes_of [0; 0; 0; 7] in
  cut noReadFrom 1 scenarioA (zero scenarioA) (checkout initial data) /\
  exists v',
    (Unmarshal noReadFrom initial data 1 scenarioA (zero scenarioA)).2
      = Returned (Some ErrUnexpectedEOF) v'.
Proof.
  intros data.
  assert (Hc : cache_classic noReadFrom (unmarshalers initial))
    by (intros key f; discriminate).
  assert (Hv : has_type scenarioA (zero scenarioA)) by apply zero_has_type.
  assert (Hs : is_Some (decodeFuncOf noReadFrom scenarioA 1 false rootTag))
    by (eexists; reflexivity).
  assert (Hcut : cut noReadFrom 1 scenarioA (zero scenarioA) (checkout initial data)).
  { eapply (cut_struct noReadFrom 1 _ _ _
              [{| decode := decodeInt32; index := 0; tagID := -2 |}]
              {| decode := decodeString; index := 1; tagID := -2 |} []
              reflect.String [ordinary 1 maxVersion]
              [VInt32 0; VString []] [VInt32 7; VString []]
              (checkout initial data)
              (consumed 4 (checkout initial data)) (VString [])).
    - repeat split; vm_compute; (lia || discriminate).
    - reflexivity.
    - reflexivity.
    - reflexivity.
    - reflexivity.
    - reflexivity.
    - apply cut_string_length.
      + repeat split; vm_compute; (lia || discriminate).
      + vm_compute. reflexivity. }
  split; [exact Hcut|].
  exact (proj1 (truncated_frame_is_reported noReadFrom initial data 1
                  scenarioA (zero scenarioA) noReadFrom_wellbehaved Hc Hv Hs) Hcut).
Defined.

(** C1, as stated, fails.  The sixteen bytes of an array of three
    structs of one [int32] decode to its three elements.  Cut after the
    first element, the buffer is truncated, and [Unmarshal] returns no
    error: the element loop stops on the spent budget and leaves the
    other two elements at zero. *)
Lemma truncated_array_is_not_reported :
  (Unmarshal noReadFrom initial
     (bytes_of [0; 0; 0; 3; 0; 0; 0; 1; 0; 0; 0; 2; 0; 0; 0; 3]) 0
     arrayOfStructs (zero arrayOfStructs)).2
    = Returned None
        (VStruct [VArray (Some [VStruct [VInt32 1]; VStruct [VInt32 2];
                                VStruct [VInt32 3]])]) /\
  (Unmarshal noReadFrom initial (bytes_of [0; 0; 0; 3; 0; 0; 0; 1]) 0
     arrayOfStructs (zero arrayOfStructs)).2
    = Returned None
        (VStruct [VArray (Some [VStruct [VInt32 1]; VStruct [VInt32 0];
                                VStruct [VInt32 0]])]).
Proof. split; reflexivity. Qed.

(** ** The budget under lengths that fit *)

Lemma Read_within k d :
  0 <= remain d -> exists r d', Read k d = Ok r d' /\ within d d'.
Proof.
  intros Hr. destruct (err d) as [e|] eqn:He.
  { eexists _, _. split; [by apply Read_failed|by apply within_refl]. }
  destruct (Z.eq_dec (remain d) 0) as [Hz|Hnz].
  { eexists _, _. split; [by apply Read_exhausted|by apply within_refl]. }
  destruct (pending (reader d)) as [|b p] eqn:Ep.
  { eexists _, _. split; [apply Read_dry; [done|lia|done]|by apply within_refl]. }
  eexists _, _. split.
  - apply Read_some; [done|lia|by rewrite Ep].
  - apply within_advance; [|done]. pose proof (delivered_le k d). lia.
Qed.

(** [io.Copy] out of the decoder takes all the budget and the source can
    supply. *)
Lemma ioCopy_loop_spec bufsize fuel : forall got d,
  (0 < bufsize)%nat -> err d = None -> 0 <= remain d ->
  (Z.to_nat (remain d) < fuel)%nat ->
  exists e,
    ioCopy_loop fuel bufsize got d =
      Ok (got ++ take (available d) (pending (reader d)), e)
         (advance (available d) d).
Proof.
  induction fuel as [|fuel IH]; intros got d Hb He Hr Hf; [lia|]. simpl.
  destruct (Z.eq_dec (remain d) 0) as [Hz|Hnz].
  { rewrite (bind_Ok _ _ _ _ _ (Read_exhausted _ _ He Hz)). simpl.
    assert (available d = 0%nat) as -> by (unfold available; lia).
    rewrite advance_0. eauto. }
  destruct (pending (reader d)) as [|b p] eqn:Ep.
  { rewrite (bind_Ok _ _ _ _ _ (Read_dry _ _ He ltac:(lia) Ep)). simpl.
    assert (available d = 0%nat) as -> by (unfold available; rewrite Ep; simpl; lia).
    rewrite advance_0. eauto. }
  assert (Hp : pending (reader d) <> []) by (by rewrite Ep).
  rewrite <- Ep.
  rewrite (bind_Ok _ _ _ _ _ (Read_some _ _ He ltac:(lia) Hp)). simpl.
  pose proof (delivered_le bufsize d) as Hle.
  pose proof (delivered_pos bufsize d Hb ltac:(lia) Hp) as Hpos.
  set (j := delivered bufsize d) in *. clearbody j.
  assert (Hj : (j <= Z.to_nat (remain d))%nat) by (unfold available in Hle; lia).
  destruct (IH (got ++ take j (pending (reader d))) (advance j d)) as [e Hrun];
    [done|done|simpl; lia|simpl; lia|].
  exists e. rewrite Hrun, available_advance, advance_advance by lia.
  replace (j + (available d - j))%nat with (available d) by lia.
  f_equal. f_equal. rewrite <- app_assoc. f_equal. simpl.
  rewrite take_take_drop. f_equal. lia.
Qed.

Lemma ioCopy_within bufsize d :
  (0 < bufsize)%nat -> 0 <= remain d ->
  exists r d', ioCopy bufsize d = Ok r d' /\ within d d' /\
    (Z.of_nat (length r.1) <= remain d) /\
    remain d' = remain d - Z.of_nat (length r.1).
Proof.
  intros Hb Hr. destruct (err d) as [e|] eqn:He.
  { eexists _, _. split; [by apply ioCopy_failed|]. simpl.
    split; [by apply within_refl|lia]. }
  unfold ioCopy.
  destruct (ioCopy_loop_spec bufsize (S (Z.to_nat (remain d))) [] d Hb He Hr ltac:(lia))
    as [e Hrun].
  eexists _, _. split; [apply Hrun|]. simpl. rewrite length_take.
  split; [apply within_advance; [lia|done]|]. unfold available. lia.
Qed.

Lemma discard_within n d :
  0 <= remain d -> exists d', discard n d = Ok tt d' /\ within d d'.
Proof.
  intros Hr. unfold discard, discard_with.
  destruct (has_discard (reader d)) eqn:Hd.
  - destruct (src_discard (reader d) _) as [[n' e] r] eqn:Hs.
    assert (Hw : within d (set_remain (remain d - n') (set_reader r d))).
    { unfold src_discard in Hs. rewrite Z.gtb_ltb in Hs.
      assert (Hm : (if remain d <? n then remain d else n) <= remain d)
        by (destruct (Z.ltb_spec (remain d) n); lia).
      destruct (Z.ltb_spec (if remain d <? n then remain d else n) 0).
      - inversion Hs; subst. replace (remain d - 0) with (remain d) by lia.
        exists O. simpl. rewrite drop_0. repeat split; lia.
      - inversion Hs; subst.
        eexists. simpl. split; [done|]. split; [done|]. lia. }
    destruct (setError_within e _ (within_nonneg _ _ Hw)) as (d' & Hrun & Hw').
    exists d'. split; [done|by eapply within_trans].
  - destruct (ioCopy_within (Z.to_nat 8192) d ltac:(lia) Hr) as (r & d1 & Hrun & Hw & _).
    rewrite (bind_Ok _ _ _ _ _ Hrun).
    destruct (setError_within r.2 d1 (within_nonneg _ _ Hw)) as (d' & Hrun' & Hw').
    exists d'. split; [done|by eapply within_trans].
Qed.

(** With a length that is not negative, [writeTo] stays within the
    frame: the budget goes negative under a negative length only. *)
Lemma writeTo_within w n d :
  0 <= n -> 0 <= remain d < 2 ^ 63 ->
  exists w' d', writeTo w n d = Ok w' d' /\ within d d'.
Proof.
  intros Hn Hr. unfold writeTo.
  set (d0 := if n <? remain d then set_remain n d else d).
  assert (Hr0 : 0 <= remain d0 <= remain d).
  { unfold d0. destruct (Z.ltb_spec n (remain d)); simpl; lia. }
  assert (Hp0 : pending (reader d0) = pending (reader d)).
  { unfold d0. by destruct (n <? remain d). }
  destruct (ioCopy_within (Z.to_nat 32768) d0 ltac:(lia) ltac:(lia))
    as (r & d1 & Hrun & (k & Hk1 & Hk2 & Hk3) & Hlen & Hrem).
  rewrite (bind_Ok _ _ _ _ _ Hrun).
  assert (Hc : Int.int (Z.of_nat (length r.1)) = Z.of_nat (length r.1)).
  { apply int_small. lia. }
  rewrite Hc. unfold bind at 1.
  set (d2 := set_remain (remain d - Z.of_nat (length r.1)) d1).
  assert (Hw2 : within d d2).
  { exists k. unfold d2. simpl. rewrite Hk1, Hp0. repeat split; lia. }
  destruct (setError_within
              (if (Z.of_nat (length r.1) <? n) && bool_decide (r.2 = None)
               then Some ErrUnexpectedEOF else r.2) d2 (within_nonneg _ _ Hw2))
    as (d' & Hrun' & Hw').
  rewrite (bind_Ok _ _ _ _ _ Hrun').
  eexists _, d'. split; [done|by eapply within_trans].
Qed.

(** Under a negative length [writeTo] stores the length as the budget
    and panics in the copy. *)
Lemma writeTo_negative w n d :
  err d = None -> n < 0 -> 0 <= remain d ->
  writeTo w n d = Panic (set_remain n d).
Proof.
  intros He Hn Hr. unfold writeTo.
  destruct (Z.ltb_spec n (remain d)); [|lia].
  assert (Hcopy : ioCopy (Z.to_nat 32768) (set_remain n d) = Panic (set_remain n d)).
  { unfold ioCopy. cbn [ioCopy_loop].
    by rewrite (bind_Panic _ _ _ _ (Read_negative _ (set_remain n d) He Hn)). }
  by rewrite (bind_Panic _ _ _ _ Hcopy).
Qed.

(** * Further properties *)

(** ** Bytes and big-endian numbers *)

Lemma u8_byte_of_Z z : Int.u8 (Int.byte_of_Z z) = z mod 256.
Proof.
  unfold Int.u8, Int.byte_of_Z.
  pose proof (Z.mod_pos_bound z 256 ltac:(lia)) as Hz.
  destruct (Byte.of_N (Z.to_N (z mod 256))) as [b|] eqn:Hb.
  - simpl. apply Byte.to_of_N in Hb. lia.
  - apply Byte.of_N_None_iff in Hb. lia.
Qed.

Lemma lor_shiftl_add lo hi k :
  0 <= k -> 0 <= lo < 2 ^ k -> Z.lor lo (Z.shiftl hi k) = lo + hi * 2 ^ k.
Proof.
  intros Hk Hlo. rewrite Z.shiftl_mul_pow2 by done.
  assert (Z.land lo (hi * 2 ^ k) = 0) as Hdisjoint.
  { apply Z.bits_inj'. intros i Hi. rewrite Z.land_spec, Z.bits_0.
    destruct (Z.lt_ge_cases i k).
    - by rewrite Z.mul_pow2_bits_low, andb_false_r.
    - destruct (Z.eq_dec lo 0) as [->|]; [by rewrite Z.bits_0|].
      rewrite (Z.bits_above_log2 lo i); [done|lia|].
      apply Z.log2_lt_pow2; [lia|].
      apply Z.lt_le_trans with (2 ^ k); [lia|].
      apply Z.pow_le_mono_r; lia. }
  by rewrite <- Z.lxor_lor, Z.add_nocarry_lxor.
Qed.

Lemma at_bytes_of l i : Fixed.at_ (bytes_of l) i = nth i l 0 mod 256.
Proof.
  unfold Fixed.at_, bytes_of.
  revert i. induction l as [|z l IH]; intros [|i]; simpl; try done.
  - apply u8_byte_of_Z.
Qed.

Lemma Uint16_bytes_of a b :
  Fixed.Uint16 (bytes_of [a; b]) = b mod 256 + (a mod 256) * 2 ^ 8.
Proof.
  unfold Fixed.Uint16. rewrite !at_bytes_of. simpl nth.
  apply lor_shiftl_add; [lia|]. apply Z.mod_pos_bound. lia.
Qed.

Lemma Uint32_bytes_of a b c e :
  Fixed.Uint32 (bytes_of [a; b; c; e]) =
  e mod 256 + (c mod 256) * 2 ^ 8 + (b mod 256) * 2 ^ 16 + (a mod 256) * 2 ^ 24.
Proof.
  unfold Fixed.Uint32. rewrite !at_bytes_of. simpl nth.
  pose proof (Z.mod_pos_bound a 256 ltac:(lia)).
  pose proof (Z.mod_pos_bound b 256 ltac:(lia)).
  pose proof (Z.mod_pos_bound c 256 ltac:(lia)).
  pose proof (Z.mod_pos_bound e 256 ltac:(lia)).
  rewrite (lor_shiftl_add (e mod 256)) by lia.
  rewrite (lor_shiftl_add _ _ 16) by lia.
  rewrite (lor_shiftl_add _ _ 24) by lia.
  done.
Qed.

Lemma Uint64_bytes_of a b c e f g h i :
  Fixed.Uint64 (bytes_of [a; b; c; e; f; g; h; i]) =
  i mod 256 + (h mod 256) * 2 ^ 8 + (g mod 256) * 2 ^ 16 + (f mod 256) * 2 ^ 24
  + (e mod 256) * 2 ^ 32 + (c mod 256) * 2 ^ 40 + (b mod 256) * 2 ^ 48
  + (a mod 256) * 2 ^ 56.
Proof.
  unfold Fixed.Uint64. rewrite !at_bytes_of. simpl nth.
  pose proof (Z.mod_pos_bound a 256 ltac:(lia)).
  pose proof (Z.mod_pos_bound b 256 ltac:(lia)).
  pose proof (Z.mod_pos_bound c 256 ltac:(lia)).
  pose proof (Z.mod_pos_bound e 256 ltac:(lia)).
  pose proof (Z.mod_pos_bound f 256 ltac:(lia)).
  pose proof (Z.mod_pos_bound g 256 ltac:(lia)).
  pose proof (Z.mod_pos_bound h 256 ltac:(lia)).
  pose proof (Z.mod_pos_bound i 256 ltac:(lia)).
  rewrite (lor_shiftl_add (i mod 256)) by lia.
  rewrite (lor_shiftl_add _ _ 16) by lia.
  rewrite (lor_shiftl_add _ _ 24) by lia.
  rewrite (lor_shiftl_add _ _ 32) by lia.
  rewrite (lor_shiftl_add _ _ 40) by lia.
  rewrite (lor_shiftl_add _ _ 48) by lia.
  rewrite (lor_shiftl_add _ _ 56) by lia.
  done.
Qed.

Lemma readInt8_big_endian n :
  - 2 ^ 7 <= n < 2 ^ 7 -> Fixed.readInt8 (bytes_of [n]) = n.
Proof.
  intros Hn. unfold Fixed.readInt8. rewrite at_bytes_of. simpl nth.
  unfold Int.int8, Int.signed. simpl Z.sub.
  change (2 ^ 8) with 256. change (2 ^ 7) with 128 in *.
  Z.div_mod_to_equations. lia.
Qed.

Lemma readInt16_big_endian n :
  - 2 ^ 15 <= n < 2 ^ 15 ->
  Fixed.readInt16 (bytes_of [Z.shiftr n 8; n]) = n.
Proof.
  intros Hn. unfold Fixed.readInt16. rewrite Uint16_bytes_of.
  rewrite Z.shiftr_div_pow2 by lia.
  unfold Int.int16, Int.signed. simpl Z.sub.
  change (2 ^ 16) with 65536. change (2 ^ 15) with 32768 in *.
  change (2 ^ 8) with 256.
  Z.div_mod_to_equations. lia.
Qed.

Lemma readInt32_big_endian n :
  - 2 ^ 31 <= n < 2 ^ 31 ->
  Fixed.readInt32
    (bytes_of [Z.shiftr n 24; Z.shiftr n 16; Z.shiftr n 8; n]) = n.
Proof.
  intros Hn. unfold Fixed.readInt32. rewrite Uint32_bytes_of.
  rewrite !Z.shiftr_div_pow2 by lia.
  unfold Int.int32, Int.signed. simpl Z.sub.
  change (2 ^ 32) with 4294967296. change (2 ^ 31) with 2147483648 in *.
  change (2 ^ 8) with 256. change (2 ^ 16) with 65536.
  change (2 ^ 24) with 16777216.
  Z.div_mod_to_equations. lia.
Qed.

Lemma readInt64_big_endian n :
  - 2 ^ 63 <= n < 2 ^ 63 ->
  Fixed.readInt64
    (bytes_of [Z.shiftr n 56; Z.shiftr n 48; Z.shiftr n 40; Z.shiftr n 32;
               Z.shiftr n 24; Z.shiftr n 16; Z.shiftr n 8; n]) = n.
Proof.
  intros Hn. unfold Fixed.readInt64. rewrite Uint64_bytes_of.
  rewrite !Z.shiftr_div_pow2 by lia.
  unfold Int.int64, Int.signed. simpl Z.sub.
  change (2 ^ 64) with 18446744073709551616.
  change (2 ^ 63) with 9223372036854775808 in *.
  change (2 ^ 8) with 256. change (2 ^ 16) with 65536.
  change (2 ^ 24) with 16777216. change (2 ^ 32) with 4294967296.
  change (2 ^ 40) with 1099511627776. change (2 ^ 48) with 281474976710656.
  change (2 ^ 56) with 72057594037927936.
  Z.div_mod_to_equations. lia.
Qed.

(** A decoder whose source starts with [bs] and whose budget covers
    them. *)
Lemma prefix_available d (bs rest : list byte) :
  pending (reader d) = bs ++ rest -> Z.of_nat (length bs) <= remain d ->
  (length bs <= available d)%nat /\
  take (length bs) (pending (reader d)) = bs /\
  drop (length bs) (pending (reader d)) = rest.
Proof.
  intros Hp Hr. unfold available. rewrite Hp, length_app.
  split; [lia|]. by rewrite take_app_length, drop_app_length.
Qed.

(** X1. The fixed-width readers decode big-endian two's complement: on
    a decoder without error whose budget covers them, the bytes
    [n >> 8(w-1), ..., n >> 8, n] of a [w]-byte integer [n] are read back
    as [n], and exactly those [w] bytes are consumed. *)
Theorem fixed_width_readers_decode_big_endian d n rest :
  err d = None ->
  (- 2 ^ 7 <= n < 2 ^ 7 -> 1 <= remain d ->
   pending (reader d) = bytes_of [n] ++ rest ->
   exists d', readInt8 d = Ok n d' /\ pending (reader d') = rest /\
     remain d' = remain d - 1 /\ err d' = None) /\
  (- 2 ^ 15 <= n < 2 ^ 15 -> 2 <= remain d ->
   pending (reader d) = bytes_of [Z.shiftr n 8; n] ++ rest ->
   exists d', readInt16 d = Ok n d' /\ pending (reader d') = rest /\
     remain d' = remain d - 2 /\ err d' = None) /\
  (- 2 ^ 31 <= n < 2 ^ 31 -> 4 <= remain d ->
   pending (reader d) =
     bytes_of [Z.shiftr n 24; Z.shiftr n 16; Z.shiftr n 8; n] ++ rest ->
   exists d', readInt32 d = Ok n d' /\ pending (reader d') = rest /\
     remain d' = remain d - 4 /\ err d' = None) /\
  (- 2 ^ 63 <= n < 2 ^ 63 -> 8 <= remain d ->
   pending (reader d) =
     bytes_of [Z.shiftr n 56; Z.shiftr n 48; Z.shiftr n 40; Z.shiftr n 32;
               Z.shiftr n 24; Z.shiftr n 16; Z.shiftr n 8; n] ++ rest ->
   exists d', readInt64 d = Ok n d' /\ pending (reader d') = rest /\
     remain d' = remain d - 8 /\ err d' = None).
Proof.
  intros He. repeat split; intros Hn Hr Hp.
  - destruct (prefix_available d _ _ Hp) as (Ha & Ht & Hd); [simpl; lia|].
    exists (consumed 1 d). rewrite readInt8_ok by (done || lia).
    simpl length in *. rewrite Ht, readInt8_big_endian by done.
    by rewrite pending_consumed, Hd.
  - destruct (prefix_available d _ _ Hp) as (Ha & Ht & Hd); [simpl; lia|].
    exists (consumed 2 d). rewrite readInt16_ok by (done || lia).
    simpl length in *. rewrite Ht, readInt16_big_endian by done.
    by rewrite pending_consumed, Hd.
  - destruct (prefix_available d _ _ Hp) as (Ha & Ht & Hd); [simpl; lia|].
    exists (consumed 4 d). rewrite readInt32_ok by (done || lia).
    simpl length in *. rewrite Ht, readInt32_big_endian by done.
    by rewrite pending_consumed, Hd.
  - destruct (prefix_available d _ _ Hp) as (Ha & Ht & Hd); [simpl; lia|].
    exists (consumed 8 d). rewrite readInt64_ok by (done || lia).
    simpl length in *. rewrite Ht, readInt64_big_endian by done.
    by rewrite pending_consumed, Hd.
Qed.

Lemma fixed_width_readers_decode_big_endian_witness :
  let d := bound (bytesReader (bytes_of [255; 254; 9])) 3 in
  err d = None /\
  exists d', readInt16 d = Ok (-2) d' /\ pending (reader d') = bytes_of [9] /\
    remain d' = remain d - 2 /\ err d' = None.
Proof.
  intros d. split; [reflexivity|].
  apply (proj1 (proj2 (fixed_width_readers_decode_big_endian
                         d (-2) (bytes_of [9]) eq_refl))).
  - lia.
  - simpl. lia.
  - reflexivity.
Defined.

(** ** The reader interfaces of the decoder *)

Lemma fail_with_exhausted e d : remain d = 0 -> fail_with e d = set_err (Some e) d.
Proof.
  intros Hr. unfold fail_with, drained. simpl.
  destruct (has_discard (reader d)); [|done].
  unfold src_discard. rewrite Hr. simpl.
  rewrite drop_0, with_pending_id.
  destruct d as [r n b e0 t c]. simpl in *. by subst.
Qed.

(** X2. [Read] never hands out bytes beyond the frame: on a decoder
    without error it returns at most [len(b)] and at most [d.remain]
    bytes, which are the next bytes of the source; the budget shrinks by
    their number and the checksum covers them; and it returns an error
    rather than [0, nil] when the buffer is not empty. *)
Theorem Read_stays_within_the_frame k d :
  err d = None -> 0 <= remain d ->
  exists bs e,
    Read k d = Ok (bs, e) (advance (length bs) d) /\
    (length bs <= k)%nat /\
    Z.of_nat (length bs) <= remain d /\
    bs = take (length bs) (pending (reader d)) /\
    (bs = [] -> (0 < k)%nat -> e <> None) /\
    (remain d = 0 -> bs = [] /\ e = Some EOF).
Proof.
  intros He Hr.
  destruct (Z.eq_dec (remain d) 0) as [H0|H0].
  { exists [], (Some EOF). rewrite advance_0, Read_exhausted by done.
    simpl. repeat split; (done || lia). }
  destruct (decide (pending (reader d) = [])) as [Hp|Hp].
  { exists [], (Some (at_end (reader d))).
    rewrite advance_0, Read_dry by (done || lia).
    simpl. repeat split; (done || lia). }
  pose proof (delivered_le k d) as Hle. unfold available in Hle.
  exists (take (delivered k d) (pending (reader d))), None.
  assert (length (take (delivered k d) (pending (reader d))) = delivered k d)
    as Hlen by (rewrite length_take; lia).
  rewrite Hlen, Read_some by (done || lia).
  split; [done|]. split; [lia|]. split; [lia|]. split; [done|].
  split; [|lia].
  intros Hnil Hk. rewrite Hnil in Hlen. simpl in Hlen.
  pose proof (delivered_pos k d Hk ltac:(lia) Hp). lia.
Qed.

Lemma Read_stays_within_the_frame_witness :
  let d := bound (bytesReader (bytes_of [1; 2; 3; 4; 5])) 3 in
  (err d = None /\ 0 <= remain d) /\
  exists bs e,
    Read 4 d = Ok (bs, e) (advance (length bs) d) /\
    (length bs <= 4)%nat /\
    Z.of_nat (length bs) <= remain d /\
    bs = take (length bs) (pending (reader d)) /\
    (bs = [] -> (0 < 4)%nat -> e <> None) /\
    (remain d = 0 -> bs = [] /\ e = Some EOF).
Proof.
  intros d. split; [split; [reflexivity|simpl; lia]|].
  apply (Read_stays_within_the_frame 4 d); [reflexivity|simpl; lia].
Defined.

(** X3. [ReadByte] keeps the contract of [io.ByteReader]: with an error
    latched it returns [0] and that error and changes nothing; with a
    byte available it returns the byte and no error and consumes that
    byte alone; with nothing available it returns [0] and latches
    [io.EOF] when the budget is used up, the error of the source
    otherwise. *)
Theorem ReadByte_contract d :
  (forall e, err d = Some e -> ReadByte d = Ok (Byte.x00, Some e) d) /\
  (err d = None -> (1 <= available d)%nat ->
   ReadByte d = Ok (nth 0 (pending (reader d)) Byte.x00, None) (consumed 1 d)) /\
  (err d = None -> 0 <= remain d -> available d = 0%nat ->
   let e := if remain d =? 0 then EOF else at_end (reader d) in
   ReadByte d = Ok (Byte.x00, Some e) (fail_with e d)).
Proof.
  repeat split.
  - intros e He. unfold ReadByte.
    rewrite (bind_Ok _ _ _ _ _ (readByte_failed d e He)). by rewrite He.
  - intros He Ha. unfold ReadByte.
    assert (0 <= remain d) as Hr by (unfold available in Ha; lia).
    rewrite (bind_Ok _ _ _ _ _ (readByte_ok d He Hr Ha)).
    by rewrite err_consumed, He.
  - intros He Hr Ha e. unfold ReadByte.
    pose proof (readFull_short 1 d He Hr ltac:(lia)) as Hs.
    cbv zeta in Hs. rewrite Ha, advance_0 in Hs.
    assert (consumed 0 d = d) as Hc.
    { unfold consumed, fill. simpl. rewrite advance_0, drop_0. apply set_buffer_id. }
    rewrite Hc in Hs.
    assert (short_error d 0 = e) as Hse by done.
    rewrite Hse in Hs.
    assert (readByte d = Ok Byte.x00 (fail_with e d)) as Hb
      by (unfold readByte; by rewrite (bind_Ok _ _ _ _ _ Hs)).
    rewrite (bind_Ok _ _ _ _ _ Hb). by rewrite err_fail_with.
Qed.

Lemma ReadByte_contract_witness :
  let d := bound (bytesReader (bytes_of [65; 66])) 2 in
  (err d = None /\ (1 <= available d)%nat) /\
  ReadByte d = Ok (Int.byte_of_Z 65, None) (consumed 1 d).
Proof.
  intros d. split; [split; [reflexivity|vm_compute; lia]|].
  apply (proj1 (proj2 (ReadByte_contract d))); [reflexivity|vm_compute; lia].
Defined.

(** ** Variable-length integers of any length *)

Lemma land_7f_range b : 0 <= Z.land b 0x7f < 128.
Proof.
  change 0x7f with (Z.ones 7). rewrite Z.land_ones by lia.
  apply Z.mod_pos_bound. lia.
Qed.

Lemma land_7f_id (b : byte) :
  Z.land (Int.u8 b) 0x80 = 0 -> Z.land (Int.u8 b) 0x7f = Int.u8 b.
Proof. destruct b; vm_compute; congruence. Qed.

Lemma base128_nonneg p : 0 <= base128 p.
Proof.
  induction p as [|b p IH]; simpl; [lia|].
  pose proof (land_7f_range (Int.u8 b)). lia.
Qed.

Lemma uint64_lor a b :
  Int.uint64 (Z.lor a b) = Z.lor (Int.uint64 a) (Int.uint64 b).
Proof.
  unfold Int.uint64, Int.unsigned.
  rewrite <- !Z.land_ones by lia. apply Z.land_lor_distr_l.
Qed.

(** Adding one more group below the groups read so far. *)
Lemma or_shifted_group x g v s :
  0 <= s -> 0 <= g < 128 ->
  Z.lor (or_shifted x g s) (Int.uint64 (Z.shiftl v (s + 7))) =
  Z.lor x (Int.uint64 (Z.shiftl (g + 128 * v) s)).
Proof.
  intros Hs Hg. unfold or_shifted.
  rewrite <- Z.lor_assoc, <- uint64_lor. do 2 f_equal.
  rewrite (Z.add_comm s 7), <- Z.shiftl_shiftl by lia.
  rewrite <- Z.shiftl_lor. f_equal.
  rewrite lor_shiftl_add by (change (2 ^ 7) with 128; lia).
  change (2 ^ 7) with 128. lia.
Qed.

Lemma fill_fill bs bs' d :
  length bs = length bs' -> fill bs (fill bs' d) = fill bs d.
Proof.
  intros Hl. unfold fill, set_buffer. simpl. f_equal.
  by rewrite Hl, drop_app_length.
Qed.

Lemma advance_fill k bs d : advance k (fill bs d) = fill bs (advance k d).
Proof. done. Qed.

Lemma consumed_again k (b t : list byte) d :
  length b = length t ->
  fill t (advance k (fill b (advance 1 d))) = fill t (advance (1 + k) d).
Proof.
  intros Hl. rewrite advance_fill, fill_fill by done.
  by rewrite advance_advance.
Qed.

Lemma varint_loop_value finish failure : forall (p : list byte) n x s d t rest,
  err d = None ->
  pending (reader d) = p ++ t :: rest ->
  Z.of_nat (length p) < remain d ->
  (length p < n)%nat ->
  Forall (fun b => Z.land (Int.u8 b) 0x80 <> 0) p ->
  Z.land (Int.u8 t) 0x80 = 0 ->
  0 <= s ->
  varint_loop finish failure n x s d =
    Ok (finish (Z.lor x (Int.uint64 (Z.shiftl (base128 (p ++ [t])) s))))
       (fill [t] (advance (S (length p)) d)).
Proof.
  induction p as [|b p IH]; intros n x s d t rest He Hp Hr Hn Hc Ht Hs.
  - destruct n as [|n]; [simpl in Hn; lia|]. simpl in Hn, Hr, Hp.
    assert (1 <= available d)%nat as Ha
      by (unfold available; rewrite Hp; simpl; lia).
    cbn [varint_loop].
    rewrite (bind_Ok _ _ _ _ _ (readByte_ok d He ltac:(lia) Ha)).
    rewrite Hp. change (nth 0 (t :: rest) Byte.x00) with t.
    destruct (Z.eqb_spec (Z.land (Int.u8 t) 128) 0) as [_|]; [|done].
    unfold ret, or_shifted. simpl app. cbn [base128].
    rewrite land_7f_id by done.
    rewrite Z.mul_0_r, Z.add_0_r. f_equal.
    unfold consumed. by rewrite Hp.
  - destruct n as [|n]; [simpl in Hn; lia|]. simpl in Hn, Hr.
    apply Forall_cons in Hc as [Hb Hc].
    assert (1 <= available d)%nat as Ha
      by (unfold available; rewrite Hp; simpl; lia).
    cbn [varint_loop].
    rewrite (bind_Ok _ _ _ _ _ (readByte_ok d He ltac:(lia) Ha)).
    rewrite Hp. change (nth 0 ((b :: p) ++ t :: rest) Byte.x00) with b.
    destruct (Z.eqb_spec (Z.land (Int.u8 b) 128) 0) as [|_]; [done|].
    rewrite (IH n _ (s + 7) (consumed 1 d) t rest); try done; try lia.
    + f_equal.
      * f_equal. simpl app. cbn [base128].
        apply or_shifted_group; [done|apply land_7f_range].
      * unfold consumed. rewrite Hp. simpl take.
        by rewrite (consumed_again (S (length p)) [b] [t]).
    + rewrite pending_consumed, Hp. done.
    + rewrite remain_consumed. lia.
Qed.

Lemma zigzag_spec x :
  0 <= x < 2 ^ 64 ->
  zigzag x = if Z.even x then x / 2 else - (x / 2) - 1.
Proof.
  intros Hx. unfold zigzag.
  rewrite Z.shiftr_div_pow2 by lia. change (2 ^ 1) with 2.
  assert (Int.int64 (x / 2) = x / 2) as ->.
  { apply signed_small; [lia|]. simpl Z.sub.
    change (2 ^ 64) with 18446744073709551616 in Hx.
    change (2 ^ 63) with 9223372036854775808.
    Z.div_mod_to_equations. lia. }
  assert (Z.land (Int.int64 x) 1 = x mod 2) as ->.
  { change 1 with (Z.ones 1) at 1. rewrite Z.land_ones by lia.
    change (2 ^ 1) with 2. unfold Int.int64, Int.signed. simpl Z.sub.
    change (2 ^ 64) with 18446744073709551616 in *.
    change (2 ^ 63) with 9223372036854775808.
    Z.div_mod_to_equations. lia. }
  rewrite Zmod_even. destruct (Z.even x).
  - apply Z.lxor_0_r.
  - change (- 1) with (-1). rewrite Z.lxor_m1_r. unfold Z.lnot. lia.
Qed.

(** The decoder after a run of groups [p] and the byte [t] that ends it
    have been read one by one. *)
Lemma after_groups d (p : list byte) t rest :
  pending (reader d) = p ++ t :: rest ->
  let d' := fill [t] (advance (S (length p)) d) in
  pending (reader d') = rest /\
  remain d' = remain d - Z.of_nat (S (length p)) /\
  err d' = err d.
Proof.
  intros Hp. simpl. rewrite Hp. split; [|done].
  change (t :: rest) with ([t] ++ rest). rewrite app_assoc.
  replace (S (length p)) with (length (p ++ [t]))
    by (rewrite length_app; simpl; lia).
  apply drop_app_length.
Qed.

Section Groups.

Variables (d : decoder) (p : list byte) (t : byte) (rest : list byte).
Hypothesis He : err d = None.
Hypothesis Hp : pending (reader d) = p ++ t :: rest.
Hypothesis Hc : Forall (fun b => Z.land (Int.u8 b) 0x80 <> 0) p.
Hypothesis Ht : Z.land (Int.u8 t) 0x80 = 0.
Hypothesis Hl : (length p < 11)%nat.
Hypothesis Hr : Z.of_nat (length p) < remain d.

Lemma groups_allowed : (length p < Z.to_nat (varint_groups d))%nat.
Proof. rewrite varint_groups_spec by lia. lia. Qed.

Lemma readUnsignedVarInt_groups :
  readUnsignedVarInt d =
    Ok (Int.uint64 (base128 (p ++ [t]))) (fill [t] (advance (S (length p)) d)).
Proof.
  unfold readUnsignedVarInt.
  rewrite (varint_loop_value _ _ p _ 0 0 d t rest He Hp Hr groups_allowed
             Hc Ht ltac:(lia)).
  by rewrite Z.shiftl_0_r, Z.lor_0_l.
Qed.

Lemma readVarInt_groups :
  readVarInt d =
    Ok (zigzag (Int.uint64 (base128 (p ++ [t]))))
       (fill [t] (advance (S (length p)) d)).
Proof.
  unfold readVarInt.
  rewrite (varint_loop_value _ _ p _ 0 0 d t rest He Hp Hr groups_allowed
             Hc Ht ltac:(lia)).
  by rewrite Z.shiftl_0_r, Z.lor_0_l.
Qed.

End Groups.

Lemma zigzag_inverts n :
  - 2 ^ 63 <= n < 2 ^ 63 ->
  zigzag (Int.uint64 (if n <? 0 then - 2 * n - 1 else 2 * n)) = n.
Proof.
  intros Hn. change (2 ^ 63) with 9223372036854775808 in Hn.
  assert (0 <= (if n <? 0 then - 2 * n - 1 else 2 * n) < 2 ^ 64) as Hb.
  { change (2 ^ 64) with 18446744073709551616.
    destruct (Z.ltb_spec n 0); lia. }
  unfold Int.uint64, Int.unsigned. rewrite Z.mod_small by done.
  rewrite zigzag_spec by done.
  destruct (Z.ltb_spec n 0).
  - replace (- 2 * n - 1) with (1 + 2 * (- n - 1)) by lia.
    rewrite Z.even_add_mul_2. simpl Z.even. cbv iota.
    Z.div_mod_to_equations. lia.
  - replace (2 * n) with (0 + 2 * n) by lia.
    rewrite Z.even_add_mul_2. simpl Z.even. cbv iota.
    Z.div_mod_to_equations. lia.
Qed.

(** X4. [readUnsignedVarInt] decodes base 128, least significant group
    first: for a run of at most ten groups carrying the continuation bit
    followed by a byte without it, all within the budget, it returns the
    number the low seven bits of these bytes stand for, truncated to 64
    bits, and consumes exactly these bytes. *)
Theorem readUnsignedVarInt_decodes_base128 d (p : list byte) t rest :
  err d = None ->
  pending (reader d) = p ++ t :: rest ->
  Forall (fun b => Z.land (Int.u8 b) 0x80 <> 0) p ->
  Z.land (Int.u8 t) 0x80 = 0 ->
  (length p < 11)%nat -> Z.of_nat (length p) < remain d ->
  exists d',
    readUnsignedVarInt d = Ok (Int.uint64 (base128 (p ++ [t]))) d' /\
    pending (reader d') = rest /\
    remain d' = remain d - Z.of_nat (S (length p)) /\
    err d' = None.
Proof.
  intros He Hp Hc Ht Hl Hr.
  exists (fill [t] (advance (S (length p)) d)).
  split; [by eapply readUnsignedVarInt_groups|].
  destruct (after_groups d p t rest Hp) as (H1 & H2 & H3).
  by rewrite H3.
Qed.

Lemma readUnsignedVarInt_decodes_base128_witness :
  let d := bound (bytesReader (bytes_of [172; 2; 7])) 3 in
  exists d',
    readUnsignedVarInt d = Ok 300 d' /\
    pending (reader d') = bytes_of [7] /\
    remain d' = remain d - 2 /\ err d' = None.
Proof.
  intros d.
  apply (readUnsignedVarInt_decodes_base128 d (bytes_of [172]) (Int.byte_of_Z 2)
           (bytes_of [7])).
  - reflexivity.
  - reflexivity.
  - repeat constructor. vm_compute. discriminate.
  - reflexivity.
  - simpl. lia.
  - simpl. lia.
Defined.

(** X5. [readVarInt] inverts the zigzag encoding: when the groups read
    stand for [2n] with [n >= 0], or for [-2n-1] with [n < 0], it returns
    the 64-bit integer [n], and consumes exactly these bytes. *)
Theorem readVarInt_decodes_zigzag d (p : list byte) t rest n :
  err d = None ->
  pending (reader d) = p ++ t :: rest ->
  Forall (fun b => Z.land (Int.u8 b) 0x80 <> 0) p ->
  Z.land (Int.u8 t) 0x80 = 0 ->
  (length p < 11)%nat -> Z.of_nat (length p) < remain d ->
  - 2 ^ 63 <= n < 2 ^ 63 ->
  base128 (p ++ [t]) = (if n <? 0 then - 2 * n - 1 else 2 * n) ->
  exists d',
    readVarInt d = Ok n d' /\
    pending (reader d') = rest /\
    remain d' = remain d - Z.of_nat (S (length p)) /\
    err d' = None.
Proof.
  intros He Hp Hc Ht Hl Hr Hn Hv.
  exists (fill [t] (advance (S (length p)) d)). split.
  - rewrite (readVarInt_groups d p t rest) by done.
    by rewrite Hv, zigzag_inverts.
  - destruct (after_groups d p t rest Hp) as (H1 & H2 & H3).
    by rewrite H3.
Qed.

Lemma readVarInt_decodes_zigzag_witness :
  let d := bound (bytesReader (bytes_of [215; 4; 7])) 3 in
  exists d',
    readVarInt d = Ok (-300) d' /\
    pending (reader d') = bytes_of [7] /\
    remain d' = remain d - 2 /\ err d' = None.
Proof.
  intros d.
  apply (readVarInt_decodes_zigzag d (bytes_of [215]) (Int.byte_of_Z 4)
           (bytes_of [7]) (-300)).
  - reflexivity.
  - reflexivity.
  - repeat constructor. vm_compute. discriminate.
  - reflexivity.
  - simpl. lia.
  - simpl. lia.
  - lia.
  - reflexivity.
Defined.

(** ** Copying out of the decoder *)

Lemma copy_error_advance j d :
  (j <= available d)%nat -> 0 <= remain d ->
  copy_error (advance j d) = copy_error d.
Proof.
  intros Hj Hr. unfold copy_error, available in *. simpl.
  rewrite length_drop.
  destruct (Nat.leb_spec (Z.to_nat (remain d)) (length (pending (reader d))));
    destruct (Nat.leb_spec (Z.to_nat (remain d - Z.of_nat j))
                (length (pending (reader d)) - j)); (done || lia).
Qed.

Lemma ioCopy_loop_full bufsize fuel : forall got d,
  (0 < bufsize)%nat -> err d = None -> 0 <= remain d ->
  (Z.to_nat (remain d) < fuel)%nat ->
  ioCopy_loop fuel bufsize got d =
    Ok (got ++ take (available d) (pending (reader d)), copy_error d)
       (advance (available d) d).
Proof.
  induction fuel as [|fuel IH]; intros got d Hb He Hr Hf; [lia|].
  cbn [ioCopy_loop].
  destruct (Z.eq_dec (remain d) 0) as [Hz|Hnz].
  { rewrite (bind_Ok _ _ _ _ _ (Read_exhausted _ _ He Hz)). simpl.
    assert (available d = 0%nat) as -> by (unfold available; lia).
    rewrite advance_0. unfold copy_error. rewrite Hz. done. }
  destruct (decide (pending (reader d) = [])) as [Ep|Hp].
  { rewrite (bind_Ok _ _ _ _ _ (Read_dry _ _ He ltac:(lia) Ep)). simpl.
    assert (available d = 0%nat) as -> by (unfold available; rewrite Ep; simpl; lia).
    rewrite advance_0. unfold copy_error, ret. rewrite Ep. simpl.
    destruct (Nat.leb_spec (Z.to_nat (remain d)) 0); [lia|].
    by destruct (bool_decide (at_end (reader d) = EOF)). }
  rewrite (bind_Ok _ _ _ _ _ (Read_some _ _ He ltac:(lia) Hp)). simpl.
  pose proof (delivered_le bufsize d) as Hle.
  pose proof (delivered_pos bufsize d Hb ltac:(lia) Hp) as Hpos.
  set (j := delivered bufsize d) in *. clearbody j.
  assert (Hj : (j <= Z.to_nat (remain d))%nat) by (unfold available in Hle; lia).
  rewrite (IH (got ++ take j (pending (reader d))) (advance j d));
    [|done|done|simpl; lia|simpl; lia].
  rewrite available_advance, advance_advance, copy_error_advance by lia.
  replace (j + (available d - j))%nat with (available d) by lia.
  f_equal. f_equal. rewrite <- app_assoc. f_equal. simpl.
  rewrite take_take_drop. f_equal. lia.
Qed.

Lemma ioCopy_full bufsize d :
  (0 < bufsize)%nat -> err d = None -> 0 <= remain d ->
  ioCopy bufsize d =
    Ok (take (available d) (pending (reader d)), copy_error d)
       (advance (available d) d).
Proof.
  intros Hb He Hr. unfold ioCopy.
  by rewrite ioCopy_loop_full by (done || lia).
Qed.

Lemma writeTo_enough w n d :
  err d = None -> 0 <= n -> (Z.to_nat n <= available d)%nat ->
  0 <= remain d < 2 ^ 63 ->
  writeTo w n d =
    Ok (w ++ take (Z.to_nat n) (pending (reader d))) (advance (Z.to_nat n) d).
Proof.
  intros He Hn Ha Hr. unfold writeTo.
  set (d0 := if n <? remain d then set_remain n d else d).
  assert (remain d0 = n) as Hr0.
  { unfold d0, available in *. destruct (Z.ltb_spec n (remain d)); simpl; lia. }
  assert (reader d0 = reader d) as Hrd by (unfold d0; by destruct (n <? remain d)).
  assert (err d0 = None) as He0 by (unfold d0; by destruct (n <? remain d)).
  assert (available d0 = Z.to_nat n) as Ha0.
  { unfold available in *. rewrite Hr0, Hrd. lia. }
  assert (copy_error d0 = None) as Hce.
  { unfold copy_error. rewrite Hr0, Hrd. unfold available in Ha.
    destruct (Nat.leb_spec (Z.to_nat n) (length (pending (reader d)))); [done|lia]. }
  rewrite (bind_Ok _ _ _ _ _
             (ioCopy_full (Z.to_nat 32768) d0 ltac:(lia) He0 ltac:(lia))).
  rewrite Ha0, Hce, Hrd. cbn [fst snd].
  assert (length (take (Z.to_nat n) (pending (reader d))) = Z.to_nat n) as Hl
    by (rewrite length_take; unfold available in Ha; lia).
  rewrite Hl, Z2Nat.id by done.
  rewrite int_small by (unfold available in Ha; lia).
  rewrite Z.ltb_irrefl. cbn [andb].
  unfold bind at 1.
  rewrite (bind_Ok _ _ _ _ _ (setError_None _)).
  unfold ret. f_equal.
  unfold d0, advance, set_remain, crc_after.
  destruct (n <? remain d); simpl; f_equal; lia.
Qed.

Lemma copy_error_supplied d : supplied d -> copy_error d = None.
Proof.
  unfold supplied, copy_error. intros Hs.
  by destruct (Nat.leb_spec (Z.to_nat (remain d)) (length (pending (reader d))));
    [|lia].
Qed.

Lemma writeTo_short w n d :
  err d = None -> 0 <= remain d < 2 ^ 63 -> supplied d -> remain d < n ->
  writeTo w n d =
    Ok (w ++ take (Z.to_nat (remain d)) (pending (reader d)))
       (set_err (Some ErrUnexpectedEOF) (advance (Z.to_nat (remain d)) d)).
Proof.
  intros He Hr Hs Hn. unfold writeTo.
  destruct (Z.ltb_spec n (remain d)); [lia|].
  rewrite (bind_Ok _ _ _ _ _
             (ioCopy_full (Z.to_nat 32768) d ltac:(lia) He ltac:(lia))).
  rewrite copy_error_supplied, supplied_available by (done || lia).
  cbn [fst snd].
  assert (length (take (Z.to_nat (remain d)) (pending (reader d)))
          = Z.to_nat (remain d)) as Hl
    by (rewrite length_take; unfold supplied in Hs; lia).
  rewrite Hl, Z2Nat.id by lia.
  rewrite int_small by lia.
  destruct (Z.ltb_spec (remain d) n); [|lia]. cbn [andb bool_decide].
  rewrite bool_decide_eq_true_2 by done.
  unfold bind at 1.
  set (d1 := set_remain _ _).
  assert (err d1 = None) as He1 by done.
  assert (remain d1 = 0) as Hr1 by (unfold d1; simpl; lia).
  pose proof (setError_spec (Some ErrUnexpectedEOF) d1) as Hse.
  rewrite He1, fail_with_exhausted in Hse by done.
  rewrite (bind_Ok _ _ _ _ _ Hse). unfold ret. f_equal.
  unfold d1, advance, set_remain, set_err. simpl. f_equal. lia.
Qed.

(** ** Length-prefixed payloads *)

Lemma read_prefix d (s rest : list byte) :
  err d = None -> pending (reader d) = s ++ rest ->
  Z.of_nat (length s) <= remain d ->
  read (Z.of_nat (length s)) d = Ok s (advance (length s) d) /\
  pending (reader (advance (length s) d)) = rest.
Proof.
  intros He Hp Hr.
  destruct (prefix_available d s rest Hp Hr) as (Ha & Ht & Hd).
  split; [|done].
  rewrite read_ok by (done || lia). by rewrite Nat2Z.id, Ht.
Qed.

Lemma readInt16_prefix d n rest :
  err d = None -> - 2 ^ 15 <= n < 2 ^ 15 -> 2 <= remain d ->
  pending (reader d) = bytes_of [Z.shiftr n 8; n] ++ rest ->
  readInt16 d = Ok n (consumed 2 d) /\ pending (reader (consumed 2 d)) = rest.
Proof.
  intros He Hn Hr Hp.
  destruct (prefix_available d _ _ Hp) as (Ha & Ht & Hd); [simpl; lia|].
  simpl length in *. rewrite readInt16_ok by (done || lia).
  by rewrite Ht, readInt16_big_endian, pending_consumed.
Qed.

Lemma readInt32_prefix d n rest :
  err d = None -> - 2 ^ 31 <= n < 2 ^ 31 -> 4 <= remain d ->
  pending (reader d) =
    bytes_of [Z.shiftr n 24; Z.shiftr n 16; Z.shiftr n 8; n] ++ rest ->
  readInt32 d = Ok n (consumed 4 d) /\ pending (reader (consumed 4 d)) = rest.
Proof.
  intros He Hn Hr Hp.
  destruct (prefix_available d _ _ Hp) as (Ha & Ht & Hd); [simpl; lia|].
  simpl length in *. rewrite readInt32_ok by (done || lia).
  by rewrite Ht, readInt32_big_endian, pending_consumed.
Qed.

(** X6. The classic string and byte-sequence readers return the payload
    their length prefix announces: a big-endian two-byte (string) or
    four-byte (bytes) length [len(s)] followed by the bytes [s], all
    within the budget, is read back as [s], an empty payload as the empty
    string and as an empty slice that is not [nil], and exactly the
    prefix and the payload are consumed. *)
Theorem classic_payload_is_read_back d (s rest : list byte) :
  err d = None ->
  let n := Z.of_nat (length s) in
  (n < 2 ^ 15 -> 2 + n <= remain d ->
   pending (reader d) = bytes_of [Z.shiftr n 8; n] ++ s ++ rest ->
   exists d', readString d = Ok s d' /\ pending (reader d') = rest /\
     remain d' = remain d - (2 + n) /\ err d' = None) /\
  (n < 2 ^ 31 -> 4 + n <= remain d ->
   pending (reader d) =
     bytes_of [Z.shiftr n 24; Z.shiftr n 16; Z.shiftr n 8; n] ++ s ++ rest ->
   exists d', readBytes d = Ok (Some s) d' /\ pending (reader d') = rest /\
     remain d' = remain d - (4 + n) /\ err d' = None).
Proof.
  intros He n. split; intros Hn Hr Hp.
  - destruct (readInt16_prefix d n (s ++ rest)) as (Hrun & Hp1);
      [done|lia|lia|done|].
    destruct (read_prefix (consumed 2 d) s rest) as (Hread & Hp2);
      [done|done|rewrite remain_consumed; lia|].
    exists (advance (length s) (consumed 2 d)).
    unfold readString. rewrite (bind_Ok _ _ _ _ _ Hrun).
    destruct (Z.ltb_spec n 0); [lia|].
    rewrite int_small by lia. fold n in Hread.
    rewrite (bind_Ok _ _ _ _ _ Hread).
    split; [done|]. split; [done|]. split; [simpl; lia|done].
  - destruct (readInt32_prefix d n (s ++ rest)) as (Hrun & Hp1);
      [done|lia|lia|done|].
    destruct (read_prefix (consumed 4 d) s rest) as (Hread & Hp2);
      [done|done|rewrite remain_consumed; lia|].
    exists (advance (length s) (consumed 4 d)).
    unfold readBytes. rewrite (bind_Ok _ _ _ _ _ Hrun).
    destruct (Z.ltb_spec n 0); [lia|].
    rewrite int_small by lia. fold n in Hread.
    rewrite (bind_Ok _ _ _ _ _ Hread).
    split; [done|]. split; [done|]. split; [simpl; lia|done].
Qed.

Lemma classic_payload_is_read_back_witness :
  let d := bound (bytesReader (bytes_of [0; 2; 104; 105; 9])) 5 in
  err d = None /\
  exists d', readString d = Ok (bytes_of [104; 105]) d' /\
    pending (reader d') = bytes_of [9] /\
    remain d' = remain d - (2 + 2) /\ err d' = None.
Proof.
  intros d. split; [reflexivity|].
  apply (proj1 (classic_payload_is_read_back d (bytes_of [104; 105])
                  (bytes_of [9]) eq_refl)).
  - simpl. lia.
  - simpl. lia.
  - reflexivity.
Defined.

(** X7. The compact and the varint-prefixed readers return the payload
    their prefix announces: after an unsigned varint that stands for
    [len(s) + 1] the compact readers, and after a zigzag varint that
    stands for [len(s)] the varint-prefixed readers, read the bytes [s]
    back and consume exactly the prefix and the payload. *)
Theorem varint_prefixed_payload_is_read_back d (p : list byte) t (s rest : list byte) :
  err d = None ->
  pending (reader d) = p ++ t :: s ++ rest ->
  Forall (fun b => Z.land (Int.u8 b) 0x80 <> 0) p ->
  Z.land (Int.u8 t) 0x80 = 0 ->
  (length p < 11)%nat ->
  Z.of_nat (S (length p)) + Z.of_nat (length s) <= remain d < 2 ^ 63 ->
  let d' := advance (length s) (fill [t] (advance (S (length p)) d)) in
  (pending (reader d') = rest /\
   remain d' = remain d - (Z.of_nat (S (length p)) + Z.of_nat (length s)) /\
   err d' = None) /\
  (base128 (p ++ [t]) = Z.of_nat (length s) + 1 ->
   readCompactString d = Ok s d' /\ readCompactBytes d = Ok (Some s) d') /\
  (base128 (p ++ [t]) = 2 * Z.of_nat (length s) ->
   readVarString d = Ok s d' /\ readVarBytes d = Ok (Some s) d').
Proof.
  intros He Hp Hc Ht Hl Hr d'.
  destruct (after_groups d p t (s ++ rest) Hp) as (H1 & H2 & H3).
  set (d1 := fill [t] (advance (S (length p)) d)) in *.
  rewrite He in H3.
  destruct (read_prefix d1 s rest H3 H1) as (Hread & Hp2); [lia|].
  change (2 ^ 63) with 9223372036854775808 in Hr.
  split; [|split].
  - split; [done|]. split; [|done]. unfold d'. simpl. lia.
  - intros Hv.
    pose proof (readUnsignedVarInt_groups d p t (s ++ rest) He Hp Hc Ht Hl
                  ltac:(lia)) as Hrun.
    fold d1 in Hrun. rewrite Hv in Hrun.
    assert (Int.uint64 (Z.of_nat (length s) + 1) = Z.of_nat (length s) + 1) as Hu.
    { unfold Int.uint64, Int.unsigned. apply Z.mod_small.
      change (2 ^ 64) with 18446744073709551616. lia. }
    rewrite Hu in Hrun.
    assert (Int.int (Int.uint64 (Z.of_nat (length s) + 1 - 1))
            = Z.of_nat (length s)) as Hi.
    { replace (Z.of_nat (length s) + 1 - 1) with (Z.of_nat (length s)) by lia.
      unfold Int.uint64, Int.unsigned. rewrite Z.mod_small
        by (change (2 ^ 64) with 18446744073709551616; lia).
      apply int_small. change (2 ^ 63) with 9223372036854775808. lia. }
    unfold readCompactString, readCompactBytes.
    rewrite !(bind_Ok _ _ _ _ _ Hrun).
    destruct (Z.ltb_spec (Z.of_nat (length s) + 1) 1); [lia|].
    rewrite Hi, !(bind_Ok _ _ _ _ _ Hread). done.
  - intros Hv.
    pose proof (readVarInt_groups d p t (s ++ rest) He Hp Hc Ht Hl
                  ltac:(lia)) as Hrun.
    fold d1 in Hrun. rewrite Hv in Hrun.
    pose proof (zigzag_inverts (Z.of_nat (length s))
                  ltac:(change (2 ^ 63) with 9223372036854775808; lia)) as Hz.
    destruct (Z.ltb_spec (Z.of_nat (length s)) 0); [lia|].
    rewrite Hz in Hrun.
    unfold readVarString, readVarBytes.
    rewrite !(bind_Ok _ _ _ _ _ Hrun).
    destruct (Z.ltb_spec (Z.of_nat (length s)) 0); [lia|].
    rewrite int_small by (change (2 ^ 63) with 9223372036854775808; lia).
    rewrite !(bind_Ok _ _ _ _ _ Hread). done.
Qed.

Lemma varint_prefixed_payload_is_read_back_witness :
  let d := bound (bytesReader (bytes_of [3; 104; 105; 9])) 4 in
  readCompactString d = Ok (bytes_of [104; 105])
    (advance 2 (fill [Int.byte_of_Z 3] (advance 1 d))).
Proof.
  intros d.
  apply (proj1 (proj2 (varint_prefixed_payload_is_read_back d []
                         (Int.byte_of_Z 3) (bytes_of [104; 105]) (bytes_of [9])
                         eq_refl eq_refl (Forall_nil_2 _) eq_refl
                         ltac:(simpl; lia) ltac:(simpl; lia)))).
  reflexivity.
Defined.

(** X8. A compact length that does not fit: when the unsigned varint
    prefix is above [2^63], the length [int(n - 1)] is negative and the
    compact string and byte-sequence readers, and the skip of an unknown
    tagged field of that size, panic in [make([]byte, n)]. *)
Theorem compact_length_overflow_panics d n d1 :
  readUnsignedVarInt d = Ok n d1 -> 2 ^ 63 < n < 2 ^ 64 ->
  readCompactString d = Panic d1 /\
  readCompactBytes d = Panic d1 /\
  (forall taggedFields v d0 t,
     readUnsignedVarInt d0 = Ok t d ->
     taggedFields !! Int.int t = None ->
     decodeTaggedField taggedFields v d0 = Panic d1).
Proof.
  intros Hrun Hn.
  change (2 ^ 63) with 9223372036854775808 in Hn.
  change (2 ^ 64) with 18446744073709551616 in Hn.
  assert (Int.int (Int.uint64 (n - 1)) < 0) as Hneg.
  { unfold Int.int, Int.signed, Int.uint64, Int.unsigned. simpl Z.sub.
    change (2 ^ 64) with 18446744073709551616.
    change (2 ^ 63) with 9223372036854775808.
    Z.div_mod_to_equations. lia. }
  assert (Int.int n < 0) as Hneg'.
  { unfold Int.int, Int.signed. simpl Z.sub.
    change (2 ^ 64) with 18446744073709551616.
    change (2 ^ 63) with 9223372036854775808.
    Z.div_mod_to_equations. lia. }
  split; [|split].
  - unfold readCompactString. rewrite (bind_Ok _ _ _ _ _ Hrun).
    destruct (Z.ltb_spec n 1); [lia|].
    by rewrite (bind_Panic _ _ _ _ (read_negative _ d1 Hneg)).
  - unfold readCompactBytes. rewrite (bind_Ok _ _ _ _ _ Hrun).
    destruct (Z.ltb_spec n 1); [lia|].
    by rewrite (bind_Panic _ _ _ _ (read_negative _ d1 Hneg)).
  - intros taggedFields v d0 t Ht Hnone. unfold decodeTaggedField.
    rewrite (bind_Ok _ _ _ _ _ Ht), (bind_Ok _ _ _ _ _ Hrun), Hnone.
    by rewrite (bind_Panic _ _ _ _ (read_negative _ d1 Hneg')).
Qed.

Lemma compact_length_overflow_panics_witness :
  let d := bound (bytesReader
             (bytes_of [255; 255; 255; 255; 255; 255; 255; 255; 255; 1; 7])) 11 in
  exists d1, readCompactString d = Panic d1 /\ remain d1 = 1.
Proof.
  intros d.
  exists (final (readUnsignedVarInt d)). split; [|reflexivity].
  apply (proj1 (compact_length_overflow_panics d (2 ^ 64 - 1)
                  (final (readUnsignedVarInt d)) ltac:(vm_compute; reflexivity)
                  ltac:(lia))).
Defined.

(** X9. [writeTo(w, n)] with [n >= 0] hands the writer what [read(n)]
    returns: when [n] bytes are available it appends exactly the next
    [n] bytes to [w], in however many pieces the source delivers them,
    restores the budget to what is left of the frame and ends in the
    decoder [read(n)] ends in; when the frame holds fewer than [n] bytes
    it appends what is left of the frame and latches
    [io.ErrUnexpectedEOF] with the budget at zero. *)
Theorem writeTo_copies_the_next_bytes w n d :
  err d = None -> 0 <= n -> 0 <= remain d < 2 ^ 63 ->
  ((Z.to_nat n <= available d)%nat ->
   writeTo w n d =
     Ok (w ++ take (Z.to_nat n) (pending (reader d))) (advance (Z.to_nat n) d) /\
   writeTo w n d = (let* b := read n in ret (w ++ b)) d) /\
  (supplied d -> remain d < n ->
   writeTo w n d =
     Ok (w ++ take (Z.to_nat (remain d)) (pending (reader d)))
        (set_err (Some ErrUnexpectedEOF) (advance (Z.to_nat (remain d)) d))).
Proof.
  intros He Hn Hr. split.
  - intros Ha. split; [by apply writeTo_enough|].
    rewrite writeTo_enough by done.
    by rewrite (bind_Ok _ _ _ _ _ (read_ok n d He ltac:(lia) Hn Ha)).
  - intros Hs Hlt. by apply writeTo_short.
Qed.

Lemma writeTo_copies_the_next_bytes_witness :
  let d := bound (bytesReader (bytes_of [1; 2; 3; 4; 5])) 5 in
  writeTo (bytes_of [9]) 3 d = Ok (bytes_of [9; 1; 2; 3]) (advance 3 d).
Proof.
  intros d.
  apply (proj1 (proj1 (writeTo_copies_the_next_bytes (bytes_of [9]) 3 d
                         eq_refl ltac:(lia) ltac:(simpl; lia))
                      ltac:(vm_compute; lia))).
Defined.

(** ** The readers that copy into a writer *)

Lemma readByte_within d :
  0 <= remain d -> exists x d', readByte d = Ok x d' /\ within d d'.
Proof.
  intros Hr. unfold readByte.
  destruct (readFull_within 1 d Hr) as (ok & d1 & Hrun & Hw).
  rewrite (bind_Ok _ _ _ _ _ Hrun). destruct ok; eauto.
Qed.

Lemma varint_loop_within finish failure n : forall x s d,
  0 <= remain d ->
  exists a d', varint_loop finish failure n x s d = Ok a d' /\ within d d'.
Proof.
  induction n as [|n IH]; intros x s d Hr; cbn [varint_loop].
  - destruct (setError_within (Some failure) d Hr) as (d' & Hrun & Hw).
    rewrite (bind_Ok _ _ _ _ _ Hrun). eauto.
  - destruct (readByte_within d Hr) as (b & d1 & Hrun & Hw).
    rewrite (bind_Ok _ _ _ _ _ Hrun).
    destruct (Z.land (Int.u8 b) 128 =? 0); [eauto|].
    destruct (IH (or_shifted x (Z.land (Int.u8 b) 127) s) (s + 7) d1
                (within_nonneg _ _ Hw)) as (a & d' & Hrun' & Hw').
    exists a, d'. split; [done|by eapply within_trans].
Qed.

(** What [read] has done when it ends without error. *)
Lemma read_without_error n d b d' :
  0 <= remain d -> read n d = Ok b d' -> err d' = None ->
  0 <= n /\ err d = None /\ (Z.to_nat n <= available d)%nat /\
  b = take (Z.to_nat n) (pending (reader d)) /\ d' = advance (Z.to_nat n) d.
Proof.
  intros Hr Hrun He'.
  destruct (Z.lt_ge_cases n 0) as [Hneg|Hn].
  { by rewrite read_negative in Hrun. }
  destruct (err d) as [e|] eqn:He.
  { rewrite (read_failed n d e He Hn) in Hrun. congruence. }
  destruct (Nat.le_gt_cases (Z.to_nat n) (available d)) as [Ha|Ha].
  - rewrite read_ok in Hrun by (done || lia). inversion Hrun. by subst.
  - rewrite read_short in Hrun by (done || lia). inversion Hrun; subst.
    by rewrite err_fail_with in He'.
Qed.

Lemma writeTo_after_read w n d b d' :
  0 <= remain d < 2 ^ 63 -> read n d = Ok b d' -> err d' = None ->
  (let* w' := writeTo w n in
   fun d => Ok (w', bool_decide (err d = None)) d) d = Ok (w ++ b, true) d'.
Proof.
  intros Hr Hrun He'.
  destruct (read_without_error n d b d' ltac:(lia) Hrun He')
    as (Hn & He & Ha & -> & ->).
  rewrite (bind_Ok _ _ _ _ _ (writeTo_enough w n d He Hn Ha Hr)).
  by rewrite bool_decide_eq_true_2.
Qed.

(** X10. The readers that copy into a writer agree with the readers
    that return a slice: whenever [readBytes], [readVarBytes] or
    [readCompactBytes] returns a slice that is not [nil] without an
    error, [readBytesTo], [readVarBytesTo] or [readCompactBytesTo]
    appends exactly that slice to the writer, returns [true] and ends in
    the same decoder. *)
Theorem readers_into_a_writer_agree w d b d' :
  0 <= remain d < 2 ^ 63 -> err d' = None ->
  (readBytes d = Ok (Some b) d' -> readBytesTo w d = Ok (w ++ b, true) d') /\
  (readVarBytes d = Ok (Some b) d' -> readVarBytesTo w d = Ok (w ++ b, true) d') /\
  (readCompactBytes d = Ok (Some b) d' ->
   readCompactBytesTo w d = Ok (w ++ b, true) d').
Proof.
  intros Hr He'. split; [|split]; intros Hrun.
  - unfold readBytes in Hrun. unfold readBytesTo.
    apply bind_Ok_inv in Hrun as (n & d1 & Hn & Hk).
    destruct (readInt32_within d ltac:(lia)) as (n' & d1' & Hn' & Hw).
    rewrite Hn in Hn'. inversion Hn'; subst n' d1'.
    rewrite (bind_Ok _ _ _ _ _ Hn).
    destruct (n <? 0); [done|].
    apply bind_Ok_inv in Hk as (b' & d2 & Hread & Hret).
    inversion Hret; subst b' d2.
    apply writeTo_after_read; [|done|done].
    pose proof (within_nonneg _ _ Hw). pose proof (within_le _ _ Hw). lia.
  - unfold readVarBytes in Hrun. unfold readVarBytesTo.
    apply bind_Ok_inv in Hrun as (n & d1 & Hn & Hk).
    destruct (varint_loop_within zigzag ErrVarInt
                (Z.to_nat (varint_groups d)) 0 0 d ltac:(lia))
      as (n' & d1' & Hn' & Hw).
    change (readVarInt d = Ok n' d1') in Hn'.
    rewrite Hn in Hn'. inversion Hn'; subst n' d1'.
    rewrite (bind_Ok _ _ _ _ _ Hn).
    destruct (n <? 0); [done|].
    apply bind_Ok_inv in Hk as (b' & d2 & Hread & Hret).
    inversion Hret; subst b' d2.
    apply writeTo_after_read; [|done|done].
    pose proof (within_nonneg _ _ Hw). pose proof (within_le _ _ Hw). lia.
  - unfold readCompactBytes in Hrun. unfold readCompactBytesTo.
    apply bind_Ok_inv in Hrun as (n & d1 & Hn & Hk).
    destruct (varint_loop_within (fun x => x) ErrUnsignedVarInt
                (Z.to_nat (varint_groups d)) 0 0 d ltac:(lia))
      as (n' & d1' & Hn' & Hw).
    change (readUnsignedVarInt d = Ok n' d1') in Hn'.
    rewrite Hn in Hn'. inversion Hn'; subst n' d1'.
    rewrite (bind_Ok _ _ _ _ _ Hn).
    destruct (n <? 1); [done|].
    apply bind_Ok_inv in Hk as (b' & d2 & Hread & Hret).
    inversion Hret; subst b' d2.
    apply writeTo_after_read; [|done|done].
    pose proof (within_nonneg _ _ Hw). pose proof (within_le _ _ Hw). lia.
Qed.

Lemma readers_into_a_writer_agree_witness :
  let d := bound (bytesReader (bytes_of [0; 0; 0; 2; 104; 105; 9])) 7 in
  readBytesTo (bytes_of [1]) d
    = Ok (bytes_of [1; 104; 105], true) (advance 2 (consumed 4 d)).
Proof.
  intros d.
  apply (proj1 (readers_into_a_writer_agree (bytes_of [1]) d
                  (bytes_of [104; 105]) (advance 2 (consumed 4 d))
                  ltac:(simpl; lia) eq_refl)).
  reflexivity.
Defined.

(** ** Skipping bytes *)

(** X11. [discard(n)] on a decoder without error whose source holds the
    rest of the frame.  Through the [Discard] method of the source it
    skips [min(n, d.remain)] bytes and leaves the checksum as it was;
    through the fallback, for a source without [Discard], it copies out
    the whole rest of the frame whatever [n] is, and the checksum covers
    the bytes skipped.  [discardAll] therefore ends at the end of the
    frame with either kind of source. *)
Theorem discard_without_error n d :
  err d = None -> 0 <= n -> 0 <= remain d -> supplied d ->
  (has_discard (reader d) = true ->
   exists d',
     discard n d = Ok tt d' /\
     pending (reader d')
       = drop (Z.to_nat (Z.min n (remain d))) (pending (reader d)) /\
     remain d' = remain d - Z.min n (remain d) /\
     crc32 d' = crc32 d /\ err d' = None) /\
  (has_discard (reader d) = false ->
   discard n d = Ok tt (advance (Z.to_nat (remain d)) d)) /\
  (exists d',
     discardAll d = Ok tt d' /\
     pending (reader d') = drop (Z.to_nat (remain d)) (pending (reader d)) /\
     remain d' = 0 /\ err d' = None).
Proof.
  intros He Hn Hr Hs.
  assert (forall m, 0 <= m ->
            has_discard (reader d) = true ->
            exists d',
              discard m d = Ok tt d' /\
              pending (reader d')
                = drop (Z.to_nat (Z.min m (remain d))) (pending (reader d)) /\
              remain d' = remain d - Z.min m (remain d) /\
              crc32 d' = crc32 d /\ err d' = None) as Hskip.
  { intros m Hm Hd. unfold discard, discard_with. rewrite Hd.
    rewrite Z.gtb_ltb.
    assert ((if remain d <? m then remain d else m) = Z.min m (remain d)) as ->
      by (destruct (Z.ltb_spec (remain d) m); lia).
    set (k := Z.min m (remain d)).
    assert (0 <= k <= remain d) as Hk by (unfold k; lia).
    unfold src_discard.
    destruct (Z.ltb_spec k 0); [lia|].
    unfold supplied in Hs.
    assert (Nat.min (Z.to_nat k) (length (pending (reader d))) = Z.to_nat k)
      as -> by lia.
    rewrite Z2Nat.id by lia. rewrite Z.ltb_irrefl.
    rewrite setError_None. eexists. split; [done|]. by simpl. }
  assert (has_discard (reader d) = false ->
          discard n d = Ok tt (advance (Z.to_nat (remain d)) d)) as Hcopy.
  { intros Hd. unfold discard, discard_with. rewrite Hd.
    rewrite (bind_Ok _ _ _ _ _
               (ioCopy_full (Z.to_nat 8192) d ltac:(lia) He Hr)).
    rewrite copy_error_supplied, supplied_available by done.
    apply setError_None. }
  split; [by apply Hskip|]. split; [done|].
  unfold discardAll. destruct (has_discard (reader d)) eqn:Hd.
  - destruct (Hskip (remain d) Hr eq_refl) as (d' & Hrun & Hp & Hrem & _ & He').
    exists d'. rewrite Z.min_id in *. repeat split; (done || lia).
  - unfold discard, discard_with. rewrite Hd.
    rewrite (bind_Ok _ _ _ _ _
               (ioCopy_full (Z.to_nat 8192) d ltac:(lia) He Hr)).
    rewrite copy_error_supplied, supplied_available by done.
    rewrite setError_None. eexists. split; [done|]. simpl.
    repeat split; (done || lia).
Qed.

Lemma discard_without_error_witness :
  let d := bound (bytesReader (bytes_of [1; 2; 3; 4; 5])) 4 in
  discard 1 d = Ok tt (advance 4 d).
Proof.
  intros d.
  apply (proj1 (proj2 (discard_without_error 1 d eq_refl ltac:(lia)
                         ltac:(simpl; lia) ltac:(vm_compute; lia)))).
  reflexivity.
Defined.

(** ** Checksums over split reads *)

(** X12. The checksum covers exactly the bytes consumed, however the
    reads are split: after [setCRC(table)] a [read(n)] that finds its
    bytes leaves the CRC-32 of these [n] bytes, and a [read(n1)]
    followed by a [read(n2)] returns the bytes, and ends in the decoder,
    checksum included, of one [read(n1 + n2)]. *)
Theorem checksum_covers_the_bytes_consumed t n1 n2 d :
  err d = None -> 0 <= remain d -> 0 <= n1 -> 0 <= n2 ->
  (Z.to_nat (n1 + n2) <= available d)%nat ->
  let bs := take (Z.to_nat (n1 + n2)) (pending (reader d)) in
  read (n1 + n2) (setCRC t d) = Ok bs (advance (Z.to_nat (n1 + n2)) (setCRC t d)) /\
  crc32 (advance (Z.to_nat (n1 + n2)) (setCRC t d)) = Crc32.Update 0 t bs /\
  (let* a := read n1 in let* b := read n2 in ret (a ++ b)) d
    = read (n1 + n2) d.
Proof.
  intros He Hr Hn1 Hn2 Ha bs.
  split; [|split].
  - by rewrite read_ok by (done || lia).
  - done.
  - rewrite (read_ok (n1 + n2) d) by (done || lia).
    rewrite (bind_Ok _ _ _ _ _ (read_ok n1 d He Hr Hn1 ltac:(lia))).
    assert (Z.to_nat n2 <= available (advance (Z.to_nat n1) d))%nat as Ha2
      by (rewrite available_advance by lia; lia).
    rewrite (bind_Ok _ _ _ _ _
               (read_ok n2 (advance (Z.to_nat n1) d) He
                  ltac:(simpl; unfold available in Ha; lia) Hn2 Ha2)).
    unfold ret. rewrite advance_advance. simpl.
    rewrite take_take_drop, Z2Nat.inj_add by done. done.
Qed.

Lemma checksum_covers_the_bytes_consumed_witness :
  let d := bound (bytesReader (bytes_of [1; 2; 3; 4; 5])) 5 in
  (let* a := read 1 in let* b := read 2 in ret (a ++ b)) d = read (1 + 2) d.
Proof.
  intros d.
  apply (proj2 (proj2 (checksum_covers_the_bytes_consumed 0 1 2 d eq_refl
                         ltac:(simpl; lia) ltac:(lia) ltac:(lia)
                         ltac:(vm_compute; lia)))).
Defined.

(** ** Invariants of the compiled plans

    A property of the decoder that [readFull], [read], [setError] and
    the custom codecs keep is kept by every compiled plan, because a
    plan touches the decoder through these alone. *)

Lemma keeps_ret P {A} (a : A) : keeps P (ret a).
Proof. by intros d Hd. Qed.

Lemma keeps_panic P {A} : keeps P (@panic A).
Proof. by intros d Hd. Qed.

Lemma keeps_bind P {A B} (m : M A) (k : A -> M B) :
  keeps P m -> (forall a, keeps P (k a)) -> keeps P (bind m k).
Proof.
  intros Hm Hk d Hd. specialize (Hm d Hd). unfold bind.
  destruct (m d) as [a d'|d'|d']; [by apply Hk|done|done].
Qed.

Lemma keeps_pure P {A} (f : decoder -> A) : keeps P (fun d => Ok (f d) d).
Proof. by intros d Hd. Qed.

Section PlanInvariant.

Variable P : decoder -> Prop.
Variable ReadFrom : nat -> val -> M (val * option error).
Hypothesis keeps_readFull : forall k, keeps P (readFull k).
Hypothesis keeps_read : forall n, keeps P (read n).
Hypothesis keeps_setError : forall e, keeps P (setError e).
Hypothesis keeps_ReadFrom : forall name v, keeps P (ReadFrom name v).

Lemma keeps_fixed (k : nat) (conv : decoder -> Z) :
  keeps P (let* ok := readFull k in
           if ok then (fun d => Ok (conv d) d) else ret 0).
Proof.
  apply keeps_bind; [done|]. intros [|]; [apply keeps_pure|apply keeps_ret].
Qed.

Lemma keeps_readByte : keeps P readByte.
Proof.
  apply keeps_bind; [done|]. intros [|]; [apply keeps_pure|apply keeps_ret].
Qed.

Lemma keeps_varint_loop finish failure n : forall x s,
  keeps P (varint_loop finish failure n x s).
Proof.
  induction n as [|n IH]; intros x s; cbn [varint_loop].
  - apply keeps_bind; [done|]. intros _. apply keeps_ret.
  - apply keeps_bind; [apply keeps_readByte|]. intros b.
    destruct (Z.land (Int.u8 b) 128 =? 0); [apply keeps_ret|apply IH].
Qed.

Lemma keeps_readUnsignedVarInt : keeps P readUnsignedVarInt.
Proof. intros d. apply keeps_varint_loop. Qed.

Lemma keeps_decodeElems f :
  (forall v, keeps P (f v)) ->
  forall count i a, keeps P (decodeElems f count i a).
Proof.
  intros Hf. induction count as [|count IH]; intros i a; cbn [decodeElems].
  { apply keeps_ret. }
  intros d Hd. destruct (remain d >? 0); [|done].
  destruct (a !! i) as [x|]; [|done].
  revert d Hd. apply keeps_bind; [apply Hf|]. intros x'. apply IH.
Qed.

Lemma keeps_makeArray elem n : keeps P (makeArray elem n).
Proof. unfold makeArray. destruct (n <? 0); [apply keeps_panic|apply keeps_ret]. Qed.

Lemma keeps_decodeArray elem f :
  (forall v, keeps P (f v)) -> forall v, keeps P (decodeArray elem f v).
Proof.
  intros Hf v. unfold decodeArray.
  apply keeps_bind; [apply (keeps_fixed 4)|]. intros n.
  destruct (n <? 0); [apply keeps_ret|].
  apply keeps_bind; [apply keeps_makeArray|]. intros a.
  apply keeps_bind; [by apply keeps_decodeElems|]. intros a'. apply keeps_ret.
Qed.

Lemma keeps_decodeCompactArray elem f :
  (forall v, keeps P (f v)) -> forall v, keeps P (decodeCompactArray elem f v).
Proof.
  intros Hf v. unfold decodeCompactArray.
  apply keeps_bind; [apply keeps_readUnsignedVarInt|]. intros n.
  destruct (n <? 1); [apply keeps_ret|].
  apply keeps_bind; [apply keeps_makeArray|]. intros a.
  apply keeps_bind; [by apply keeps_decodeElems|]. intros a'. apply keeps_ret.
Qed.

Lemma keeps_decodeField g :
  (forall v, keeps P (decode g v)) -> forall v, keeps P (decodeField g v).
Proof.
  intros Hg v. unfold decodeField.
  destruct v; try apply keeps_panic.
  destruct (_ !! _); [|apply keeps_panic].
  apply keeps_bind; [apply Hg|]. intros x. apply keeps_ret.
Qed.

Lemma keeps_decodeFields fields :
  Forall (fun g => forall v, keeps P (decode g v)) fields ->
  forall v, keeps P (decodeFields fields v).
Proof.
  induction 1 as [|g fields Hg _ IH]; intros v; cbn [decodeFields].
  { apply keeps_ret. }
  apply keeps_bind; [by apply keeps_decodeField|]. apply IH.
Qed.

Lemma keeps_decodeTaggedField (taggedFields : gmap Z field) :
  map_Forall (fun _ g => forall v, keeps P (decode g v)) taggedFields ->
  forall v, keeps P (decodeTaggedField taggedFields v).
Proof.
  intros Ht v. unfold decodeTaggedField.
  apply keeps_bind; [apply keeps_readUnsignedVarInt|]. intros t.
  apply keeps_bind; [apply keeps_readUnsignedVarInt|]. intros s.
  destruct (taggedFields !! Int.int t) as [g|] eqn:Hg.
  - apply keeps_decodeField. by apply (Ht _ _ Hg).
  - apply keeps_bind; [done|]. intros _. apply keeps_ret.
Qed.

Lemma keeps_decodeTaggedFields (taggedFields : gmap Z field) n :
  map_Forall (fun _ g => forall v, keeps P (decode g v)) taggedFields ->
  forall v, keeps P (decodeTaggedFields taggedFields n v).
Proof.
  intros Ht. induction n as [|n IH]; intros v; cbn [decodeTaggedFields].
  { apply keeps_ret. }
  apply keeps_bind; [by apply keeps_decodeTaggedField|]. apply IH.
Qed.

Lemma keeps_structDecode fields (taggedFields : gmap Z field) flexible :
  Forall (fun g => forall v, keeps P (decode g v)) fields ->
  map_Forall (fun _ g => forall v, keeps P (decode g v)) taggedFields ->
  forall v, keeps P (structDecode fields taggedFields flexible v).
Proof.
  intros Hf Ht v. unfold structDecode.
  apply keeps_bind; [by apply keeps_decodeFields|]. intros v'.
  destruct flexible; [|apply keeps_ret].
  apply keeps_bind; [apply keeps_readUnsignedVarInt|]. intros n.
  by apply keeps_decodeTaggedFields.
Qed.

Lemma keeps_readerDecodeFuncOf name v :
  keeps P (readerDecodeFuncOf ReadFrom name v).
Proof.
  intros d Hd. unfold readerDecodeFuncOf. destruct (err d); [done|].
  revert d Hd. apply keeps_bind; [done|]. intros r.
  destruct r.2; [|apply keeps_ret].
  apply keeps_bind; [done|]. intros _. apply keeps_ret.
Qed.

Lemma keeps_length_prefixed {B} (len : M Z) (none : B) (some : list byte -> B)
    (absent : Z -> bool) (size : Z -> Z) :
  keeps P len ->
  keeps P (let* n := len in
           if absent n then ret none
           else let* b := read (size n) in ret (some b)).
Proof.
  intros Hl. apply keeps_bind; [done|]. intros n.
  destruct (absent n); [apply keeps_ret|].
  apply keeps_bind; [done|]. intros b. apply keeps_ret.
Qed.

Lemma keeps_decodeFuncOf typ : forall version flexible tag f,
  decodeFuncOf ReadFrom typ version flexible tag = Some f ->
  forall v, keeps P (f v).
Proof.
  induction typ as [| | | | | | |fs IH|elem IH|name|] using type_induction;
    intros version flexible tag f Hf v.
  - inversion Hf. apply keeps_bind; [|intros; apply keeps_ret].
    apply keeps_bind; [apply keeps_readByte|intros; apply keeps_ret].
  - inversion Hf. apply keeps_bind; [apply (keeps_fixed 1)|intros; apply keeps_ret].
  - inversion Hf. apply keeps_bind; [apply (keeps_fixed 2)|intros; apply keeps_ret].
  - inversion Hf. apply keeps_bind; [apply (keeps_fixed 4)|intros; apply keeps_ret].
  - inversion Hf. apply keeps_bind; [apply (keeps_fixed 8)|intros; apply keeps_ret].
  - inversion Hf. unfold stringDecodeFuncOf. destruct flexible.
    + apply keeps_bind; [|intros; apply keeps_ret].
      apply (keeps_length_prefixed (B := list byte) readUnsignedVarInt [] bytesToString
               (fun n => n <? 1) (fun n => Int.int (Int.uint64 (n - 1)))).
      apply keeps_readUnsignedVarInt.
    + apply keeps_bind; [|intros; apply keeps_ret].
      apply (keeps_length_prefixed (B := list byte) readInt16 [] bytesToString
               (fun n => n <? 0) Int.int).
      apply (keeps_fixed 2).
  - done.
  - rewrite decodeFuncOf_Struct in Hf. unfold structDecodeFuncOf in Hf.
    destruct (collectFields _ _ _ _ _ _) as [acc|] eqn:Hc; [|done].
    inversion Hf.
    destruct (collectFields_invariant ReadFrom
                (fun g => forall v, keeps P (decode g v))
                version flexible fs O ([], ∅) acc Hc) as [H1 H2].
    + done.
    + apply map_Forall_empty.
    + intros g (j & t & tags & tg & Hj & Hi & _ & Hd & _).
      rewrite Forall_lookup in IH. by eapply (IH j (t, tags)).
    + by apply keeps_structDecode.
  - destruct (Uint8_or_not elem) as [->|Hne].
    { inversion Hf. unfold bytesDecodeFuncOf. destruct flexible.
      + apply keeps_bind; [|intros; apply keeps_ret].
        apply (keeps_length_prefixed readUnsignedVarInt None Some
                 (fun n => n <? 1) (fun n => Int.int (Int.uint64 (n - 1)))).
        apply keeps_readUnsignedVarInt.
      + apply keeps_bind; [|intros; apply keeps_ret].
        apply (keeps_length_prefixed readInt32 None Some
                 (fun n => n <? 0) Int.int).
        apply (keeps_fixed 4). }
    rewrite decodeFuncOf_Slice in Hf by done. unfold arrayDecodeFuncOf in Hf.
    destruct (decodeFuncOf _ elem _ _ _) as [ef|] eqn:He; [|done].
    inversion Hf. destruct flexible.
    + apply keeps_decodeCompactArray. by eapply IH.
    + apply keeps_decodeArray. by eapply IH.
  - inversion Hf. apply keeps_readerDecodeFuncOf.
  - done.
Qed.

End PlanInvariant.

(** ** Every plan stays within the frame *)

Lemma keeps_within_readFull d0 k : keeps (within d0) (readFull k).
Proof.
  intros d Hd.
  destruct (readFull_within k d (within_nonneg _ _ Hd)) as (ok & d' & -> & Hw).
  by eapply within_trans.
Qed.

Lemma keeps_within_read d0 n : keeps (within d0) (read n).
Proof.
  intros d Hd. destruct (Z.lt_ge_cases n 0) as [Hn|Hn].
  { by rewrite read_negative. }
  destruct (read_within n d Hn (within_nonneg _ _ Hd)) as (b & d' & -> & Hw).
  by eapply within_trans.
Qed.

Lemma keeps_within_setError d0 e : keeps (within d0) (setError e).
Proof.
  intros d Hd.
  destruct (setError_within e d (within_nonneg _ _ Hd)) as (d' & -> & Hw).
  by eapply within_trans.
Qed.

Lemma keeps_within_ReadFrom ReadFrom d0 name v :
  wellbehaved ReadFrom -> keeps (within d0) (ReadFrom name v).
Proof.
  intros Hwb d Hd.
  destruct (Hwb name v d (within_nonneg _ _ Hd)) as (r & d' & -> & Hw).
  by eapply within_trans.
Qed.

(** X13. No compiled plan, classic or flexible, reads beyond the frame
    or overdraws the budget: on any destination and any decoder with a
    budget that is not negative, and whether the plan returns or
    panics, the source has moved forward by exactly as many bytes as the
    budget has shrunk and the budget is not negative (the custom codecs
    being assumed to stay within the frame themselves). *)
Theorem plans_stay_within_the_frame
    (ReadFrom : nat -> val -> M (val * option error))
    typ version flexible tag f v d :
  wellbehaved ReadFrom ->
  decodeFuncOf ReadFrom typ version flexible tag = Some f ->
  0 <= remain d ->
  within d (final (f v d)).
Proof.
  intros Hwb Hf Hr.
  apply (keeps_decodeFuncOf (within d) ReadFrom
           (keeps_within_readFull d) (keeps_within_read d)
           (keeps_within_setError d)
           (fun name v => keeps_within_ReadFrom ReadFrom d name v Hwb)
           typ version flexible tag f Hf v d).
  by apply within_refl.
Qed.

Lemma plans_stay_within_the_frame_witness :
  let d := bound (bytesReader (bytes_of [7; 1; 9; 3; 1; 2; 3; 99])) 8 in
  within d
    (final (structDecode [{| decode := decodeInt8; index := 0; tagID := -2 |}]
              {[ 5 := {| decode := decodeInt16; index := 1; tagID := 5 |} ]} true
              (VStruct [VInt8 0; VInt16 0]) d)).
Proof.
  intros d.
  apply (plans_stay_within_the_frame noReadFrom (reflect.Struct scenarioB) 0 true
           rootTag _ (VStruct [VInt8 0; VInt16 0]) d noReadFrom_wellbehaved).
  - reflexivity.
  - simpl. lia.
Defined.

(** ** A failed decode over a source with [Discard] *)

Lemma framed_supplied d0 d : supplied d0 -> within d0 d -> supplied d.
Proof.
  unfold supplied. intros Hs (k & Hp & Hr & Hn). rewrite Hp, length_drop. lia.
Qed.

Lemma has_discard_drained d :
  has_discard (reader (drained d)) = has_discard (reader d).
Proof.
  unfold drained. destruct (has_discard (reader d)) eqn:Hd; [|done].
  unfold src_discard. by destruct (remain d <? 0).
Qed.

Lemma remain_drained d :
  has_discard (reader d) = true -> 0 <= remain d -> supplied d ->
  remain (drained d) = 0.
Proof.
  intros Hd Hr Hs. unfold drained. rewrite Hd. unfold src_discard, supplied in *.
  destruct (Z.ltb_spec (remain d) 0); [lia|]. simpl. lia.
Qed.

Lemma framed_fail_with d0 d e :
  supplied d0 -> framed d0 d -> framed d0 (fail_with e d).
Proof.
  intros Hs (Hd & Hw & Hz). unfold framed, fail_with.
  rewrite has_discard_drained. split; [done|]. split.
  - eapply within_trans; [done|].
    apply (within_drained (set_err (Some e) d)), (within_nonneg _ _ Hw).
  - intros _. apply remain_drained; [done|apply (within_nonneg _ _ Hw)|].
    by apply (framed_supplied d0 d).
Qed.

Lemma framed_advance d0 d k :
  framed d0 d -> err d = None -> (k <= available d)%nat ->
  framed d0 (advance k d) /\ framed d0 (consumed k d).
Proof.
  intros (Hd & Hw & Hz) He Hk.
  pose proof (within_nonneg _ _ Hw) as Hr.
  split; (split; [done|]; split;
    [eapply within_trans; [done|]|simpl; by rewrite He]).
  - by apply within_advance.
  - by apply within_consumed.
Qed.

Section Framed.

Variable d0 : decoder.
Hypothesis d0_supplied : supplied d0.

Lemma keeps_framed_readFull k : keeps (framed d0) (readFull k).
Proof.
  intros d Hd. pose proof Hd as (_ & Hw & _).
  pose proof (within_nonneg _ _ Hw) as Hr.
  destruct (err d) as [e|] eqn:He.
  { by rewrite (readFull_failed k d e He). }
  destruct (Nat.le_gt_cases k (available d)) as [Hk|Hk].
  - rewrite readFull_ok by done. by apply framed_advance.
  - rewrite readFull_short by done. apply framed_fail_with; [done|].
    by apply framed_advance.
Qed.

Lemma keeps_framed_read n : keeps (framed d0) (read n).
Proof.
  intros d Hd. pose proof Hd as (_ & Hw & _).
  pose proof (within_nonneg _ _ Hw) as Hr.
  destruct (Z.lt_ge_cases n 0) as [Hn|Hn].
  { by rewrite read_negative. }
  destruct (err d) as [e|] eqn:He.
  { by rewrite (read_failed n d e He Hn). }
  destruct (Nat.le_gt_cases (Z.to_nat n) (available d)) as [Hk|Hk].
  - rewrite read_ok by done. by apply framed_advance.
  - rewrite read_short by done. apply framed_fail_with; [done|].
    by apply framed_advance.
Qed.

Lemma keeps_framed_setError e : keeps (framed d0) (setError e).
Proof.
  intros d Hd. rewrite setError_spec. simpl.
  destruct (err d); [done|]. destruct e; [|done].
  by apply framed_fail_with.
Qed.

End Framed.

(** X14. Over a source with [Discard] that holds the frame, a decode
    that fails ends at the end of the frame: when any compiled plan,
    classic or flexible, started without error, ends with an error
    latched, the budget is zero and the source stands exactly at the
    first byte after the frame (the custom codecs being assumed to keep
    this themselves). *)
Theorem failed_decode_ends_at_the_end_of_the_frame
    (ReadFrom : nat -> val -> M (val * option error))
    typ version flexible tag f v d :
  (forall name v, keeps (framed d) (ReadFrom name v)) ->
  decodeFuncOf ReadFrom typ version flexible tag = Some f ->
  has_discard (reader d) = true -> clean d ->
  err (final (f v d)) <> None ->
  remain (final (f v d)) = 0 /\
  pending (reader (final (f v d)))
    = drop (Z.to_nat (remain d)) (pending (reader d)).
Proof.
  intros HRF Hf Hd (He & Hr & Hs) Herr.
  assert (framed d (final (f v d))) as (_ & (k & Hp & Hk & _) & Hz).
  { apply (keeps_decodeFuncOf (framed d) ReadFrom
             (keeps_framed_readFull d Hs) (keeps_framed_read d Hs)
             (keeps_framed_setError d Hs) HRF
             typ version flexible tag f Hf v d).
    split; [done|]. split; [by apply within_refl|]. by rewrite He. }
  specialize (Hz Herr). split; [done|].
  rewrite Hp. f_equal. lia.
Qed.

Lemma failed_decode_ends_at_the_end_of_the_frame_witness :
  let d := bound (bufioReader (bytes_of [0; 0; 0; 7; 0; 5; 65; 1; 2; 3])) 7 in
  let d' := final (structDecode
                     [{| decode := decodeInt32; index := 0; tagID := -2 |};
                      {| decode := decodeString; index := 1; tagID := -2 |}]
                     ∅ false (zero scenarioA) d) in
  err d' <> None /\
  remain d' = 0 /\ pending (reader d') = bytes_of [1; 2; 3].
Proof.
  intros d d'.
  assert (err d' <> None) as Herr by (vm_compute; discriminate).
  split; [done|].
  apply (failed_decode_ends_at_the_end_of_the_frame noReadFrom scenarioA 1 false
           rootTag _ (zero scenarioA) d).
  - intros name v d1 Hd1. exact Hd1.
  - reflexivity.
  - reflexivity.
  - split; [reflexivity|]. split; [simpl; lia|vm_compute; lia].
  - exact Herr.
Defined.

(** ** A decoder that is done *)

Lemma consumed_0 d : consumed 0 d = d.
Proof.
  unfold consumed, fill. simpl. rewrite advance_0, drop_0. apply set_buffer_id.
Qed.

Lemma done_cases d :
  done d = true -> (exists e, err d = Some e) \/ (err d = None /\ remain d = 0).
Proof.
  unfold done. intros Hd. destruct (err d) as [e|]; [eauto|].
  right. split; [done|].
  rewrite bool_decide_eq_false_2 in Hd by (intros H; by apply H).
  rewrite orb_false_r in Hd. by apply Z.eqb_eq.
Qed.

Lemma idle_set_err d0 d e : idle d0 d -> idle d0 (set_err (Some e) d).
Proof.
  intros (_ & Hr & Hn). split; [|done].
  unfold done. cbn [err set_err].
  rewrite (bool_decide_eq_true_2 (Some e <> None)) by done. apply orb_true_r.
Qed.

Section Idle.

Variable d0 : decoder.

Lemma keeps_idle_readFull k : keeps (idle d0) (readFull k).
Proof.
  intros d Hd. pose proof Hd as (Hdone & _).
  destruct (done_cases d Hdone) as [[e He]|[He Hz]].
  { by rewrite (readFull_failed k d e He). }
  assert (available d = 0%nat) as Ha by (unfold available; lia).
  destruct k as [|k].
  - rewrite readFull_ok by (done || lia). by rewrite consumed_0.
  - rewrite readFull_short by (done || lia). rewrite Ha, consumed_0.
    rewrite fail_with_exhausted by done. by apply idle_set_err.
Qed.

Lemma keeps_idle_read n : keeps (idle d0) (read n).
Proof.
  intros d Hd. pose proof Hd as (Hdone & _).
  destruct (Z.lt_ge_cases n 0) as [Hn|Hn].
  { by rewrite read_negative. }
  destruct (done_cases d Hdone) as [[e He]|[He Hz]].
  { by rewrite (read_failed n d e He Hn). }
  assert (available d = 0%nat) as Ha by (unfold available; lia).
  destruct (Z.eq_dec n 0) as [->|Hpos].
  - rewrite read_ok by (done || lia). by rewrite advance_0.
  - rewrite read_short by (done || lia). rewrite Ha, advance_0.
    rewrite fail_with_exhausted by done. by apply idle_set_err.
Qed.

Lemma keeps_idle_setError e : keeps (idle d0) (setError e).
Proof.
  intros d Hd. pose proof Hd as (Hdone & _). rewrite setError_spec. simpl.
  destruct (done_cases d Hdone) as [[x He]|[He Hz]]; rewrite He; [done|].
  destruct e as [x|]; [|done].
  rewrite fail_with_exhausted by done. by apply idle_set_err.
Qed.

End Idle.

(** X15. Once [done()] reports true, because the budget is used up or
    because an error is latched, no compiled plan, classic or flexible,
    takes another byte: it leaves the source and the budget as they are,
    and [done()] still reports true (the custom codecs being assumed to
    do the same). *)
Theorem done_decoder_gives_no_more_bytes
    (ReadFrom : nat -> val -> M (val * option error))
    typ version flexible tag f v d :
  (forall name v, keeps (idle d) (ReadFrom name v)) ->
  decodeFuncOf ReadFrom typ version flexible tag = Some f ->
  done d = true ->
  done (final (f v d)) = true /\
  reader (final (f v d)) = reader d /\
  remain (final (f v d)) = remain d.
Proof.
  intros HRF Hf Hdone.
  by apply (keeps_decodeFuncOf (idle d) ReadFrom
              (keeps_idle_readFull d) (keeps_idle_read d)
              (keeps_idle_setError d) HRF
              typ version flexible tag f Hf v d).
Qed.

Lemma done_decoder_gives_no_more_bytes_witness :
  let d := bound (bytesReader (bytes_of [0; 0; 0; 7; 0; 1; 65])) 0 in
  let d' := final (structDecode
                     [{| decode := decodeInt32; index := 0; tagID := -2 |};
                      {| decode := decodeString; index := 1; tagID := -2 |}]
                     ∅ false (zero scenarioA) d) in
  done d' = true /\ reader d' = reader d /\ remain d' = remain d.
Proof.
  intros d d'.
  apply (done_decoder_gives_no_more_bytes noReadFrom scenarioA 1 false
           rootTag _ (zero scenarioA) d).
  - intros name v d1 Hd1. exact Hd1.
  - reflexivity.
  - reflexivity.
Defined.

(** ** The entry point *)

Lemma checkout_nonneg g data : 0 <= remain (checkout g data).
Proof. unfold checkout. simpl. lia. Qed.

(** X16. Whether [Unmarshal] panics depends on the type and the version
    alone, never on the bytes: when the compiler rejects the type the
    call panics before it touches the pool or the cache, and otherwise
    it returns, on every input, with a destination of the same shape
    (the custom codecs being assumed to return within the frame). *)
Theorem Unmarshal_returns_on_every_input
    (ReadFrom : nat -> val -> M (val * option error))
    g data version typ value :
  wellbehaved ReadFrom ->
  cache_classic ReadFrom (unmarshalers g) ->
  has_type typ value ->
  (is_Some (decodeFuncOf ReadFrom typ version false rootTag) ->
   exists e v',
     (Unmarshal ReadFrom g data version typ value).2 = Returned e v' /\
     has_type typ v') /\
  (decodeFuncOf ReadFrom typ version false rootTag = None ->
   Unmarshal ReadFrom g data version typ value = (g, Panicked)).
Proof.
  intros Hwb Hc Hv. unfold Unmarshal. split.
  - intros [f Hf].
    destruct (resolve _ _ _) as [[decode cache]|] eqn:Hres.
    + destruct (resolve_classic _ _ _ _ _ Hc Hres) as [Hd _]. simpl in Hd.
      destruct (safe_decodeFuncOf ReadFrom Hwb typ version rootTag decode Hd
                  value (checkout g data) Hv (checkout_nonneg g data))
        as (v' & d' & Hrun & Hv' & _).
      simpl. rewrite Hrun. simpl. eauto.
    + pose proof (resolve_None _ _ _ Hc Hres) as Hd. simpl in Hd. congruence.
  - intros Hnone. unfold resolve.
    destruct (unmarshalers g _) as [f|] eqn:Hk.
    + apply Hc in Hk. simpl in Hk. congruence.
    + simpl. by rewrite Hnone.
Qed.

Lemma Unmarshal_returns_on_every_input_witness :
  exists e v',
    (Unmarshal noReadFrom initial (bytes_of [255; 255; 255]) 1 scenarioA
       (zero scenarioA)).2 = Returned e v' /\
    has_type scenarioA v'.
Proof.
  apply (proj1 (Unmarshal_returns_on_every_input noReadFrom initial
                  (bytes_of [255; 255; 255]) 1 scenarioA (zero scenarioA)
                  noReadFrom_wellbehaved (cache_classic_empty noReadFrom)
                  (zero_has_type scenarioA))).
  by eexists.
Defined.

(** X17. A call of [Unmarshal] does not depend on the calls before it:
    the deferred reset puts a decoder without error, budget or checksum
    back into the pool, and the cache holds the plans of its keys, so
    between calls the process is at rest, and at rest a call returns
    what it returns in a fresh process. *)
Theorem Unmarshal_does_not_depend_on_earlier_calls
    (ReadFrom : nat -> val -> M (val * option error))
    g data version typ value :
  at_rest ReadFrom g ->
  at_rest ReadFrom initial /\
  at_rest ReadFrom (Unmarshal ReadFrom g data version typ value).1 /\
  (Unmarshal ReadFrom g data version typ value).2
    = (Unmarshal ReadFrom initial data version typ value).2.
Proof.
  intros [Hpool Hc].
  split; [split; [constructor|apply cache_classic_empty]|].
  assert (checkout g data = checkout initial data) as Hco.
  { unfold checkout. simpl. destruct (decoders g) as [|d rest]; [done|].
    apply Forall_cons in Hpool as [-> _]. done. }
  pose proof (cache_classic_empty ReadFrom) as Hc0.
  unfold Unmarshal.
  destruct (resolve ReadFrom (unmarshalers g) _) as [[decode cache]|] eqn:Hres;
    destruct (resolve ReadFrom (unmarshalers initial) _)
      as [[decode0 cache0]|] eqn:Hres0.
  - destruct (resolve_classic _ _ _ _ _ Hc Hres) as [Hd Hc'].
    destruct (resolve_classic _ _ _ _ _ Hc0 Hres0) as [Hd0 _].
    rewrite Hd in Hd0. inversion Hd0; subst decode0. simpl.
    split; [|by rewrite Hco].
    split; [|done]. simpl. constructor; [done|].
    destruct (decoders g) as [|d rest]; [constructor|].
    by apply Forall_cons in Hpool as [_ Hrest].
  - destruct (resolve_classic _ _ _ _ _ Hc Hres) as [Hd _].
    pose proof (resolve_None _ _ _ Hc0 Hres0) as Hd0. congruence.
  - destruct (resolve_classic _ _ _ _ _ Hc0 Hres0) as [Hd0 _].
    pose proof (resolve_None _ _ _ Hc Hres) as Hd. congruence.
  - by split.
Qed.

Lemma Unmarshal_does_not_depend_on_earlier_calls_witness :
  let g := (Unmarshal noReadFrom initial (bytes_of [0; 0]) 1 scenarioA
              (zero scenarioA)).1 in
  (Unmarshal noReadFrom g (bytes_of [0; 0; 0; 7; 0; 1; 65]) 1 scenarioA
     (zero scenarioA)).2
  = (Unmarshal noReadFrom initial (bytes_of [0; 0; 0; 7; 0; 1; 65]) 1 scenarioA
       (zero scenarioA)).2.
Proof.
  intros g.
  assert (at_rest noReadFrom initial) as H0
    by (split; [constructor|apply cache_classic_empty]).
  apply (proj2 (proj2 (Unmarshal_does_not_depend_on_earlier_calls noReadFrom g
                         (bytes_of [0; 0; 0; 7; 0; 1; 65]) 1 scenarioA
                         (zero scenarioA)
                         (proj1 (proj2
                            (Unmarshal_does_not_depend_on_earlier_calls
                               noReadFrom initial (bytes_of [0; 0]) 1 scenarioA
                               (zero scenarioA) H0)))))).
Defined.

(** X18. [Unmarshal] adds to the cache and never takes from it: after a
    call on a type the compiler accepts, the cache holds the compiled
    plan under the key of the call, and every other key holds what it
    held before. *)
Theorem Unmarshal_publishes_its_plan
    (ReadFrom : nat -> val -> M (val * option error))
    g data version typ value f :
  cache_classic ReadFrom (unmarshalers g) ->
  decodeFuncOf ReadFrom typ version false rootTag = Some f ->
  let g' := (Unmarshal ReadFrom g data version typ value).1 in
  unmarshalers g' {| typ := typ; version := version |} = Some f /\
  (forall key, key <> {| typ := typ; version := version |} ->
     unmarshalers g' key = unmarshalers g key).
Proof.
  intros Hc Hf g'. unfold g', Unmarshal, resolve.
  destruct (unmarshalers g {| typ := typ; version := version |}) as [h|] eqn:Hk.
  - simpl. split; [|done]. pose proof (Hc _ _ Hk) as Hd. simpl in Hd.
    rewrite Hk. congruence.
  - simpl. rewrite Hf. simpl. unfold publish. split.
    + by rewrite Hk, versionedType_eqb_refl.
    + intros key Hne. destruct (unmarshalers g key); [done|].
      destruct (versionedType_eqb key _) eqn:Heq; [|done].
      by apply versionedType_eqb_eq in Heq.
Qed.

Lemma Unmarshal_publishes_its_plan_witness :
  unmarshalers
    (Unmarshal noReadFrom initial (bytes_of [0; 0; 0; 7]) 0 scenarioA
       (zero scenarioA)).1
    {| typ := scenarioA; version := 0 |}
  = Some (structDecode [{| decode := decodeInt32; index := 0; tagID := -2 |}]
            ∅ false).
Proof.
  apply (proj1 (Unmarshal_publishes_its_plan noReadFrom initial
                  (bytes_of [0; 0; 0; 7]) 0 scenarioA (zero scenarioA) _
                  (cache_classic_empty noReadFrom) eq_refl)).
Defined.

(** ** The shapes the compiler accepts *)

Section Accepted.

Variable ReadFrom : nat -> val -> M (val * option error).

Lemma collectFields_is_Some version flexible fs : forall i acc,
  is_Some (collectFields ReadFrom version flexible fs i acc) <->
  Forall (fun f => forall tag,
            forEachStructTag version f.2 = Some tag ->
            is_Some (decodeFuncOf ReadFrom f.1 version flexible tag)) fs.
Proof.
  induction fs as [|f fs IH]; intros i acc; cbn [collectFields].
  { split; [constructor|by eexists]. }
  rewrite Forall_cons.
  destruct (forEachStructTag version f.2) as [tag|].
  - destruct (decodeFuncOf ReadFrom f.1 version flexible tag) as [dec|] eqn:Hd.
    + rewrite IH. split; [|by intros [_ H]].
      intros H. split; [|done]. intros tag' [= <-]. by rewrite Hd.
    + split; [by intros [x Hx]|].
      intros [H _]. specialize (H tag eq_refl). rewrite Hd in H.
      by destruct H.
  - rewrite IH. split; [|by intros [_ H]]. intros H. by split.
Qed.

Lemma struct_is_Some fs version flexible tag :
  is_Some (decodeFuncOf ReadFrom (reflect.Struct fs) version flexible tag) <->
  Forall (fun f => forall tag,
            forEachStructTag version f.2 = Some tag ->
            is_Some (decodeFuncOf ReadFrom f.1 version flexible tag)) fs.
Proof.
  rewrite decodeFuncOf_Struct, <- (collectFields_is_Some _ _ _ O ([], ∅)).
  unfold structDecodeFuncOf.
  destruct (collectFields _ _ _ _ _ _); split; intros [x Hx]; (done || by eexists).
Qed.

Lemma slice_is_Some elem version flexible tag :
  is_Some (decodeFuncOf ReadFrom (reflect.Slice elem) version flexible tag) <->
  elem = reflect.Uint8 \/
  is_Some (decodeFuncOf ReadFrom elem version flexible tag).
Proof.
  destruct (Uint8_or_not elem) as [->|Hne].
  { split; [by left|]. intros _. by eexists. }
  rewrite decodeFuncOf_Slice by done. unfold arrayDecodeFuncOf.
  destruct (decodeFuncOf ReadFrom elem version flexible tag) as [ef|].
  - split; [intros _; right|intros _]; by eexists.
  - split; [by intros [x Hx]|]. intros [?|[x Hx]]; done.
Qed.

End Accepted.

Lemma is_Some_independent typ : forall RF RF' version flexible flexible' tag tag',
  is_Some (decodeFuncOf RF typ version flexible tag) ->
  is_Some (decodeFuncOf RF' typ version flexible' tag').
Proof.
  induction typ as [| | | | | | |fs IH|elem IH|name|] using type_induction;
    intros RF RF' version flexible flexible' tag tag' H;
    try (by eexists); try (by destruct H).
  - rewrite struct_is_Some in *. rewrite Forall_forall in *.
    intros f Hin tg Htg. by eapply (IH f Hin), (H f Hin tg Htg).
  - rewrite slice_is_Some in *. destruct H as [->|H]; [by left|].
    right. by eapply IH, H.
Qed.

(** X19. Which shapes the compiler accepts.  It accepts booleans, the
    four signed integers, strings, byte slices and the types with a
    custom codec, a slice when it accepts the element, and a struct when
    it accepts every field that has a tag for the requested version,
    under that tag; a field without such a tag is never looked at.  It
    panics on everything else, [uint8] outside a slice included.
    Whether it accepts a shape depends on the shape and the version
    alone, not on the flexible flag, the tag or the custom codecs. *)
Theorem compiler_accepts
    (ReadFrom ReadFrom' : nat -> val -> M (val * option error))
    version flexible flexible' tag tag' :
  (forall typ,
     is_Some (decodeFuncOf ReadFrom typ version flexible tag) <->
     is_Some (decodeFuncOf ReadFrom' typ version flexible' tag')) /\
  (forall typ,
     In typ [reflect.Bool; reflect.Int8; reflect.Int16; reflect.Int32;
             reflect.Int64; reflect.String; reflect.Slice reflect.Uint8] ->
     is_Some (decodeFuncOf ReadFrom typ version flexible tag)) /\
  (forall name,
     is_Some (decodeFuncOf ReadFrom (reflect.ReaderFrom name) version flexible tag)) /\
  decodeFuncOf ReadFrom reflect.Uint8 version flexible tag = None /\
  decodeFuncOf ReadFrom reflect.Other version flexible tag = None /\
  (forall elem,
     is_Some (decodeFuncOf ReadFrom (reflect.Slice elem) version flexible tag) <->
     elem = reflect.Uint8 \/
     is_Some (decodeFuncOf ReadFrom elem version flexible tag)) /\
  (forall fs,
     is_Some (decodeFuncOf ReadFrom (reflect.Struct fs) version flexible tag) <->
     Forall (fun f => forall tag,
               forEachStructTag version f.2 = Some tag ->
               is_Some (decodeFuncOf ReadFrom f.1 version flexible tag)) fs).
Proof.
  split; [|split; [|split; [|split; [|split; [|split]]]]].
  - intros typ. split; apply is_Some_independent.
  - intros typ Hin. simpl in Hin.
    destruct Hin as [<-|[<-|[<-|[<-|[<-|[<-|[<-|[]]]]]]]]; by eexists.
  - intros name. by eexists.
  - done.
  - done.
  - intros elem. apply slice_is_Some.
  - intros fs. apply struct_is_Some.
Qed.

(** ** The order of the fields of a struct *)

Lemma collectFields_ordered ReadFrom version flexible fs : forall i acc acc',
  collectFields ReadFrom version flexible fs i acc = Some acc' ->
  Forall (fun g => (index g < i)%nat) acc.1 ->
  (forall a b g h, (a < b)%nat -> acc.1 !! a = Some g -> acc.1 !! b = Some h ->
     (index g < index h)%nat) ->
  Forall (fun g => (index g < i + length fs)%nat) acc'.1 /\
  (forall a b g h, (a < b)%nat -> acc'.1 !! a = Some g -> acc'.1 !! b = Some h ->
     (index g < index h)%nat).
Proof.
  induction fs as [|f fs IH]; intros i acc acc' Hc Hlt Hord; cbn [collectFields] in Hc.
  { inversion Hc; subst acc'. split; [|done].
    eapply Forall_impl; [done|]. simpl. intros g Hg. lia. }
  assert (Forall (fun g => (index g < S i)%nat) acc.1) as Hlt'
    by (eapply Forall_impl; [done|]; simpl; intros g Hg; lia).
  replace (i + length (f :: fs))%nat with (S i + length fs)%nat
    by (simpl; lia).
  destruct (forEachStructTag version f.2) as [tag|]; [|by eapply IH].
  destruct (decodeFuncOf ReadFrom f.1 version flexible tag) as [dec|]; [|done].
  apply IH in Hc; [done| |]; unfold register; simpl;
    destruct (TagID tag <? -1); simpl; try done.
  - apply Forall_app. split; [done|]. constructor; [simpl; lia|constructor].
  - intros a b g h Hab Hg Hh.
    apply lookup_app_Some in Hh as [Hh|[Hb Hh]].
    + apply lookup_app_Some in Hg as [Hg|[Ha Hg]]; [by eapply Hord|].
      apply lookup_lt_Some in Hh. lia.
    + apply lookup_app_Some in Hg as [Hg|[Ha Hg]].
      * apply list_lookup_singleton_Some in Hh as [_ <-]. simpl.
        rewrite Forall_lookup in Hlt. by apply (Hlt a g).
      * apply list_lookup_singleton_Some in Hh as [Hb0 _].
        apply list_lookup_singleton_Some in Hg as [Ha0 _]. lia.
Qed.

(** X20. The ordinary fields of a struct are decoded in the order of
    their declaration, each once: the plan of a struct runs a list of
    compiled fields whose indices, all of them indices of declared
    fields, increase strictly along the list. *)
Theorem struct_fields_keep_declaration_order
    (ReadFrom : nat -> val -> M (val * option error))
    fs version flexible f :
  structDecodeFuncOf ReadFrom fs version flexible = Some f ->
  exists fields taggedFields,
    f = structDecode fields taggedFields flexible /\
    Forall (fun g => (index g < length fs)%nat) fields /\
    (forall a b g h, (a < b)%nat ->
       fields !! a = Some g -> fields !! b = Some h ->
       (index g < index h)%nat).
Proof.
  unfold structDecodeFuncOf.
  destruct (collectFields _ _ _ _ _ _) as [[fields taggedFields]|] eqn:Hc; [|done].
  intros [= <-]. exists fields, taggedFields. split; [done|].
  destruct (collectFields_ordered _ _ _ _ _ _ _ Hc) as [H1 H2].
  - constructor.
  - intros a b g h _ Hg. simpl in Hg. by rewrite lookup_nil in Hg.
  - by split.
Qed.

Lemma struct_fields_keep_declaration_order_witness :
  exists fields taggedFields,
    structDecode [{| decode := decodeInt32; index := 0; tagID := -2 |};
                  {| decode := decodeString; index := 1; tagID := -2 |}] ∅ false
      = structDecode fields taggedFields false /\
    Forall (fun g => (index g < 2)%nat) fields /\
    (forall a b g h, (a < b)%nat ->
       fields !! a = Some g -> fields !! b = Some h ->
       (index g < index h)%nat).
Proof.
  apply (struct_fields_keep_declaration_order noReadFrom
           [(reflect.Int32, [ordinary 0 maxVersion]);
            (reflect.String, [ordinary 1 maxVersion])] 1 false).
  reflexivity.
Defined.

(** ** Decoding the classic encoding *)

Lemma wire_Struct version fs x v bs :
  wire version (reflect.Struct fs) x v bs =
  (exists xs vs, x = VStruct xs /\ v = VStruct vs /\
                 wire_fields version fs xs vs bs).
Proof. reflexivity. Qed.

Lemma wire_Array version elem x v bs :
  elem <> reflect.Uint8 ->
  wire version (reflect.Slice elem) x v bs =
  ((x = VArray None /\ bs = be32 (-1)) \/
   exists (xs : list val) (bss : list (list byte)),
     Z.of_nat (length xs) < 2 ^ 31 /\ x = VArray (Some xs) /\
     Forall2 (fun x b => wire version elem x (zero elem) b) xs bss /\
     bs = be32 (Z.of_nat (length xs)) ++ concat bss).
Proof. intros Hne. by destruct elem. Qed.

Lemma length_bytes_of l : length (bytes_of l) = length l.
Proof. apply length_map. Qed.

(** Only a value that the destination already holds has an empty
    encoding. *)
Lemma wire_empty version t : forall x v, wire version t x v [] -> x = v.
Proof.
  induction t as [| | | | | | |fs IH|elem IH|name|] using type_induction;
    intros x v Hw; try done.
  - destruct Hw as (b & Hx & Hb). by destruct b.
  - by destruct Hw as (n & Hn & Hx & Hb).
  - by destruct Hw as (n & Hn & Hx & Hb).
  - by destruct Hw as (n & Hn & Hx & Hb).
  - by destruct Hw as (n & Hn & Hx & Hb).
  - destruct Hw as (s & Hs & Hx & Hb). by destruct s.
  - rewrite wire_Struct in Hw. destruct Hw as (xs & vs & -> & -> & Hf).
    f_equal. revert xs vs Hf.
    induction IH as [|f fs Hf' _ IHfs]; intros [|x xs] [|v vs] Hf; try done.
    simpl in Hf. destruct (forEachStructTag version f.2) as [tag|].
    + destruct (TagID tag <? -1).
      * destruct Hf as (b & bs' & Hb & Hx & Hrest).
        destruct (app_eq_nil _ _ (eq_sym Hb)) as [Hb1 Hb2]. subst b bs'.
        f_equal; [by apply Hf'|by apply IHfs].
      * destruct Hf as [-> Hrest]. f_equal. by apply IHfs.
    + destruct Hf as [-> Hrest]. f_equal. by apply IHfs.
  - destruct (Uint8_or_not elem) as [->|Hne].
    + destruct Hw as [[Hx Hb]|(s & Hs & Hx & Hb)]; [done|by destruct s].
    + rewrite wire_Array in Hw by done.
      destruct Hw as [[Hx Hb]|(xs & bss & Hn & Hx & Hxs & Hb)]; done.
Qed.

Lemma readInt8_prefix d n rest :
  err d = None -> - 2 ^ 7 <= n < 2 ^ 7 -> 1 <= remain d ->
  pending (reader d) = bytes_of [n] ++ rest ->
  readInt8 d = Ok n (consumed 1 d) /\ pending (reader (consumed 1 d)) = rest.
Proof.
  intros He Hn Hr Hp.
  destruct (prefix_available d _ _ Hp) as (Ha & Ht & Hd); [simpl; lia|].
  simpl length in *. rewrite readInt8_ok by (done || lia).
  by rewrite Ht, readInt8_big_endian, pending_consumed.
Qed.

Lemma readInt64_prefix d n rest :
  err d = None -> - 2 ^ 63 <= n < 2 ^ 63 -> 8 <= remain d ->
  pending (reader d) = be64 n ++ rest ->
  readInt64 d = Ok n (consumed 8 d) /\ pending (reader (consumed 8 d)) = rest.
Proof.
  intros He Hn Hr Hp.
  destruct (prefix_available d _ _ Hp) as (Ha & Ht & Hd); [simpl; lia|].
  simpl length in *. rewrite readInt64_ok by (done || lia).
  unfold be64 in Ht. by rewrite Ht, readInt64_big_endian, pending_consumed.
Qed.

Lemma readBool_prefix d (b : bool) rest :
  err d = None -> 1 <= remain d ->
  pending (reader d) = bytes_of [if b then 1 else 0] ++ rest ->
  readBool d = Ok b (consumed 1 d) /\ pending (reader (consumed 1 d)) = rest.
Proof.
  intros He Hr Hp.
  destruct (prefix_available d _ _ Hp) as (Ha & Ht & Hd); [simpl; lia|].
  simpl length in *. unfold readBool.
  rewrite (bind_Ok _ _ _ _ _ (readByte_ok d He ltac:(lia) Ha)).
  rewrite Hp, pending_consumed. split; [|done]. by destruct b.
Qed.

(** A reader that has read its bytes, as a routine. *)
Lemma reads_back_of_reader {A} (m : M A) (set : val -> A -> val) (k : nat)
    (a : A) v (bs : list byte) :
  length bs = k ->
  (forall d rest, err d = None -> Z.of_nat k <= remain d ->
     pending (reader d) = bs ++ rest ->
     m d = Ok a (consumed k d) /\ pending (reader (consumed k d)) = rest) ->
  reads_back (fun v => let* x := m in ret (set v x)) (set v a) v bs.
Proof.
  intros Hk Hm rest d He Hp Hr. rewrite Hk in Hr.
  destruct (Hm d rest He Hr Hp) as [Hrun Hp'].
  exists (consumed k d). rewrite (bind_Ok _ _ _ _ _ Hrun).
  split; [done|]. split; [done|]. split; [done|]. by rewrite Hk.
Qed.

Lemma readString_payload d (s rest : list byte) :
  err d = None -> Z.of_nat (length s) < 2 ^ 15 ->
  2 + Z.of_nat (length s) <= remain d ->
  pending (reader d) = be16 (Z.of_nat (length s)) ++ s ++ rest ->
  readString d = Ok s (advance (length s) (consumed 2 d)) /\
  pending (reader (advance (length s) (consumed 2 d))) = rest.
Proof.
  intros He Hs Hr Hp.
  destruct (readInt16_prefix d (Z.of_nat (length s)) (s ++ rest)) as (Hrun & Hp1);
    [done|lia|lia|done|].
  destruct (read_prefix (consumed 2 d) s rest) as (Hread & Hp2);
    [done|done|rewrite remain_consumed; lia|].
  split; [|done]. unfold readString.
  rewrite (bind_Ok _ _ _ _ _ Hrun).
  destruct (Z.ltb_spec (Z.of_nat (length s)) 0); [lia|].
  rewrite int_small by lia.
  by rewrite (bind_Ok _ _ _ _ _ Hread).
Qed.

Lemma readBytes_payload d (s rest : list byte) :
  err d = None -> Z.of_nat (length s) < 2 ^ 31 ->
  4 + Z.of_nat (length s) <= remain d ->
  pending (reader d) = be32 (Z.of_nat (length s)) ++ s ++ rest ->
  readBytes d = Ok (Some s) (advance (length s) (consumed 4 d)) /\
  pending (reader (advance (length s) (consumed 4 d))) = rest.
Proof.
  intros He Hs Hr Hp.
  destruct (readInt32_prefix d (Z.of_nat (length s)) (s ++ rest)) as (Hrun & Hp1);
    [done|lia|lia|done|].
  destruct (read_prefix (consumed 4 d) s rest) as (Hread & Hp2);
    [done|done|rewrite remain_consumed; lia|].
  split; [|done]. unfold readBytes.
  rewrite (bind_Ok _ _ _ _ _ Hrun).
  destruct (Z.ltb_spec (Z.of_nat (length s)) 0); [lia|].
  rewrite int_small by lia.
  by rewrite (bind_Ok _ _ _ _ _ Hread).
Qed.

Lemma reads_back_string s v :
  Z.of_nat (length s) < 2 ^ 15 ->
  reads_back decodeString (VString s) v (be16 (Z.of_nat (length s)) ++ s).
Proof.
  intros Hs rest d He Hp Hr. rewrite <- app_assoc in Hp.
  rewrite length_app in Hr. unfold be16 in Hr. rewrite length_bytes_of in Hr.
  simpl length in Hr.
  destruct (readString_payload d s rest He Hs ltac:(lia) Hp) as (Hrun & Hp').
  eexists. unfold decodeString. rewrite (bind_Ok _ _ _ _ _ Hrun).
  split; [done|]. split; [done|]. split; [done|].
  rewrite length_app. unfold be16. rewrite length_bytes_of. simpl. lia.
Qed.

Lemma reads_back_bytes s v :
  Z.of_nat (length s) < 2 ^ 31 ->
  reads_back decodeBytes (VBytes (Some s)) v (be32 (Z.of_nat (length s)) ++ s).
Proof.
  intros Hs rest d He Hp Hr. rewrite <- app_assoc in Hp.
  rewrite length_app in Hr. unfold be32 in Hr. rewrite length_bytes_of in Hr.
  simpl length in Hr.
  destruct (readBytes_payload d s rest He Hs ltac:(lia) Hp) as (Hrun & Hp').
  eexists. unfold decodeBytes. rewrite (bind_Ok _ _ _ _ _ Hrun).
  split; [done|]. split; [done|]. split; [done|].
  rewrite length_app. unfold be32. rewrite length_bytes_of. simpl. lia.
Qed.

Lemma readInt32_null d rest :
  err d = None -> 4 <= remain d -> pending (reader d) = be32 (-1) ++ rest ->
  readInt32 d = Ok (-1) (consumed 4 d) /\ pending (reader (consumed 4 d)) = rest.
Proof. intros He Hr Hp. by apply readInt32_prefix. Qed.

Lemma reads_back_bytes_nil v :
  reads_back decodeBytes (VBytes None) v (be32 (-1)).
Proof.
  intros rest d He Hp Hr. simpl length in Hr.
  destruct (readInt32_null d rest He ltac:(lia) Hp) as (Hrun & Hp').
  assert (readBytes d = Ok None (consumed 4 d)) as Hb
    by (unfold readBytes; by rewrite (bind_Ok _ _ _ _ _ Hrun)).
  exists (consumed 4 d). unfold decodeBytes.
  rewrite (bind_Ok _ _ _ _ _ Hb). simpl.
  repeat split; (done || lia).
Qed.

Lemma reads_back_array_nil elem f v :
  reads_back (decodeArray elem f) (VArray None) v (be32 (-1)).
Proof.
  intros rest d He Hp Hr. simpl length in Hr.
  destruct (readInt32_null d rest He ltac:(lia) Hp) as (Hrun & Hp').
  exists (consumed 4 d). unfold decodeArray.
  rewrite (bind_Ok _ _ _ _ _ Hrun). simpl.
  repeat split; (done || lia).
Qed.

Section Elements.

(** The elements of an array: [W x b] says that the bytes [b] stand for
    the element [x]; the routine of the elements reads such bytes back
    into a fresh element, and only a fresh element has no bytes. *)
Variable W : val -> list byte -> Prop.
Variable elem : type.
Variable ef : decodeFunc.
Hypothesis W_reads_back : forall x b, W x b -> reads_back ef x (zero elem) b.
Hypothesis W_empty : forall x, W x [] -> x = zero elem.

Lemma elements_all_empty : forall xs bss,
  Forall2 W xs bss -> concat bss = [] -> xs = replicate (length xs) (zero elem).
Proof.
  induction 1 as [|x b xs bss Hx _ IH]; [done|].
  simpl. intros [-> Hc]%app_eq_nil.
  apply W_empty in Hx as ->. f_equal. by apply IH.
Qed.

Lemma reads_back_elems :
  forall xs bss, Forall2 W xs bss ->
  forall pre rest d,
  err d = None -> pending (reader d) = concat bss ++ rest ->
  Z.of_nat (length (concat bss)) <= remain d ->
  exists d',
    decodeElems ef (length xs) (length pre)
      (pre ++ replicate (length xs) (zero elem)) d = Ok (pre ++ xs) d' /\
    err d' = None /\ pending (reader d') = rest /\
    remain d' = remain d - Z.of_nat (length (concat bss)).
Proof.
  induction 1 as [|x b xs bss Hx Hxs IH]; intros pre rest d He Hp Hr.
  { exists d. simpl in *. rewrite app_nil_r. repeat split; (done || lia). }
  cbn [length decodeElems]. rewrite Z.gtb_ltb.
  destruct (Z.ltb_spec 0 (remain d)) as [Hpos|Hzero].
  - cbn [replicate]. rewrite list_lookup_middle by done.
    simpl concat in Hp, Hr. rewrite <- app_assoc in Hp. rewrite length_app in Hr.
    destruct (W_reads_back x b Hx (concat bss ++ rest) d He Hp ltac:(lia))
      as (d1 & Hrun & He1 & Hp1 & Hr1).
    rewrite (bind_Ok _ _ _ _ _ Hrun).
    rewrite insert_app_r_alt by lia. rewrite Nat.sub_diag. cbn [insert list_insert].
    destruct (IH (pre ++ [x]) rest d1 He1 Hp1 ltac:(lia))
      as (d2 & Hrun2 & He2 & Hp2 & Hr2).
    rewrite length_app, Nat.add_1_r, <- !app_assoc in Hrun2. simpl in Hrun2.
    exists d2. split; [done|]. split; [done|]. split; [done|].
    simpl concat. rewrite length_app. lia.
  - assert (concat (b :: bss) = []) as Hnil.
    { destruct (concat (b :: bss)); [done|]. simpl in Hr. lia. }
    pose proof (elements_all_empty (x :: xs) (b :: bss)
                  ltac:(by constructor) Hnil) as Hall.
    simpl in Hall. exists d. rewrite Hnil in *. simpl in Hr.
    split; [by rewrite Hall|]. simpl in *. repeat split; (done || lia).
Qed.

Lemma reads_back_array xs bss v :
  Z.of_nat (length xs) < 2 ^ 31 -> Forall2 W xs bss ->
  reads_back (decodeArray elem ef) (VArray (Some xs)) v
    (be32 (Z.of_nat (length xs)) ++ concat bss).
Proof.
  intros Hn Hxs rest d He Hp Hr. rewrite <- app_assoc in Hp.
  rewrite length_app in Hr. unfold be32 in Hr. rewrite length_bytes_of in Hr.
  simpl length in Hr.
  destruct (readInt32_prefix d (Z.of_nat (length xs)) (concat bss ++ rest))
    as (Hrun & Hp1); [done|lia|lia|done|].
  unfold decodeArray. rewrite (bind_Ok _ _ _ _ _ Hrun).
  destruct (Z.ltb_spec (Z.of_nat (length xs)) 0); [lia|].
  rewrite int_small by lia. unfold makeArray.
  destruct (Z.ltb_spec (Z.of_nat (length xs)) 0); [lia|].
  unfold bind at 1. unfold ret at 1. rewrite Nat2Z.id.
  destruct (reads_back_elems xs bss Hxs [] rest (consumed 4 d))
    as (d2 & Hrun2 & He2 & Hp2 & Hr2); [done|done|rewrite remain_consumed; lia|].
  simpl in Hrun2. rewrite (bind_Ok _ _ _ _ _ Hrun2).
  exists d2. split; [done|]. split; [done|]. split; [done|].
  rewrite Hr2, remain_consumed, length_app. unfold be32.
  rewrite length_bytes_of. simpl. lia.
Qed.

Lemma reads_back_compact_array (p : list byte) t xs bss v :
  Forall (fun b => Z.land (Int.u8 b) 0x80 <> 0) p ->
  Z.land (Int.u8 t) 0x80 = 0 -> (length p < 11)%nat ->
  base128 (p ++ [t]) = Z.of_nat (length xs) + 1 ->
  Z.of_nat (length xs) < 2 ^ 63 -> Forall2 W xs bss ->
  reads_back (decodeCompactArray elem ef) (VArray (Some xs)) v
    (p ++ t :: concat bss).
Proof.
  intros Hc Ht Hl Hv Hn Hxs rest d He Hp Hr. rewrite <- app_assoc in Hp.
  rewrite length_app in Hr. simpl in Hp, Hr.
  change (2 ^ 63) with 9223372036854775808 in Hn.
  pose proof (readUnsignedVarInt_groups d p t (concat bss ++ rest) He Hp Hc Ht Hl
                ltac:(lia)) as Hrun.
  destruct (after_groups d p t (concat bss ++ rest) Hp) as (H1 & H2 & H3).
  set (d1 := fill [t] (advance (S (length p)) d)) in *.
  rewrite Hv in Hrun.
  assert (Int.uint64 (Z.of_nat (length xs) + 1) = Z.of_nat (length xs) + 1) as Hu.
  { unfold Int.uint64, Int.unsigned. apply Z.mod_small.
    change (2 ^ 64) with 18446744073709551616. lia. }
  rewrite Hu in Hrun.
  assert (Int.int (Int.uint64 (Z.of_nat (length xs) + 1 - 1))
          = Z.of_nat (length xs)) as Hi.
  { replace (Z.of_nat (length xs) + 1 - 1) with (Z.of_nat (length xs)) by lia.
    unfold Int.uint64, Int.unsigned. rewrite Z.mod_small
      by (change (2 ^ 64) with 18446744073709551616; lia).
    apply int_small. change (2 ^ 63) with 9223372036854775808. lia. }
  unfold decodeCompactArray. rewrite (bind_Ok _ _ _ _ _ Hrun).
  destruct (Z.ltb_spec (Z.of_nat (length xs) + 1) 1); [lia|].
  rewrite Hi. unfold makeArray.
  destruct (Z.ltb_spec (Z.of_nat (length xs)) 0); [lia|].
  unfold bind at 1. unfold ret at 1. rewrite Nat2Z.id.
  destruct (reads_back_elems xs bss Hxs [] rest d1)
    as (d2 & Hrun2 & He2 & Hp2 & Hr2); [by rewrite H3|done|lia|].
  simpl in Hrun2. rewrite (bind_Ok _ _ _ _ _ Hrun2).
  exists d2. split; [done|]. split; [done|]. split; [done|].
  rewrite Hr2, H2, length_app. simpl. lia.
Qed.

End Elements.

(** X21. An array is read back element by element: when the routine of
    the elements reads the bytes of each element back into a fresh
    element, [decodeArray] reads a four-byte count followed by the
    elements, and [decodeCompactArray] an unsigned varint that stands
    for the count plus one followed by the elements, back as the array
    of these elements.  The loop stops early on a budget of zero only
    when the elements left have no bytes at all, and are therefore
    fresh elements already. *)
Theorem arrays_are_read_back_element_by_element
    (W : val -> list byte -> Prop) elem ef xs bss v :
  (forall x b, W x b -> reads_back ef x (zero elem) b) ->
  (forall x, W x [] -> x = zero elem) ->
  Forall2 W xs bss ->
  (Z.of_nat (length xs) < 2 ^ 31 ->
   reads_back (decodeArray elem ef) (VArray (Some xs)) v
     (be32 (Z.of_nat (length xs)) ++ concat bss)) /\
  (forall (p : list byte) t,
     Forall (fun b => Z.land (Int.u8 b) 0x80 <> 0) p ->
     Z.land (Int.u8 t) 0x80 = 0 -> (length p < 11)%nat ->
     base128 (p ++ [t]) = Z.of_nat (length xs) + 1 ->
     Z.of_nat (length xs) < 2 ^ 63 ->
     reads_back (decodeCompactArray elem ef) (VArray (Some xs)) v
       (p ++ t :: concat bss)).
Proof.
  intros HW Hempty Hxs. split.
  - intros Hn. by apply (reads_back_array W).
  - intros p t Hc Ht Hl Hv Hn. by apply (reads_back_compact_array W).
Qed.

Lemma arrays_are_read_back_element_by_element_witness :
  reads_back (decodeCompactArray reflect.Int16 decodeInt16)
    (VArray (Some [VInt16 1; VInt16 (-2)])) (VArray None)
    (bytes_of [3; 0; 1; 255; 254]).
Proof.
  apply (proj2 (arrays_are_read_back_element_by_element
                  (fun x b => exists n, - 2 ^ 15 <= n < 2 ^ 15 /\
                                        x = VInt16 n /\ b = be16 n)
                  reflect.Int16 decodeInt16 [VInt16 1; VInt16 (-2)]
                  [be16 1; be16 (-2)] (VArray None)
                  ltac:(intros x b (n & Hn & -> & ->);
                        apply (reads_back_of_reader readInt16 setInt16 2 n);
                          [done|];
                        intros d rest He Hr Hp; by apply readInt16_prefix)
                  ltac:(by intros x (n & Hn & Hx & Hb))
                  ltac:(repeat constructor;
                          [exists 1; repeat split; lia
                          |exists (-2); repeat split; lia]))
               [] (Int.byte_of_Z 3)).
  - constructor.
  - reflexivity.
  - simpl. lia.
  - reflexivity.
  - simpl. lia.
Defined.

Lemma reads_back_fields ReadFrom version fs :
  Forall (fun f => forall tag dec x v b,
            decodeFuncOf ReadFrom f.1 version false tag = Some dec ->
            wire version f.1 x v b -> reads_back dec x v b) fs ->
  forall i acc acc',
  collectFields ReadFrom version false fs i acc = Some acc' ->
  exists new,
    acc'.1 = acc.1 ++ new /\
    forall pre xs vs bs rest d,
    length pre = i -> wire_fields version fs xs vs bs ->
    err d = None -> pending (reader d) = bs ++ rest ->
    Z.of_nat (length bs) <= remain d ->
    exists d',
      decodeFields new (VStruct (pre ++ vs)) d = Ok (VStruct (pre ++ xs)) d' /\
      err d' = None /\ pending (reader d') = rest /\
      remain d' = remain d - Z.of_nat (length bs).
Proof.
  induction 1 as [|f fs Hf _ IH]; intros i acc acc' Hc; cbn [collectFields] in Hc.
  { inversion Hc; subst acc'. exists []. rewrite app_nil_r. split; [done|].
    intros pre [|x xs] [|v vs] bs rest d Hi Hw He Hp Hr;
      simpl in Hw; try done.
    subst bs. exists d. simpl in *. rewrite !app_nil_r.
    repeat split; (done || lia). }
  assert (forall new,
    (forall pre xs vs bs rest d,
       length pre = S i -> wire_fields version fs xs vs bs ->
       err d = None -> pending (reader d) = bs ++ rest ->
       Z.of_nat (length bs) <= remain d ->
       exists d',
         decodeFields new (VStruct (pre ++ vs)) d = Ok (VStruct (pre ++ xs)) d' /\
         err d' = None /\ pending (reader d') = rest /\
         remain d' = remain d - Z.of_nat (length bs)) ->
    forall pre x xs vs bs rest d,
      length pre = i -> wire_fields version fs xs vs bs ->
      err d = None -> pending (reader d) = bs ++ rest ->
      Z.of_nat (length bs) <= remain d ->
      exists d',
        decodeFields new (VStruct (pre ++ x :: vs)) d
          = Ok (VStruct (pre ++ x :: xs)) d' /\
        err d' = None /\ pending (reader d') = rest /\
        remain d' = remain d - Z.of_nat (length bs)) as Hskip.
  { intros new Hnew pre x xs vs bs rest d Hi Hw He Hp Hr.
    destruct (Hnew (pre ++ [x]) xs vs bs rest d) as (d' & Hrun & Hrest);
      [rewrite length_app; simpl; lia|done..|].
    rewrite <- !app_assoc in Hrun. by exists d'. }
  destruct (forEachStructTag version f.2) as [tag|] eqn:Htag.
  2: { destruct (IH _ _ _ Hc) as (new & Hacc & Hnew). exists new. split; [done|].
       intros pre [|x xs] [|v vs] bs rest d Hi Hw He Hp Hr;
         simpl in Hw; try done. rewrite Htag in Hw. destruct Hw as [-> Hw].
       by apply (Hskip new). }
  destruct (decodeFuncOf ReadFrom f.1 version false tag) as [dec|] eqn:Hdec; [|done].
  destruct (IH _ _ _ Hc) as (new & Hacc & Hnew).
  unfold register in Hacc. simpl in Hacc.
  destruct (Z.ltb_spec (TagID tag) (-1)) as [Hord|Hext]; simpl in Hacc.
  - exists ({| decode := dec; index := i; tagID := TagID tag |} :: new).
    split; [by rewrite Hacc, <- app_assoc|].
    intros pre [|x xs] [|v vs] bs rest d Hi Hw He Hp Hr;
      simpl in Hw; try done. rewrite Htag in Hw.
    destruct (Z.ltb_spec (TagID tag) (-1)); [|lia].
    destruct Hw as (b & bs' & -> & Hx & Hw).
    rewrite <- app_assoc in Hp. rewrite length_app in Hr.
    destruct (Hf tag dec x v b Hdec Hx (bs' ++ rest) d He Hp ltac:(lia))
      as (d1 & Hrun & He1 & Hp1 & Hr1).
    assert (decodeField {| decode := dec; index := i; tagID := TagID tag |}
              (VStruct (pre ++ v :: vs)) d = Ok (VStruct (pre ++ x :: vs)) d1)
      as Hfield.
    { unfold decodeField. cbn [index decode].
      rewrite list_lookup_middle by done.
      rewrite (bind_Ok _ _ _ _ _ Hrun). unfold ret.
      rewrite insert_app_r_alt by lia. by rewrite Hi, Nat.sub_diag. }
    cbn [decodeFields]. rewrite (bind_Ok _ _ _ _ _ Hfield).
    destruct (Hskip new Hnew pre x xs vs bs' rest d1 Hi Hw He1 Hp1 ltac:(lia))
      as (d2 & Hrun2 & He2 & Hp2 & Hr2).
    exists d2. split; [done|]. split; [done|]. split; [done|].
    rewrite length_app. lia.
  - exists new. split; [done|].
    intros pre [|x xs] [|v vs] bs rest d Hi Hw He Hp Hr;
      simpl in Hw; try done. rewrite Htag in Hw.
    destruct (Z.ltb_spec (TagID tag) (-1)); [lia|].
    destruct Hw as [-> Hw]. by apply (Hskip new).
Qed.

Lemma reads_back_decodeFuncOf ReadFrom version typ : forall tag f x v bs,
  decodeFuncOf ReadFrom typ version false tag = Some f ->
  wire version typ x v bs -> reads_back f x v bs.
Proof.
  induction typ as [| | | | | | |fs IH|elem IH|name|] using type_induction;
    intros tag f x v bs Hf Hw; try done.
  - inversion Hf. destruct Hw as (b & -> & ->).
    apply (reads_back_of_reader readBool setBool 1 b); [done|].
    intros d rest He Hr Hp. by apply readBool_prefix.
  - inversion Hf. destruct Hw as (n & Hn & -> & ->).
    apply (reads_back_of_reader readInt8 setInt8 1 n); [done|].
    intros d rest He Hr Hp. by apply readInt8_prefix.
  - inversion Hf. destruct Hw as (n & Hn & -> & ->).
    apply (reads_back_of_reader readInt16 setInt16 2 n); [done|].
    intros d rest He Hr Hp. by apply readInt16_prefix.
  - inversion Hf. destruct Hw as (n & Hn & -> & ->).
    apply (reads_back_of_reader readInt32 setInt32 4 n); [done|].
    intros d rest He Hr Hp. by apply readInt32_prefix.
  - inversion Hf. destruct Hw as (n & Hn & -> & ->).
    apply (reads_back_of_reader readInt64 setInt64 8 n); [done|].
    intros d rest He Hr Hp. by apply readInt64_prefix.
  - inversion Hf. destruct Hw as (s & Hs & -> & ->).
    by apply reads_back_string.
  - rewrite decodeFuncOf_Struct in Hf. unfold structDecodeFuncOf in Hf.
    destruct (collectFields _ _ _ _ _ _) as [acc|] eqn:Hc; [|done].
    inversion Hf. rewrite wire_Struct in Hw.
    destruct Hw as (xs & vs & -> & -> & Hw).
    destruct (reads_back_fields ReadFrom version fs IH O ([], ∅) acc Hc)
      as (new & Hacc & Hnew).
    simpl in Hacc. rewrite Hacc.
    intros rest d He Hp Hr.
    destruct (Hnew [] xs vs bs rest d eq_refl Hw He Hp Hr) as (d' & Hrun & Hrest).
    simpl in Hrun. exists d'. unfold structDecode.
    by rewrite (bind_Ok _ _ _ _ _ Hrun).
  - destruct (Uint8_or_not elem) as [->|Hne].
    + inversion Hf. destruct Hw as [[-> ->]|(s & Hs & -> & ->)].
      * apply reads_back_bytes_nil.
      * by apply reads_back_bytes.
    + rewrite decodeFuncOf_Slice in Hf by done. unfold arrayDecodeFuncOf in Hf.
      destruct (decodeFuncOf _ elem _ _ _) as [ef|] eqn:He; [|done].
      inversion Hf. rewrite wire_Array in Hw by done.
      destruct Hw as [[-> ->]|(xs & bss & Hn & -> & Hxs & ->)].
      * apply reads_back_array_nil.
      * apply (reads_back_array
                 (fun x b => wire version elem x (zero elem) b)); [| |done|done].
        -- intros x b Hx. by eapply IH.
        -- intros x Hx. by apply (wire_empty version elem).
Qed.

(** X22. [Unmarshal] reads the classic encoding back: from the bytes
    that are the classic encoding of a value, of a shape the compiler
    accepts, it returns that value and no error, in any process at
    rest.  A field without an ordinary tag for the version is left as
    the destination holds it, a length or count of [-1] is read back as
    [nil], and bytes that follow the encoding are not looked at. *)
Theorem Unmarshal_reads_back_the_classic_encoding
    (ReadFrom : nat -> val -> M (val * option error))
    g version typ x value data rest :
  at_rest ReadFrom g ->
  is_Some (decodeFuncOf ReadFrom typ version false rootTag) ->
  wire version typ x value data ->
  (Unmarshal ReadFrom g (data ++ rest) version typ value).2 = Returned None x.
Proof.
  intros [Hpool Hc] [f Hf] Hw. unfold Unmarshal.
  destruct (resolve _ _ _) as [[decode cache]|] eqn:Hres.
  2: { pose proof (resolve_None _ _ _ Hc Hres) as Hd. simpl in Hd. congruence. }
  destruct (resolve_classic _ _ _ _ _ Hc Hres) as [Hd _]. simpl in Hd.
  assert (err (checkout g (data ++ rest)) = None) as He.
  { unfold checkout. simpl. destruct (decoders g) as [|d ds]; [done|].
    by apply Forall_cons in Hpool as [-> _]. }
  destruct (reads_back_decodeFuncOf ReadFrom version typ rootTag decode x value
              data Hd Hw rest (checkout g (data ++ rest)) He)
    as (d' & Hrun & He' & _).
  - done.
  - unfold checkout. simpl. rewrite length_app. lia.
  - simpl. rewrite Hrun. simpl. by rewrite He'.
Qed.

Lemma Unmarshal_reads_back_the_classic_encoding_witness :
  (Unmarshal noReadFrom initial
     (bytes_of [0; 0; 0; 7; 0; 2; 104; 105] ++ bytes_of [9; 9]) 1
     scenarioA (zero scenarioA)).2
  = Returned None (VStruct [VInt32 7; VString (bytes_of [104; 105])]).
Proof.
  apply (Unmarshal_reads_back_the_classic_encoding noReadFrom initial 1 scenarioA
           (VStruct [VInt32 7; VString (bytes_of [104; 105])])
           (zero scenarioA) (bytes_of [0; 0; 0; 7; 0; 2; 104; 105])
           (bytes_of [9; 9])).
  - split; [constructor|apply cache_classic_empty].
  - by eexists.
  - unfold scenarioA. rewrite wire_Struct. eexists _, _. split; [reflexivity|]. split; [reflexivity|].
    simpl. exists (be32 7), (be16 2 ++ bytes_of [104; 105]).
    split; [reflexivity|]. split; [exists 7; repeat split; lia|].
    exists (be16 2 ++ bytes_of [104; 105]), []. split; [reflexivity|].
    split; [|done]. exists (bytes_of [104; 105]). repeat split.
Defined.

(** ** Sources that deliver in pieces *)

Lemma steady_ret h {A} (a : A) : steady h (ret a).
Proof. by intros d Hr. Qed.

Lemma steady_panic h {A} : steady h (@panic A).
Proof. by intros d Hr. Qed.

Lemma steady_bind h {A B} (m : M A) (k : A -> M B) :
  steady h m -> (forall a, steady h (k a)) -> steady h (bind m k).
Proof.
  intros Hm Hk d Hr. destruct (Hm d Hr) as [Heq Hr']. unfold bind.
  rewrite Heq. destruct (m d) as [a d'|d'|d']; simpl in *; [|done|done].
  by apply Hk.
Qed.

Section Steady.

Variable h : decoder -> decoder.
Variable ReadFrom : nat -> val -> M (val * option error).
Hypothesis h_buffer : forall d, buffer (h d) = buffer d.
Hypothesis h_remain : forall d, remain (h d) = remain d.
Hypothesis h_err : forall d, err (h d) = err d.
Hypothesis steady_readFull : forall k, steady h (readFull k).
Hypothesis steady_read : forall n, steady h (read n).
Hypothesis steady_setError : forall e, steady h (setError e).
Hypothesis steady_ReadFrom : forall name v, steady h (ReadFrom name v).

Lemma steady_of_buffer {A} (f : list byte -> A) :
  steady h (fun d => Ok (f (buffer d)) d).
Proof. intros d Hr. simpl. by rewrite h_buffer. Qed.

Lemma steady_fixed (k : nat) (conv : list byte -> Z) :
  steady h (let* ok := readFull k in
            if ok then (fun d => Ok (conv (buffer d)) d) else ret 0).
Proof.
  apply steady_bind; [done|].
  intros [|]; [apply (steady_of_buffer conv)|apply steady_ret].
Qed.

Lemma steady_readByte : steady h readByte.
Proof.
  apply steady_bind; [done|].
  intros [|]; [apply (steady_of_buffer (fun b => nth 0 b Byte.x00))|apply steady_ret].
Qed.

Lemma steady_varint_loop finish failure n : forall x s,
  steady h (varint_loop finish failure n x s).
Proof.
  induction n as [|n IH]; intros x s; cbn [varint_loop].
  - apply steady_bind; [done|]. intros _. apply steady_ret.
  - apply steady_bind; [apply steady_readByte|]. intros b.
    destruct (Z.land (Int.u8 b) 128 =? 0); [apply steady_ret|apply IH].
Qed.

Lemma steady_readUnsignedVarInt : steady h readUnsignedVarInt.
Proof.
  intros d Hr. unfold readUnsignedVarInt, varint_groups. rewrite h_remain.
  by apply steady_varint_loop.
Qed.

Lemma steady_decodeElems f :
  (forall v, steady h (f v)) ->
  forall count i a, steady h (decodeElems f count i a).
Proof.
  intros Hf. induction count as [|count IH]; intros i a; cbn [decodeElems].
  { apply steady_ret. }
  intros d Hr. rewrite h_remain. destruct (remain d >? 0); [|done].
  destruct (a !! i) as [x|]; [|done].
  revert d Hr. apply steady_bind; [apply Hf|]. intros x'. apply IH.
Qed.

Lemma steady_makeArray elem n : steady h (makeArray elem n).
Proof.
  unfold makeArray. destruct (n <? 0); [apply steady_panic|apply steady_ret].
Qed.

Lemma steady_decodeArray elem f :
  (forall v, steady h (f v)) -> forall v, steady h (decodeArray elem f v).
Proof.
  intros Hf v. unfold decodeArray.
  apply steady_bind; [apply (steady_fixed 4 (fun b => Fixed.readInt32 (take 4 b)))|].
  intros n. destruct (n <? 0); [apply steady_ret|].
  apply steady_bind; [apply steady_makeArray|]. intros a.
  apply steady_bind; [by apply steady_decodeElems|]. intros a'. apply steady_ret.
Qed.

Lemma steady_decodeCompactArray elem f :
  (forall v, steady h (f v)) -> forall v, steady h (decodeCompactArray elem f v).
Proof.
  intros Hf v. unfold decodeCompactArray.
  apply steady_bind; [apply steady_readUnsignedVarInt|]. intros n.
  destruct (n <? 1); [apply steady_ret|].
  apply steady_bind; [apply steady_makeArray|]. intros a.
  apply steady_bind; [by apply steady_decodeElems|]. intros a'. apply steady_ret.
Qed.

Lemma steady_decodeField g :
  (forall v, steady h (decode g v)) -> forall v, steady h (decodeField g v).
Proof.
  intros Hg v. unfold decodeField.
  destruct v; try apply steady_panic.
  destruct (_ !! _); [|apply steady_panic].
  apply steady_bind; [apply Hg|]. intros x. apply steady_ret.
Qed.

Lemma steady_decodeFields fields :
  Forall (fun g => forall v, steady h (decode g v)) fields ->
  forall v, steady h (decodeFields fields v).
Proof.
  induction 1 as [|g fields Hg _ IH]; intros v; cbn [decodeFields].
  { apply steady_ret. }
  apply steady_bind; [by apply steady_decodeField|]. apply IH.
Qed.

Lemma steady_decodeTaggedField (taggedFields : gmap Z field) :
  map_Forall (fun _ g => forall v, steady h (decode g v)) taggedFields ->
  forall v, steady h (decodeTaggedField taggedFields v).
Proof.
  intros Ht v. unfold decodeTaggedField.
  apply steady_bind; [apply steady_readUnsignedVarInt|]. intros t.
  apply steady_bind; [apply steady_readUnsignedVarInt|]. intros s.
  destruct (taggedFields !! Int.int t) as [g|] eqn:Hg.
  - apply steady_decodeField. by apply (Ht _ _ Hg).
  - apply steady_bind; [done|]. intros _. apply steady_ret.
Qed.

Lemma steady_decodeTaggedFields (taggedFields : gmap Z field) n :
  map_Forall (fun _ g => forall v, steady h (decode g v)) taggedFields ->
  forall v, steady h (decodeTaggedFields taggedFields n v).
Proof.
  intros Ht. induction n as [|n IH]; intros v; cbn [decodeTaggedFields].
  { apply steady_ret. }
  apply steady_bind; [by apply steady_decodeTaggedField|]. apply IH.
Qed.

Lemma steady_structDecode fields (taggedFields : gmap Z field) flexible :
  Forall (fun g => forall v, steady h (decode g v)) fields ->
  map_Forall (fun _ g => forall v, steady h (decode g v)) taggedFields ->
  forall v, steady h (structDecode fields taggedFields flexible v).
Proof.
  intros Hf Ht v. unfold structDecode.
  apply steady_bind; [by apply steady_decodeFields|]. intros v'.
  destruct flexible; [|apply steady_ret].
  apply steady_bind; [apply steady_readUnsignedVarInt|]. intros n.
  by apply steady_decodeTaggedFields.
Qed.

Lemma steady_readerDecodeFuncOf name v :
  steady h (readerDecodeFuncOf ReadFrom name v).
Proof.
  intros d Hr. unfold readerDecodeFuncOf. rewrite h_err.
  destruct (err d); [done|].
  revert d Hr. apply steady_bind; [done|]. intros r.
  destruct r.2; [|apply steady_ret].
  apply steady_bind; [done|]. intros _. apply steady_ret.
Qed.

Lemma steady_length_prefixed {B} (len : M Z) (none : B) (some : list byte -> B)
    (absent : Z -> bool) (size : Z -> Z) :
  steady h len ->
  steady h (let* n := len in
            if absent n then ret none
            else let* b := read (size n) in ret (some b)).
Proof.
  intros Hl. apply steady_bind; [done|]. intros n.
  destruct (absent n); [apply steady_ret|].
  apply steady_bind; [done|]. intros b. apply steady_ret.
Qed.

Lemma steady_decodeFuncOf typ : forall version flexible tag f,
  decodeFuncOf ReadFrom typ version flexible tag = Some f ->
  forall v, steady h (f v).
Proof.
  induction typ as [| | | | | | |fs IH|elem IH|name|] using type_induction;
    intros version flexible tag f Hf v.
  - inversion Hf. apply steady_bind; [|intros; apply steady_ret].
    apply steady_bind; [apply steady_readByte|intros; apply steady_ret].
  - inversion Hf. apply steady_bind; [|intros; apply steady_ret].
    apply (steady_fixed 1 (fun b => Fixed.readInt8 (take 1 b))).
  - inversion Hf. apply steady_bind; [|intros; apply steady_ret].
    apply (steady_fixed 2 (fun b => Fixed.readInt16 (take 2 b))).
  - inversion Hf. apply steady_bind; [|intros; apply steady_ret].
    apply (steady_fixed 4 (fun b => Fixed.readInt32 (take 4 b))).
  - inversion Hf. apply steady_bind; [|intros; apply steady_ret].
    apply (steady_fixed 8 (fun b => Fixed.readInt64 (take 8 b))).
  - inversion Hf. unfold stringDecodeFuncOf. destruct flexible.
    + apply steady_bind; [|intros; apply steady_ret].
      apply (steady_length_prefixed (B := list byte) readUnsignedVarInt []
               bytesToString (fun n => n <? 1)
               (fun n => Int.int (Int.uint64 (n - 1)))).
      apply steady_readUnsignedVarInt.
    + apply steady_bind; [|intros; apply steady_ret].
      apply (steady_length_prefixed (B := list byte) readInt16 [] bytesToString
               (fun n => n <? 0) Int.int).
      apply (steady_fixed 2 (fun b => Fixed.readInt16 (take 2 b))).
  - done.
  - rewrite decodeFuncOf_Struct in Hf. unfold structDecodeFuncOf in Hf.
    destruct (collectFields _ _ _ _ _ _) as [acc|] eqn:Hc; [|done].
    inversion Hf.
    destruct (collectFields_invariant ReadFrom
                (fun g => forall v, steady h (decode g v))
                version flexible fs O ([], ∅) acc Hc) as [H1 H2].
    + done.
    + apply map_Forall_empty.
    + intros g (j & t & tags & tg & Hj & Hi & _ & Hd & _).
      rewrite Forall_lookup in IH. by eapply (IH j (t, tags)).
    + by apply steady_structDecode.
  - destruct (Uint8_or_not elem) as [->|Hne].
    { inversion Hf. unfold bytesDecodeFuncOf. destruct flexible.
      + apply steady_bind; [|intros; apply steady_ret].
        apply (steady_length_prefixed readUnsignedVarInt None Some
                 (fun n => n <? 1) (fun n => Int.int (Int.uint64 (n - 1)))).
        apply steady_readUnsignedVarInt.
      + apply steady_bind; [|intros; apply steady_ret].
        apply (steady_length_prefixed readInt32 None Some
                 (fun n => n <? 0) Int.int).
        apply (steady_fixed 4 (fun b => Fixed.readInt32 (take 4 b))). }
    rewrite decodeFuncOf_Slice in Hf by done. unfold arrayDecodeFuncOf in Hf.
    destruct (decodeFuncOf _ elem _ _ _) as [ef|] eqn:He; [|done].
    inversion Hf. destruct flexible.
    + apply steady_decodeCompactArray. by eapply IH.
    + apply steady_decodeArray. by eapply IH.
  - inversion Hf. apply steady_readerDecodeFuncOf.
  - done.
Qed.

End Steady.

Lemma advance_with_short c k d :
  advance k (with_short c d) = with_short c (advance k d).
Proof. done. Qed.

Lemma consumed_with_short c k d :
  consumed k (with_short c d) = with_short c (consumed k d).
Proof. done. Qed.

Lemma fail_with_with_short c e d :
  fail_with e (with_short c d) = with_short c (fail_with e d).
Proof.
  destruct d as [[p sh ae hd] n b e0 t c0].
  unfold fail_with, drained, with_short, src_discard. simpl.
  destruct hd; [|done]. by destruct (n <? 0).
Qed.

Lemma steady_with_short_readFull c k : steady (with_short c) (readFull k).
Proof.
  intros d Hr. split.
  - destruct (err d) as [e|] eqn:He.
    { by rewrite (readFull_failed k d e He),
                 (readFull_failed k (with_short c d) e He). }
    destruct (Nat.le_gt_cases k (available d)) as [Hk|Hk].
    + by rewrite (readFull_ok k d He Hr Hk),
                 (readFull_ok k (with_short c d) He Hr Hk).
    + rewrite (readFull_short k d He Hr Hk),
              (readFull_short k (with_short c d) He Hr Hk).
      simpl. f_equal. by rewrite <- fail_with_with_short.
  - destruct (readFull_within k d Hr) as (ok & d' & -> & Hw).
    apply (within_nonneg _ _ Hw).
Qed.

Lemma steady_with_short_read c n : steady (with_short c) (read n).
Proof.
  intros d Hr. destruct (Z.lt_ge_cases n 0) as [Hn|Hn].
  { by rewrite !read_negative. }
  split.
  - destruct (err d) as [e|] eqn:He.
    { by rewrite (read_failed n d e He Hn),
                 (read_failed n (with_short c d) e He Hn). }
    destruct (Nat.le_gt_cases (Z.to_nat n) (available d)) as [Hk|Hk].
    + by rewrite (read_ok n d He Hr Hn Hk),
                 (read_ok n (with_short c d) He Hr Hn Hk).
    + rewrite (read_short n d He Hr Hn Hk),
              (read_short n (with_short c d) He Hr Hn Hk).
      simpl. f_equal. by rewrite <- fail_with_with_short.
  - destruct (read_within n d Hn Hr) as (b & d' & -> & Hw).
    apply (within_nonneg _ _ Hw).
Qed.

Lemma steady_with_short_setError c e : steady (with_short c) (setError e).
Proof.
  intros d Hr. split.
  - rewrite !setError_spec. simpl. destruct (err d); [done|].
    destruct e; [|done]. f_equal. by rewrite <- fail_with_with_short.
  - destruct (setError_within e d Hr) as (d' & -> & Hw).
    apply (within_nonneg _ _ Hw).
Qed.

(** X23. What a plan decodes does not depend on how the source hands
    out its bytes: over the same bytes delivered at most [c] at a time,
    every compiled plan, classic or flexible, returns the same value, or
    panics alike, and ends in the same decoder, because [io.ReadFull]
    reads on until it has what it asked for (the custom codecs being
    assumed not to depend on it either). *)
Theorem decoding_does_not_depend_on_short_reads
    (ReadFrom : nat -> val -> M (val * option error))
    c typ version flexible tag f v d :
  (forall name v, steady (with_short c) (ReadFrom name v)) ->
  decodeFuncOf ReadFrom typ version flexible tag = Some f ->
  0 <= remain d ->
  f v (with_short c d) = map_final (with_short c) (f v d).
Proof.
  intros HRF Hf Hr.
  apply (steady_decodeFuncOf (with_short c) ReadFrom
           (fun d => eq_refl) (fun d => eq_refl) (fun d => eq_refl)
           (steady_with_short_readFull c) (steady_with_short_read c)
           (steady_with_short_setError c) HRF
           typ version flexible tag f Hf v d Hr).
Qed.

Lemma decoding_does_not_depend_on_short_reads_witness :
  let d := bound (bytesReader (bytes_of [0; 0; 0; 7; 0; 2; 104; 105])) 8 in
  let f := structDecode
             [{| decode := decodeInt32; index := 0; tagID := -2 |};
              {| decode := decodeString; index := 1; tagID := -2 |}] ∅ false in
  f (zero scenarioA) (with_short 1 d)
  = map_final (with_short 1) (f (zero scenarioA) d).
Proof.
  intros d f.
  apply (decoding_does_not_depend_on_short_reads noReadFrom 1 scenarioA 1 false
           rootTag f (zero scenarioA) d).
  - intros name v d1 Hd1. by split.
  - reflexivity.
  - simpl. lia.
Defined.
